(** * libyang dictionary of strings (dict.c) over the hash table of
      hash_table_internal.h

    The dictionary interns C strings: every stored string is owned by one
    record [{value, refcount}] of a generic hash table.  The development
    embeds the functions of dict.c as state-passing functions over a heap of
    byte blocks, the table of the session and a trace of log and lock
    events, and proves the properties of the specification about them. *)

From Stdlib Require Import ZArith Lia Strings.Byte.
From stdpp Require Import base numbers list option gmap.

Open Scope Z_scope.

(** ** Machine integers, bytes and C strings *)

Definition UINT32_MAX : Z := 4294967295.

(** Arithmetic on [uint32_t] wraps around. *)
Definition u32 (z : Z) : Z := z mod 4294967296.


#[global] Instance byte_eq_decision : EqDecision byte := byte_eq_dec.

Definition NULL : Z := 0.

Definition byte_val (b : byte) : Z := Z.of_N (Byte.to_N b).

(** The bytes of a buffer before its first NUL.  A buffer is the list of the
    bytes readable from a pointer; a C string ends at the first ["000"]. *)
Fixpoint c_str (bs : list byte) : list byte :=
  match bs with
  | [] => []
  | b :: rest => if decide (b = x00) then [] else b :: c_str rest
  end.

Definition strlen (bs : list byte) : Z := Z.of_nat (length (c_str bs)).

(** [strcmp]: difference of the first two bytes that differ, as unsigned
    chars; the end of a buffer reads as the terminator. *)
Fixpoint strcmp (s1 s2 : list byte) : Z :=
  match s1 with
  | [] => 0 - byte_val (hd x00 s2)
  | a :: r1 =>
      if decide (a = hd x00 s2)
      then if decide (a = x00) then 0 else strcmp r1 (tl s2)
      else byte_val a - byte_val (hd x00 s2)
  end.

(** ** The heap of string buffers

    A pointer is the address of a block; [NULL] is 0.  The heap maps the
    address of every readable block to its bytes.  Reading through an address
    with no block is undefined in C; the embedding reads the empty buffer
    there, and the theorems assume the blocks they read. *)
Abbreviation mem := (gmap Z (list byte)).

Definition load (m : mem) (p : Z) : list byte := default [] (m !! p).

Definition free (p : Z) (m : mem) : mem := delete p m.

(** ** Error codes and the trace of observable events *)

(** The members of [LY_ERR] (log.h) that the dictionary returns. *)
Inductive LY_ERR :=
  | LY_SUCCESS | LY_EMEM | LY_EINVAL | LY_EEXIST | LY_ENOTFOUND | LY_EINT.

#[global] Instance LY_ERR_eq_dec : EqDecision LY_ERR.
Proof. solve_decision. Defined.

(** Calls of the logging macros and of the mutex functions, in program
    order.  [LOGWRN] carries the string and the number it prints,
    [LOGERR] the error code and the string, [LOGDBG] the string. *)
Inductive event :=
  | LOGDBG (text : list byte)
  | LOGERR (err : LY_ERR) (text : list byte)
  | LOGWRN (text : list byte) (count : Z)
  | LOGARG
  | LOGINT
  | LOGMEM
  | pthread_mutex_init
  | pthread_mutex_lock
  | pthread_mutex_unlock
  | pthread_mutex_destroy.

#[global] Instance event_eq_dec : EqDecision event.
Proof. solve_decision. Defined.

(** ** Data model of hash_table_internal.h *)

Definition LYHT_HUNDRED_PERCENTAGE : Z := 100.
Definition LYHT_ENLARGE_PERCENTAGE : Z := 75.
Definition LYHT_FIRST_SHRINK_PERCENTAGE : Z := 50.
Definition LYHT_SHRINK_PERCENTAGE : Z := 25.
Definition LYHT_MIN_SIZE : Z := 8.
Definition LYHT_NO_RECORD : Z := UINT32_MAX.

(** [struct ly_dict_rec]: the stored string and its reference count. *)
Record ly_dict_rec := { value : Z; refcount : Z }.

(** [struct ly_ht_rec], with the payload [val] read as the dictionary
    record it holds in this table. *)
Record ly_ht_rec := { hash : Z; next : Z; val : ly_dict_rec }.

Record ly_ht_bucket := { first : Z; last : Z }.

(** [lyht_value_equal_cb]: the callback gets the heap it reads the strings
    from, the two record pointers ([None] is a null pointer), the mode flag
    and the callback data; it returns its [ly_bool] and what it logged. *)
Definition lyht_value_equal_cb : Type :=
  mem -> option ly_dict_rec -> option ly_dict_rec -> Z -> Z -> Z * list event.

(** [struct ly_ht].  The record array is the list of its slots; [rec_size],
    the size of a slot in bytes, has no counterpart. *)
Record ly_ht := {
  used : Z;
  size : Z;
  val_equal : lyht_value_equal_cb;
  cb_data : Z;
  resize : Z;
  first_free_rec : Z;
  buckets : list ly_ht_bucket;
  recs : list ly_ht_rec
}.

#[global] Instance ly_dict_rec_eq_dec : EqDecision ly_dict_rec.
Proof. solve_decision. Defined.
#[global] Instance ly_ht_rec_eq_dec : EqDecision ly_ht_rec.
Proof. solve_decision. Defined.
#[global] Instance ly_ht_bucket_eq_dec : EqDecision ly_ht_bucket.
Proof. solve_decision. Defined.

(** [lyht_get_rec]: the slot at an index. *)
Definition lyht_get_rec (rs : list ly_ht_rec) (idx : Z) : option ly_ht_rec :=
  if decide (0 <= idx) then rs !! Z.to_nat idx else None.

(** [LYHT_ITER_BUCKET_RECS]: the records of a collision chain from index
    [rec_idx] on, each with its index.  The C loop runs until it reads
    [LYHT_NO_RECORD]; on a chain that leaves the array or never ends it is
    undefined or endless, and the embedding stops there ([fuel] is the
    number of slots, which a well-formed chain never exceeds). *)
Fixpoint LYHT_ITER_BUCKET_RECS (fuel : nat) (rs : list ly_ht_rec) (rec_idx : Z)
  : list (Z * ly_ht_rec) :=
  match fuel with
  | O => []
  | S f =>
      if decide (rec_idx = LYHT_NO_RECORD) then []
      else match lyht_get_rec rs rec_idx with
           | None => []
           | Some r => (rec_idx, r) :: LYHT_ITER_BUCKET_RECS f rs (next r)
           end
  end.

Definition bucket_recs (ht : ly_ht) (bk : ly_ht_bucket) : list (Z * ly_ht_rec) :=
  LYHT_ITER_BUCKET_RECS (length (recs ht)) (recs ht) (first bk).

(** [LYHT_ITER_ALL_RECS]: bucket after bucket, each chain in order. *)
Definition LYHT_ITER_ALL_RECS (ht : ly_ht) : list (Z * ly_ht_rec) :=
  concat (bucket_recs ht <$> take (Z.to_nat (size ht)) (buckets ht)).

(** What the table stores, in iteration order: the cached hash and the
    dictionary record of every live slot. *)
Definition entries (ht : ly_ht) : list (Z * ly_dict_rec) :=
  (fun ir => (hash ir.2, val ir.2)) <$> LYHT_ITER_ALL_RECS ht.

(** The dictionary records stored in the table, in iteration order. *)
Definition dict_recs (ht : ly_ht) : list ly_dict_rec := (entries ht).*2.

(** ** The generic hash table

    hash_table.c is not among the sources: [lyht_new], [lyht_find],
    [lyht_insert_with_resize_cb], [lyht_remove_with_resize_cb] and
    [lyht_free] are known from their calls in dict.c, from the data model
    and the constants of hash_table_internal.h, and from the specification.
    Allocation inside a table call can fail; [ht_alloc] says, for one call,
    whether growing the record array and whether allocating the arrays of a
    resize succeed. *)

Record ht_alloc := { grow_ok : bool; resize_ok : bool }.

Definition set_recs (rs : list ly_ht_rec) (ht : ly_ht) : ly_ht :=
  {| used := used ht; size := size ht; val_equal := val_equal ht;
     cb_data := cb_data ht; resize := resize ht;
     first_free_rec := first_free_rec ht; buckets := buckets ht; recs := rs |}.

Definition set_first_free_rec (i : Z) (ht : ly_ht) : ly_ht :=
  {| used := used ht; size := size ht; val_equal := val_equal ht;
     cb_data := cb_data ht; resize := resize ht;
     first_free_rec := i; buckets := buckets ht; recs := recs ht |}.

Definition set_resize (z : Z) (ht : ly_ht) : ly_ht :=
  {| used := used ht; size := size ht; val_equal := val_equal ht;
     cb_data := cb_data ht; resize := z;
     first_free_rec := first_free_rec ht; buckets := buckets ht;
     recs := recs ht |}.

Definition set_next (i : Z) (r : ly_ht_rec) : ly_ht_rec :=
  {| hash := hash r; next := i; val := val r |}.

(** The truth value of a callback on two records of the table. *)
Definition cb_holds (cb : lyht_value_equal_cb) (m : mem) (data : Z)
    (a b : ly_dict_rec) (md : Z) : bool :=
  bool_decide ((cb m (Some a) (Some b) md data).1 <> 0).

(** Chain placement is [hash & (size - 1)]. *)
Definition bucket_of (ht : ly_ht) (h : Z) : Z := Z.land h (size ht - 1).

(** First record of a chain that the comparison accepts. *)
Fixpoint find_rec (eq : ly_dict_rec -> bool) (l : list (Z * ly_ht_rec))
  : option Z :=
  match l with
  | [] => None
  | (i, r) :: l' => if eq (val r) then Some i else find_rec eq l'
  end.

(** The same walk, remembering the predecessor in the chain. *)
Fixpoint find_rec_prev (eq : ly_dict_rec -> bool) (prev : Z)
    (l : list (Z * ly_ht_rec)) : option (Z * Z * ly_ht_rec) :=
  match l with
  | [] => None
  | (i, r) :: l' =>
      if eq (val r) then Some (prev, i, r) else find_rec_prev eq i l'
  end.

Definition lyht_find_rec (ht : ly_ht) (eq : ly_dict_rec -> bool) (h : Z)
  : option Z :=
  match buckets ht !! Z.to_nat (bucket_of ht h) with
  | None => None
  | Some bk => find_rec eq (bucket_recs ht bk)
  end.

(** Modelled from the spec: [lyht_find] (hash_table.c is missing) walks the
    chain of bucket [hash & (size-1)], calling the table's callback on the
    probe and each candidate in lookup mode (0), and returns the first match
    or "not found". *)
Definition lyht_find (ht : ly_ht) (m : mem) (val_p : ly_dict_rec) (h : Z)
  : LY_ERR * option Z :=
  match lyht_find_rec ht
          (fun c => cb_holds (val_equal ht) m (cb_data ht) val_p c 0) h with
  | Some i => (LY_SUCCESS, Some i)
  | None => (LY_ENOTFOUND, None)
  end.

Definition blank_val : ly_dict_rec := {| value := NULL; refcount := 0 |}.

Definition blank_rec : ly_ht_rec :=
  {| hash := 0; next := LYHT_NO_RECORD; val := blank_val |}.

(** Modelled from the spec: a slot for a new record is taken from the free
    list if it is non-empty, else the record array is grown by one slot
    (which fails when the allocation fails or the indices below
    [LYHT_NO_RECORD] are used up). *)
Definition lyht_alloc_rec (ht : ly_ht) (grow : bool) : option (Z * ly_ht) :=
  if decide (first_free_rec ht = LYHT_NO_RECORD) then
    if grow && bool_decide (Z.of_nat (length (recs ht)) < LYHT_NO_RECORD)
    then Some (Z.of_nat (length (recs ht)),
               set_recs (recs ht ++ [blank_rec]) ht)
    else None
  else
    match lyht_get_rec (recs ht) (first_free_rec ht) with
    | Some r => Some (first_free_rec ht, set_first_free_rec (next r) ht)
    | None => None
    end.

(** Modelled from the spec: the record is copied into its slot, appended to
    the chain of its bucket through the bucket's [last], and [used] is
    incremented. *)
Definition lyht_link_rec (ht : ly_ht) (idx h : Z) (v : ly_dict_rec) : ly_ht :=
  let b := Z.to_nat (bucket_of ht h) in
  match buckets ht !! b with
  | None => ht
  | Some bk =>
      let rs := <[Z.to_nat idx :=
                    {| hash := h; next := LYHT_NO_RECORD; val := v |}]>
                  (recs ht) in
      let rs' := if decide (first bk = LYHT_NO_RECORD) then rs
                 else alter (set_next idx) (Z.to_nat (last bk)) rs in
      let bk' := {| first := if decide (first bk = LYHT_NO_RECORD)
                             then idx else first bk;
                    last := idx |} in
      {| used := used ht + 1; size := size ht; val_equal := val_equal ht;
         cb_data := cb_data ht; resize := resize ht;
         first_free_rec := first_free_rec ht;
         buckets := <[b := bk']> (buckets ht); recs := rs' |}
  end.

(** Modelled from the spec: relocation of one live record into the table
    being rebuilt.  The resize callback compares it (mode 1, "inserting new
    values") with the records already in its new bucket; a true duplicate is
    merged, any other record gets a slot at the end of the compact record
    array and is appended to its chain. *)
Definition lyht_reinsert (m : mem) (cb : lyht_value_equal_cb) (t : ly_ht)
    (r : ly_ht_rec) : ly_ht :=
  match lyht_find_rec t (fun c => cb_holds cb m (cb_data t) (val r) c 1)
          (hash r) with
  | Some _ => t
  | None =>
      match lyht_alloc_rec t true with
      | Some (idx, t1) => lyht_link_rec t1 idx (hash r) (val r)
      | None => t
      end
  end.

Definition empty_bucket : ly_ht_bucket :=
  {| first := LYHT_NO_RECORD; last := LYHT_NO_RECORD |}.

(** Modelled from the spec: resize allocates a bucket array of the new size
    and a compact record array, re-hashes the cached hash of every live
    record against the new size and rebuilds every chain and the (empty)
    free list from scratch. *)
Definition lyht_resize (ht : ly_ht) (m : mem) (cb : lyht_value_equal_cb)
    (new_size : Z) : ly_ht :=
  fold_left (lyht_reinsert m cb) (snd <$> LYHT_ITER_ALL_RECS ht)
    {| used := 0; size := new_size; val_equal := val_equal ht;
       cb_data := cb_data ht; resize := resize ht;
       first_free_rec := LYHT_NO_RECORD;
       buckets := replicate (Z.to_nat new_size) empty_bucket; recs := [] |}.

(** Fill ratio in percent. *)
Definition fill_percent (ht : ly_ht) : Z :=
  used ht * LYHT_HUNDRED_PERCENTAGE / size ht.

(** Modelled from the spec: [lyht_insert_with_resize_cb].  An equal record
    found by [lyht_find] gives [LY_EEXIST] and that record, with the table
    untouched.  Otherwise the record is stored; only then the fill ratio is
    checked: from [LYHT_FIRST_SHRINK_PERCENTAGE] on shrinking gets enabled
    ([resize] 1 becomes 2), from [LYHT_ENLARGE_PERCENTAGE] on a table with
    resizing enabled doubles.  After a resize the inserted value is found
    again with the resize callback in mode 0.  A failed allocation for the
    new arrays abandons the resize only. *)
Definition lyht_insert_with_resize_cb (ht : ly_ht) (m : mem)
    (val_p : ly_dict_rec) (h : Z) (resize_val_equal : lyht_value_equal_cb)
    (a : ht_alloc) : LY_ERR * option Z * ly_ht :=
  match lyht_find ht m val_p h with
  | (LY_SUCCESS, mt) => (LY_EEXIST, mt, ht)
  | _ =>
      match lyht_alloc_rec ht (grow_ok a) with
      | None => (LY_EMEM, None, ht)
      | Some (idx, ht1) =>
          let ht2 := lyht_link_rec ht1 idx h val_p in
          let r := fill_percent ht2 in
          let ht3 :=
            if decide (resize ht2 = 1 /\ LYHT_FIRST_SHRINK_PERCENTAGE <= r)
            then set_resize 2 ht2 else ht2 in
          if decide (resize ht3 <> 0 /\ LYHT_ENLARGE_PERCENTAGE <= r) then
            if resize_ok a then
              let ht4 := lyht_resize ht3 m resize_val_equal (size ht3 * 2) in
              (LY_SUCCESS,
               lyht_find_rec ht4
                 (fun c => cb_holds resize_val_equal m (cb_data ht4) val_p c 0)
                 h,
               ht4)
            else (LY_SUCCESS, Some idx, ht3)
          else (LY_SUCCESS, Some idx, ht3)
      end
  end.

(** Modelled from the spec: the matching record is unlinked from its chain
    (the predecessor's [next], or the bucket's [first], skips it; [last]
    moves back when it was the tail), its slot goes to the head of the free
    list and [used] is decremented. *)
Definition lyht_unlink (ht : ly_ht) (b : nat) (bk : ly_ht_bucket)
    (prev idx : Z) (r : ly_ht_rec) : ly_ht :=
  let rs1 := if decide (prev = LYHT_NO_RECORD) then recs ht
             else alter (set_next (next r)) (Z.to_nat prev) (recs ht) in
  let bk' := {| first := if decide (prev = LYHT_NO_RECORD)
                         then next r else first bk;
                last := if decide (next r = LYHT_NO_RECORD)
                        then prev else last bk |} in
  {| used := used ht - 1; size := size ht; val_equal := val_equal ht;
     cb_data := cb_data ht; resize := resize ht;
     first_free_rec := idx;
     buckets := <[b := bk']> (buckets ht);
     recs := alter (set_next (first_free_rec ht)) (Z.to_nat idx) rs1 |}.

(** Modelled from the spec: [lyht_remove_with_resize_cb].  After the unlink
    a table with shrinking enabled ([resize] 2) that is less than
    [LYHT_SHRINK_PERCENTAGE] percent full halves, never below
    [LYHT_MIN_SIZE]. *)
Definition lyht_remove_with_resize_cb (ht : ly_ht) (m : mem)
    (val_p : ly_dict_rec) (h : Z) (resize_val_equal : lyht_value_equal_cb)
    (a : ht_alloc) : LY_ERR * ly_ht :=
  let b := Z.to_nat (bucket_of ht h) in
  match buckets ht !! b with
  | None => (LY_ENOTFOUND, ht)
  | Some bk =>
      match find_rec_prev
              (fun c => cb_holds (val_equal ht) m (cb_data ht) val_p c 0)
              LYHT_NO_RECORD (bucket_recs ht bk) with
      | None => (LY_ENOTFOUND, ht)
      | Some (prev, idx, r) =>
          let ht1 := lyht_unlink ht b bk prev idx r in
          if decide (resize ht1 = 2
                     /\ fill_percent ht1 < LYHT_SHRINK_PERCENTAGE
                     /\ LYHT_MIN_SIZE < size ht1)
          then
            if resize_ok a then
              (LY_SUCCESS,
               lyht_resize ht1 m resize_val_equal
                 (Z.max (size ht1 / 2) LYHT_MIN_SIZE))
            else (LY_SUCCESS, ht1)
          else (LY_SUCCESS, ht1)
      end
  end.

(** The free slots of a new table, each pointing to the next one. *)
Definition free_slots (n : nat) : list ly_ht_rec :=
  (fun i => {| hash := 0;
               next := if decide (S i = n) then LYHT_NO_RECORD
                       else Z.of_nat (S i);
               val := blank_val |}) <$> seq 0 n.

(** Modelled from the spec: [lyht_new] rounds the size up to a power of two
    (at least [LYHT_MIN_SIZE]) and fails on an empty payload or a failed
    allocation; the table starts empty, every slot on the free list. *)
Definition lyht_new (sz val_size : Z) (val_eq : lyht_value_equal_cb)
    (data : Z) (resizable : Z) (alloc_ok : bool) : option ly_ht :=
  if decide (val_size = 0) then None
  else if negb alloc_ok then None
  else
    let n := Z.max LYHT_MIN_SIZE (2 ^ Z.log2_up sz) in
    Some {| used := 0; size := n; val_equal := val_eq; cb_data := data;
            resize := if decide (resizable = 0) then 0 else 1;
            first_free_rec := 0;
            buckets := replicate (Z.to_nat n) empty_bucket;
            recs := free_slots (Z.to_nat n) |}.


(** ** dict.c *)

Definition LYDICT_MIN_SIZE : Z := 1024.

(** [sizeof(struct ly_dict_rec)]; only its being non-zero is read. *)
Definition sizeof_ly_dict_rec : Z := 16.

(** [lydict_val_eq].  [LY_CHECK_ARG_RET] and [LY_CHECK_ERR_RET] (common.h)
    log and return the given value as soon as a check fails. *)
Definition lydict_val_eq : lyht_value_equal_cb :=
  fun m val1_p val2_p _ _ =>
    match val1_p, val2_p with
    | None, _ => (0, [LOGARG])
    | Some _, None => (0, [LOGARG])
    | Some r1, Some r2 =>
        let str1 := value r1 in
        let str2 := value r2 in
        if decide (str1 = NULL) then (0, [LOGARG])
        else if decide (str2 = NULL) then (0, [LOGARG])
        else if decide (strcmp (load m str1) (load m str2) = 0) then (1, [])
        else (0, [])
    end.

(** [lydict_resize_val_eq]. *)
Definition lydict_resize_val_eq : lyht_value_equal_cb :=
  fun m val1_p val2_p md data =>
    match val1_p, val2_p with
    | None, _ => (0, [LOGARG])
    | Some _, None => (0, [LOGARG])
    | Some r1, Some r2 =>
        let str1 := value r1 in
        let str2 := value r2 in
        if decide (str1 = NULL) then (0, [LOGARG])
        else if decide (str2 = NULL) then (0, [LOGARG])
        else if decide (md <> 0) then
          (* used when inserting new values *)
          if decide (strcmp (load m str1) (load m str2) = 0) then (1, [])
          else (0, [])
        else
          (* used when finding the original value again in the resized table *)
          lydict_val_eq m val1_p val2_p md data
    end.

(** The state the dictionary functions act on: the heap of string buffers,
    the table [ctx->dict.hash_tab] of the session, and the events so far. *)
Record world := { heap : mem; hash_tab : ly_ht; trace : list event }.

Definition log (e : event) (w : world) : world :=
  {| heap := heap w; hash_tab := hash_tab w; trace := trace w ++ [e] |}.

(** The dictionary record behind a [match] pointer, given as the index of
    its slot, and the assignment through such a pointer. *)
Definition get_val (ht : ly_ht) (mt : Z) : ly_dict_rec :=
  from_option val blank_val (lyht_get_rec (recs ht) mt).

Definition set_val (mt : Z) (v : ly_dict_rec) (ht : ly_ht) : ly_ht :=
  if decide (0 <= mt)
  then set_recs (alter (fun r => {| hash := hash r; next := next r; val := v |})
                   (Z.to_nat mt) (recs ht)) ht
  else ht.

(** [match->value] for the pointer a table call returned; the table returns
    no null match with [LY_SUCCESS] or [LY_EEXIST], where C would fault. *)
Definition match_value (ht : ly_ht) (mt : option Z) : Z :=
  match mt with Some mi => value (get_val ht mi) | None => NULL end.

(** [*str_p = v] when [str_p] is not null.  An output pointer is [None]
    when null, else [Some] of what its cell holds. *)
Definition store_str (str_p : option Z) (v : Z) : option Z :=
  match str_p with Some _ => Some v | None => None end.

Section Dict.

(** [lyht_hash(value, len)], the digest of the first [len] bytes, comes from
    outside the dictionary: any function of the bytes. *)
Variable lyht_hash : list byte -> Z.

(** The reading of [rec->hits] in [lydict_clean]: [struct ly_ht_rec] of
    hash_table_internal.h declares no such member, so what the field holds
    is a parameter: any function of the index of the slot and of what the
    slot stores. *)
Variable hits : nat -> ly_ht_rec -> Z.

(** [lydict_init]; [dict] tells whether the pointer is non-null, [alloc_ok]
    whether the allocation in [lyht_new] succeeds.  The result is
    [dict->hash_tab] ([None] when not set) and the events. *)
Definition lydict_init (dict : bool) (alloc_ok : bool)
  : option ly_ht * list event :=
  if negb dict then (None, [LOGARG])
  else
    match lyht_new LYDICT_MIN_SIZE sizeof_ly_dict_rec lydict_val_eq NULL 1
            alloc_ok with
    | None => (None, [LOGINT])
    | Some ht => (Some ht, [pthread_mutex_init])
    end.



(** [lydict_remove]; [ctx] tells whether the session pointer is non-null. *)
Definition lydict_remove (w : world) (ctx : bool) (value_p : Z) (a : ht_alloc)
  : LY_ERR * world :=
  if negb ctx || bool_decide (value_p = NULL) then (LY_SUCCESS, w)
  else
    let w := log (LOGDBG (c_str (load (heap w) value_p))) w in
    let len := strlen (load (heap w) value_p) in
    let hash := lyht_hash (take (Z.to_nat len) (load (heap w) value_p)) in
    (* create record for lyht_find call *)
    let rec := {| value := value_p; refcount := 0 |} in
    let w := log pthread_mutex_lock w in
    (* check if value is already inserted *)
    let '(ret, mt) := lyht_find (hash_tab w) (heap w) rec hash in
    let '(ret, w) :=
      match ret with
      | LY_SUCCESS =>
          match mt with
          | None => (ret, log LOGINT w)
          | Some mi =>
              (* if value is already in dictionary, decrement reference
                 counter *)
              let old := get_val (hash_tab w) mi in
              let new := {| value := value old;
                            refcount := u32 (refcount old - 1) |} in
              let ht1 := set_val mi new (hash_tab w) in
              if decide (refcount new = 0) then
                (* remove record; the stored string is freed after it is
                   removed from the hash table *)
                let val_p := value new in
                let '(ret, ht2) :=
                  lyht_remove_with_resize_cb ht1 (heap w) rec hash
                    lydict_resize_val_eq a in
                let w := {| heap := free val_p (heap w); hash_tab := ht2;
                            trace := trace w |} in
                if decide (ret = LY_SUCCESS) then (ret, w)
                else (ret, log LOGINT w)
              else
                (ret, {| heap := heap w; hash_tab := ht1; trace := trace w |})
          end
      | LY_ENOTFOUND =>
          (ret, log (LOGERR LY_ENOTFOUND (c_str (load (heap w) value_p))) w)
      | _ => (ret, log LOGINT w)
      end in
    (ret, log pthread_mutex_unlock w).

(** [dict_insert].  The result is the return code, the output cell and the
    new state. *)
Definition dict_insert (w : world) (value_p : Z) (len : Z)
    (str_p : option Z) (a : ht_alloc) : LY_ERR * option Z * world :=
  let w := log (LOGDBG (take (Z.to_nat len) (c_str (load (heap w) value_p))))
             w in
  let hash := lyht_hash (take (Z.to_nat len) (load (heap w) value_p)) in
  (* create record for lyht_insert *)
  let rec := {| value := value_p; refcount := 1 |} in
  let '(ret, mt, ht1) :=
    lyht_insert_with_resize_cb (hash_tab w) (heap w) rec hash
      lydict_resize_val_eq a in
  match ret with
  | LY_EEXIST =>
      let ht2 :=
        match mt with
        | Some mi =>
            let old := get_val ht1 mi in
            set_val mi {| value := value old;
                          refcount := u32 (refcount old + 1) |} ht1
        | None => ht1
        end in
      (LY_SUCCESS, store_str str_p (match_value ht2 mt),
       {| heap := free value_p (heap w); hash_tab := ht2; trace := trace w |})
  | LY_SUCCESS =>
      (LY_SUCCESS, store_str str_p (match_value ht1 mt),
       {| heap := heap w; hash_tab := ht1; trace := trace w |})
  | _ =>
      (* lyht_insert returned error *)
      (ret, str_p,
       {| heap := free value_p (heap w); hash_tab := ht1; trace := trace w |})
  end.

(** [lydict_insert]; [value_copy] is what [malloc(len + 1)] returns in this
    call: [NULL] or the address of a new block. *)
Definition lydict_insert (w : world) (ctx : bool) (value_p : Z) (len : Z)
    (str_p : option Z) (value_copy : Z) (a : ht_alloc)
  : LY_ERR * option Z * world :=
  if negb ctx then (LY_EINVAL, str_p, log LOGARG w)
  else if decide (str_p = None) then (LY_EINVAL, str_p, log LOGARG w)
  else if decide (value_p = NULL) then (LY_SUCCESS, store_str str_p NULL, w)
  else
    let len := if decide (len = 0) then strlen (load (heap w) value_p)
               else len in
    if decide (value_copy = NULL) then (LY_EMEM, str_p, log LOGMEM w)
    else
      let copy := take (Z.to_nat len) (load (heap w) value_p) ++ [x00] in
      let w := {| heap := <[value_copy := copy]> (heap w);
                  hash_tab := hash_tab w; trace := trace w |} in
      let w := log pthread_mutex_lock w in
      let '(result, out, w) := dict_insert w value_copy len str_p a in
      (result, out, log pthread_mutex_unlock w).

(** [lydict_insert_zc]. *)
Definition lydict_insert_zc (w : world) (ctx : bool) (value_p : Z)
    (str_p : option Z) (a : ht_alloc) : LY_ERR * option Z * world :=
  if negb ctx then (LY_EINVAL, str_p, log LOGARG w)
  else if decide (str_p = None) then (LY_EINVAL, str_p, log LOGARG w)
  else if decide (value_p = NULL) then (LY_SUCCESS, store_str str_p NULL, w)
  else
    let w := log pthread_mutex_lock w in
    let '(result, out, w) :=
      dict_insert w value_p (strlen (load (heap w) value_p)) str_p a in
    (result, out, log pthread_mutex_unlock w).

End Dict.

(** ** Well-formed tables and the invariant of the dictionary *)

(** A collision chain, read as the list of its records: every entry is the
    slot its predecessor points to. *)
Fixpoint is_seg (rs : list ly_ht_rec) (start : Z) (l : list (Z * ly_ht_rec))
  : Prop :=
  match l with
  | [] => True
  | (i, r) :: l' =>
      start = i /\ i <> LYHT_NO_RECORD /\ lyht_get_rec rs i = Some r
      /\ is_seg rs (next r) l'
  end.

(** Where the walk goes after the records of [l]. *)
Definition seg_end (start : Z) (l : list (Z * ly_ht_rec)) : Z :=
  match list.last l with
  | None => start
  | Some ir => next ir.2
  end.

(** Bucket [b] is well formed: its chain ends with [LYHT_NO_RECORD], [last]
    is the index of its tail, and every record of the chain hashes to [b]. *)
Definition bucket_ok (ht : ly_ht) (b : nat) (bk : ly_ht_bucket) : Prop :=
  seg_end (first bk) (bucket_recs ht bk) = LYHT_NO_RECORD
  /\ (bucket_recs ht bk = []
      \/ list.last (bucket_recs ht bk).*1 = Some (last bk))
  /\ Forall (fun ir => bucket_of ht (hash ir.2) = Z.of_nat b)
       (bucket_recs ht bk).

Definition free_recs (ht : ly_ht) : list (Z * ly_ht_rec) :=
  LYHT_ITER_BUCKET_RECS (length (recs ht)) (recs ht) (first_free_rec ht).

(** The invariants of the data model: one bucket per unit of [size], every
    chain and the free list well formed, no slot on two of them, or twice
    on one, no slot at the index [LYHT_NO_RECORD] or beyond, and [used]
    the number of records on the chains. *)
Definition ht_wf (ht : ly_ht) : Prop :=
  0 < size ht
  /\ length (buckets ht) = Z.to_nat (size ht)
  /\ Forall (fun bb => bucket_ok ht bb.1 bb.2) (imap pair (buckets ht))
  /\ seg_end (first_free_rec ht) (free_recs ht) = LYHT_NO_RECORD
  /\ NoDup ((LYHT_ITER_ALL_RECS ht).*1 ++ (free_recs ht).*1)
  /\ Z.of_nat (length (recs ht)) <= LYHT_NO_RECORD
  /\ used ht = Z.of_nat (length (LYHT_ITER_ALL_RECS ht)).

#[global] Instance ht_wf_dec ht : Decision (ht_wf ht).
Proof. unfold ht_wf, bucket_ok. apply _. Defined.

(** The string a dictionary record holds. *)
Definition rec_str (m : mem) (r : ly_dict_rec) : list byte :=
  c_str (load m (value r)).

Section Invariant.

Variable lyht_hash : list byte -> Z.

(** A stored record owns a block of the heap, and its cached hash is the
    hash of the string in that block. *)
Definition entry_ok (m : mem) (e : Z * ly_dict_rec) : Prop :=
  value e.2 <> NULL
  /\ is_Some (m !! value e.2)
  /\ e.1 = lyht_hash (rec_str m e.2).

(** The invariant of the dictionary: the table is well formed and holds
    every string once. *)
Definition dict_inv (m : mem) (ht : ly_ht) : Prop :=
  ht_wf ht
  /\ Forall (entry_ok m) (entries ht)
  /\ NoDup (rec_str m <$> dict_recs ht).

#[global] Instance dict_inv_dec m ht : Decision (dict_inv m ht).
Proof. unfold dict_inv, entry_ok. apply _. Defined.

(** A state of the dictionary as [lydict_init] and the operations leave it:
    the table compares with [lydict_val_eq] and the invariant holds. *)
Definition dict_ok (w : world) : Prop :=
  val_equal (hash_tab w) = lydict_val_eq
  /\ dict_inv (heap w) (hash_tab w).

End Invariant.

(** ** Chains as lists *)

Local Abbreviation NO := LYHT_NO_RECORD.

(** What a slot stores: the cached hash and the dictionary record. *)
Definition key (r : ly_ht_rec) : Z * ly_dict_rec := (hash r, val r).

(** The table read as lists: [ls] holds the chain of every bucket, [fl]
    the free list.  [ht_wf] is this with the lists that the iteration
    macros compute. *)
Record ht_rep (ht : ly_ht) (ls : list (list (Z * ly_ht_rec)))
    (fl : list (Z * ly_ht_rec)) : Prop := {
  rep_size : 0 < size ht;
  rep_nb : length (buckets ht) = Z.to_nat (size ht);
  rep_len : length ls = length (buckets ht);
  rep_seg : forall b bk l, buckets ht !! b = Some bk -> ls !! b = Some l ->
      is_seg (recs ht) (first bk) l /\ seg_end (first bk) l = NO
      /\ (l = [] \/ list.last l.*1 = Some (last bk))
      /\ Forall (fun ir => bucket_of ht (hash ir.2) = Z.of_nat b) l;
  rep_free : is_seg (recs ht) (first_free_rec ht) fl
             /\ seg_end (first_free_rec ht) fl = NO;
  rep_nodup : NoDup ((concat ls).*1 ++ fl.*1);
  rep_cap : Z.of_nat (length (recs ht)) <= NO;
  rep_used : used ht = Z.of_nat (length (concat ls))
}.

(** [dict_inv] on the lists of [ht_rep]. *)
Definition drep (lyht_hash : list byte -> Z) (m : mem) (ht : ly_ht)
    (ls : list (list (Z * ly_ht_rec))) (fl : list (Z * ly_ht_rec)) : Prop :=
  ht_rep ht ls fl
  /\ Forall (entry_ok lyht_hash m) (key <$> (concat ls).*2)
  /\ NoDup (rec_str m <$> (key <$> (concat ls).*2).*2).

(** The effect of [set_val] on an entry of a chain. *)
Definition upd (mi : Z) (v' : ly_dict_rec) (ir : Z * ly_ht_rec) : Z * ly_ht_rec :=
  if decide (ir.1 = mi)
  then (ir.1, {| hash := hash ir.2; next := next ir.2; val := v' |}) else ir.

(** The length [lydict_insert] works with: [if (!len) len = strlen(value)]. *)
Definition eff_len (bs : list byte) (len : Z) : Z :=
  if decide (len = 0) then strlen bs else len.

(** The free list of a new table: every slot, in index order. *)
Definition free_chain (n k len : nat) : list (Z * ly_ht_rec) :=
  (fun i => (Z.of_nat i,
             {| hash := 0;
                next := if decide (S i = n) then NO else Z.of_nat (S i);
                val := blank_val |})) <$> seq k len.





(** ** Runs of calls *)

Section Seq.
Variable lyht_hash : list byte -> Z.

(** A run of [lydict_insert] calls for the same buffer and length, one
    after the other; every call comes with what its [malloc] returns and
    with the outcomes of the allocations of the table.  The result is the
    return code and the output cell of every call, in call order, and the
    last state. *)
Fixpoint lydict_insert_seq (w : world) (value_p len : Z)
    (calls : list (Z * ht_alloc)) : list (LY_ERR * option Z) * world :=
  match calls with
  | [] => ([], w)
  | c :: cs =>
      let '(ret, out, w1) :=
        lydict_insert lyht_hash w true value_p len (Some NULL) c.1 c.2 in
      let '(rs, w2) := lydict_insert_seq w1 value_p len cs in
      ((ret, out) :: rs, w2)
  end.

End Seq.

(** ** A small dictionary *)

(** A stand-in for [lyht_hash]: the length of the string. *)
Definition hash0 (bs : list byte) : Z := Z.of_nat (length bs).


Definition a0 : ht_alloc := {| grow_ok := true; resize_ok := true |}.

(** An empty table of [LYHT_MIN_SIZE] buckets. *)
Definition ht0 : ly_ht :=
  {| used := 0; size := 8; val_equal := lydict_val_eq; cb_data := NULL;
     resize := 1; first_free_rec := 0;
     buckets := replicate 8 empty_bucket; recs := free_slots 8 |}.

(** The caller's buffer [1] holds "ab"; nothing is stored. *)
Definition w0 : world :=
  {| heap := {[ 1 := [x61; x62; x00] ]}; hash_tab := ht0; trace := [] |}.

(** "ab" stored once, in block [2]. *)
Definition w1 : world :=
  (lydict_insert hash0 w0 true 1 0 (Some NULL) 2 a0).2.

(** "ab" stored twice. *)
Definition w2 : world :=
  (lydict_insert hash0 w1 true 1 0 (Some NULL) 3 a0).2.

(** "ab" stored with a refcount of [UINT32_MAX], the state after that many
    calls of [lydict_insert]. *)
Definition wmax : world :=
  {| heap := heap w1;
     hash_tab := set_val 0 {| value := 2; refcount := UINT32_MAX |}
                   (hash_tab w1);
     trace := [] |}.



(** ** hash_table_internal.h: the layout of the record array *)

(** [lyht_align_rec_size]: [(rec_size + 7) & ~7] on [uint32_t]; the [int]
    [~7] is converted to [uint32_t] for the conjunction. *)
Definition lyht_align_rec_size (rec_size : Z) : Z :=
  Z.land (u32 (rec_size + 7)) (u32 (Z.lnot 7)).

(** The byte offset [idx * lyht_align_rec_size(rec_size)] that
    [lyht_get_rec] indexes [recs] with, a product of two [uint32_t]. *)
Definition lyht_rec_offset (rec_size idx : Z) : Z :=
  u32 (idx * lyht_align_rec_size rec_size).

(** * Strings and callbacks *)


(** * Strings *)
Lemma byte_val_inj a b : byte_val a = byte_val b -> a = b.
Proof.
  unfold byte_val. intros H. apply N2Z.inj in H.
  assert (Some a = Some b) as [= ->]; [|done].
  by rewrite <- (Byte.of_to_N a), <- (Byte.of_to_N b), H.
Qed.

Lemma byte_val_x00 b : byte_val b = 0 <-> b = x00.
Proof.
  split; [|by intros ->]. intros H. apply byte_val_inj. by rewrite H.
Qed.

Lemma byte_val_diff a b : a <> b -> byte_val a - byte_val b <> 0.
Proof. intros H E. apply H, byte_val_inj. lia. Qed.

Lemma strcmp_eq s1 s2 : strcmp s1 s2 = 0 <-> c_str s1 = c_str s2.
Proof.
  revert s2. induction s1 as [|a r1 IH]; intros [|b r2]; simpl;
    repeat case_decide; subst; simpl in *; try done.
  all: try (rewrite IH; split; [by intros ->|by intros [= ->]]).
  all: split; [intros E; exfalso | intros E; by simplify_eq].
  all: change (byte_val x00) with 0 in *.
  - assert (b = x00) by (apply byte_val_inj; change (byte_val x00) with 0; lia). done.
  - assert (a = x00) by (apply byte_val_inj; change (byte_val x00) with 0; lia). done.
  - assert (b = x00) by (apply byte_val_inj; change (byte_val x00) with 0; lia). done.
  - assert (a = x00) by (apply byte_val_inj; change (byte_val x00) with 0; lia). done.
  - assert (a = b) by (apply byte_val_inj; lia). done.
Qed.

Lemma c_str_idem bs : c_str (c_str bs) = c_str bs.
Proof. induction bs as [|b r IH]; simpl; [done|]. case_decide; simpl; [done|]. rewrite decide_False by done. by f_equal. Qed.

Lemma c_str_nul_free bs : x00 ∉ bs -> c_str bs = bs.
Proof.
  induction bs as [|b r IH]; simpl; [done|]. intros H.
  rewrite not_elem_of_cons in H. destruct H as [H1 H2].
  rewrite decide_False by done. f_equal. auto.
Qed.

Lemma c_str_app_nul bs rest : x00 ∉ bs -> c_str (bs ++ x00 :: rest) = bs.
Proof.
  induction bs as [|b r IH]; simpl; [done|]. intros H.
  rewrite not_elem_of_cons in H. destruct H as [H1 H2].
  rewrite decide_False by done. f_equal. auto.
Qed.

Lemma c_str_no_nul bs : x00 ∉ c_str bs.
Proof.
  induction bs as [|b r IH]; simpl; [apply not_elem_of_nil|].
  case_decide; [apply not_elem_of_nil|]. rewrite not_elem_of_cons. split; [congruence|done].
Qed.

Lemma take_strlen bs : take (Z.to_nat (strlen bs)) bs = c_str bs.
Proof.
  unfold strlen. rewrite Nat2Z.id.
  induction bs as [|b r IH]; simpl; [done|]. case_decide; simpl; [done|]. by f_equal.
Qed.

Lemma c_str_prefix bs : ∃ rest, bs = c_str bs ++ rest.
Proof.
  induction bs as [|b r [rest IH]]; simpl; [by exists []|].
  case_decide; [by eexists|]. exists rest. simpl. by f_equal.
Qed.

(** * Callbacks *)
Lemma lydict_val_eq_spec m a b md d :
  value a <> NULL -> value b <> NULL ->
  lydict_val_eq m (Some a) (Some b) md d
  = (if decide (rec_str m a = rec_str m b) then 1 else 0, []).
Proof.
  intros Ha Hb. unfold lydict_val_eq, rec_str.
  repeat case_decide; try done; exfalso.
  - match goal with H : ¬ _ |- _ => apply H end. by apply strcmp_eq.
  - match goal with H : ¬ (strcmp _ _ = 0) |- _ => apply H end. by apply strcmp_eq.
Qed.

Lemma lydict_resize_val_eq_eq m a b md d :
  lydict_resize_val_eq m a b md d = lydict_val_eq m a b md d.
Proof.
  unfold lydict_resize_val_eq, lydict_val_eq. destruct a as [a|], b as [b|]; try done.
  repeat case_decide; done.
Qed.

Lemma cb_holds_val_eq m d a b md :
  value a <> NULL -> value b <> NULL ->
  cb_holds lydict_val_eq m d a b md = bool_decide (rec_str m a = rec_str m b).
Proof.
  intros Ha Hb. unfold cb_holds. rewrite lydict_val_eq_spec by done.
  simpl. case_decide.
  - rewrite bool_decide_eq_true_2 by done. by rewrite bool_decide_eq_true_2.
  - rewrite (bool_decide_eq_false_2 (_ = _)) by done. by rewrite bool_decide_eq_false_2 by lia.
Qed.

Lemma cb_holds_resize m d a b md :
  cb_holds lydict_resize_val_eq m d a b md = cb_holds lydict_val_eq m d a b md.
Proof. unfold cb_holds. by rewrite lydict_resize_val_eq_eq. Qed.

(** * Chains *)
Lemma land_mask_bound a b : 0 <= b -> 0 <= Z.land a b <= b.
Proof.
  intros Hb. split.
  - apply Z.land_nonneg. by right.
  - assert (H: b = Z.ldiff b a + Z.land b a).
    { rewrite <- (Z.lor_ldiff_and b a) at 1.
      symmetry. apply Z.add_nocarry_lor.
      apply Z.bits_inj'. intros n Hn.
      rewrite Z.land_spec, Z.ldiff_spec, Z.land_spec, Z.bits_0.
      by destruct (Z.testbit b n), (Z.testbit a n). }
    assert (0 <= Z.ldiff b a) by (apply Z.ldiff_nonneg; by left).
    rewrite (Z.land_comm a b). lia.
Qed.

Lemma bucket_of_range ht h : 0 < size ht -> 0 <= bucket_of ht h < size ht.
Proof. intros H. unfold bucket_of. pose proof (land_mask_bound h (size ht - 1)). lia. Qed.

(** Segments *)
Lemma seg_end_cons s i r l : seg_end s ((i, r) :: l) = seg_end (next r) l.
Proof. unfold seg_end. rewrite last_cons. by destruct (list.last l). Qed.

Lemma seg_end_nil s : seg_end s [] = s.
Proof. done. Qed.

Lemma is_seg_app rs s l1 l2 :
  is_seg rs s (l1 ++ l2) <-> is_seg rs s l1 /\ is_seg rs (seg_end s l1) l2.
Proof.
  revert s. induction l1 as [|[i r] l1 IH]; intros s.
  - simpl. rewrite seg_end_nil. tauto.
  - rewrite seg_end_cons. simpl. rewrite IH. tauto.
Qed.

Lemma seg_end_app s l1 l2 : seg_end s (l1 ++ l2) = seg_end (seg_end s l1) l2.
Proof.
  unfold seg_end. rewrite last_app. destruct (list.last l2); done.
Qed.

Lemma is_seg_get rs s l i r : is_seg rs s l -> (i, r) ∈ l -> lyht_get_rec rs i = Some r /\ i <> LYHT_NO_RECORD.
Proof.
  revert s. induction l as [|[j q] l IH]; intros s; simpl; [by intros _ ?%elem_of_nil|].
  intros (-> & Hj & Hg & Hs) [[= -> ->]|Hin]%elem_of_cons; [done|]. eauto.
Qed.

Lemma is_seg_transfer rs rs' s l :
  is_seg rs s l -> (forall i r, (i, r) ∈ l -> lyht_get_rec rs' i = Some r) ->
  is_seg rs' s l.
Proof.
  revert s. induction l as [|[j q] l IH]; intros s; simpl; [done|].
  intros (-> & Hj & Hg & Hs) H. split_and!; try done.
  - apply H. left.
  - apply IH; [done|]. intros i r Hi. apply H. by right.
Qed.

Lemma iter_is_seg fuel rs s : is_seg rs s (LYHT_ITER_BUCKET_RECS fuel rs s).
Proof.
  revert s. induction fuel as [|f IH]; intros s; simpl; [done|].
  case_decide; [done|]. destruct (lyht_get_rec rs s) eqn:E; simpl; [|done]. eauto.
Qed.

Lemma iter_complete fuel rs s l :
  is_seg rs s l -> seg_end s l = LYHT_NO_RECORD -> (length l <= fuel)%nat ->
  LYHT_ITER_BUCKET_RECS fuel rs s = l.
Proof.
  revert s l. induction fuel as [|f IH]; intros s l Hs He Hl.
  - destruct l; [done|simpl in Hl; lia].
  - simpl. destruct l as [|[i r] l].
    + rewrite seg_end_nil in He. by rewrite decide_True.
    + rewrite seg_end_cons in He. simpl in Hs, Hl.
      destruct Hs as (-> & Hi & Hg & Hs). rewrite decide_False by done.
      rewrite Hg. f_equal. apply IH; [done|done|lia].
Qed.

Lemma get_rec_lt rs i r : lyht_get_rec rs i = Some r -> 0 <= i < Z.of_nat (length rs).
Proof.
  unfold lyht_get_rec. case_decide; [|done]. intros ?%lookup_lt_Some. lia.
Qed.

Lemma nodup_bound (l : list Z) n :
  NoDup l -> (forall i, i ∈ l -> 0 <= i < Z.of_nat n) -> (length l <= n)%nat.
Proof.
  intros Hnd Hr.
  assert (l ⊆+ (Z.of_nat <$> seq 0 n)) as H.
  { apply NoDup_submseteq; [done|]. intros x Hx. apply Hr in Hx.
    apply list_elem_of_fmap. exists (Z.to_nat x). split; [lia|].
    apply elem_of_seq. lia. }
  apply submseteq_length in H. by rewrite length_fmap, length_seq in H.
Qed.

Lemma seg_bound rs s l : is_seg rs s l -> NoDup l.*1 -> (length l <= length rs)%nat.
Proof.
  intros Hs Hnd. rewrite <- (length_fmap fst l). apply nodup_bound; [done|].
  intros i [[j r] [-> Hin]]%list_elem_of_fmap. simpl.
  eapply get_rec_lt, is_seg_get; eauto.
Qed.

Lemma iter_complete' rs s l :
  is_seg rs s l -> seg_end s l = LYHT_NO_RECORD -> NoDup l.*1 ->
  LYHT_ITER_BUCKET_RECS (length rs) rs s = l.
Proof. intros. apply iter_complete; [done..|]. by eapply seg_bound. Qed.

Lemma split_at {A} (ls : list A) b l :
  ls !! b = Some l -> exists X Y, ls = X ++ l :: Y /\ length X = b.
Proof.
  intros H. exists (take b ls), (drop (S b) ls). split.
  - by rewrite take_drop_middle.
  - rewrite length_take. apply lookup_lt_Some in H. lia.
Qed.

Lemma nodup_chain (ls : list (list (Z * ly_ht_rec))) (fl : list (Z * ly_ht_rec)) b l :
  NoDup ((concat ls).*1 ++ fl.*1) -> ls !! b = Some l -> NoDup l.*1.
Proof.
  intros Hnd Hl. apply NoDup_app in Hnd as (Hnd & _ & _).
  apply split_at in Hl as (X & Y & -> & _).
  rewrite concat_app, concat_cons, !fmap_app in Hnd.
  apply NoDup_app in Hnd as (_ & _ & Hnd). by apply NoDup_app in Hnd as (Hnd & _ & _).
Qed.

Lemma rep_bucket_recs ht ls fl b bk l :
  ht_rep ht ls fl -> buckets ht !! b = Some bk -> ls !! b = Some l ->
  bucket_recs ht bk = l.
Proof.
  intros R Hb Hl. destruct (rep_seg _ _ _ R b bk l Hb Hl) as (Hs & He & _).
  apply iter_complete'; [done..|]. eapply nodup_chain; [apply R|done].
Qed.

Lemma rep_chains ht ls fl : ht_rep ht ls fl -> ls = bucket_recs ht <$> buckets ht.
Proof.
  intros R. apply list_eq_same_length with (length ls); [|done|].
  { rewrite length_fmap. symmetry. apply R. }
  intros i x y Hi Hx Hy. rewrite list_lookup_fmap in Hy.
  destruct (buckets ht !! i) as [bk|] eqn:Hb; simplify_eq/=.
  symmetry. by eapply rep_bucket_recs.
Qed.

Lemma rep_free_recs ht ls fl : ht_rep ht ls fl -> fl = free_recs ht.
Proof.
  intros R. destruct (rep_free _ _ _ R) as [Hs He]. symmetry.
  apply iter_complete'; [done..|].
  pose proof (rep_nodup _ _ _ R) as Hnd. by apply NoDup_app in Hnd as (_ & _ & Hnd).
Qed.

Lemma all_recs_buckets ht :
  length (buckets ht) = Z.to_nat (size ht) ->
  LYHT_ITER_ALL_RECS ht = concat (bucket_recs ht <$> buckets ht).
Proof. intros H. unfold LYHT_ITER_ALL_RECS. by rewrite take_ge by lia. Qed.

Lemma rep_all ht ls fl : ht_rep ht ls fl -> LYHT_ITER_ALL_RECS ht = concat ls.
Proof.
  intros R. rewrite all_recs_buckets by apply R. by rewrite <- (rep_chains _ _ _ R).
Qed.

Lemma rep_entries ht ls fl : ht_rep ht ls fl -> entries ht = key <$> (concat ls).*2.
Proof.
  intros R. unfold entries. rewrite (rep_all _ _ _ R).
  rewrite <- list_fmap_compose. done.
Qed.

Lemma wf_rep ht : ht_wf ht <-> ht_rep ht (bucket_recs ht <$> buckets ht) (free_recs ht).
Proof.
  split.
  - intros (Hsz & Hnb & Hbk & Hfr & Hnd & Hcap & Hused). split; try done.
    + by rewrite length_fmap.
    + intros b bk l Hb Hl. rewrite list_lookup_fmap, Hb in Hl. simplify_eq/=.
      rewrite Forall_lookup in Hbk.
      specialize (Hbk b (b, bk)). rewrite list_lookup_imap, Hb in Hbk.
      destruct (Hbk eq_refl) as (He & Hl & Hp). simpl in *.
      split_and!; try done. apply iter_is_seg.
    + split; [apply iter_is_seg|done].
    + by rewrite <- all_recs_buckets.
    + by rewrite <- all_recs_buckets.
  - intros R. split_and!; try apply R.
    + apply Forall_lookup. intros i [b bk] Hi.
      rewrite list_lookup_imap in Hi.
      destruct (buckets ht !! i) as [bk'|] eqn:Hb; simplify_eq/=.
      destruct (rep_seg _ _ _ R b bk (bucket_recs ht bk) Hb) as (Hs & He & Hl & Hp).
      { by rewrite list_lookup_fmap, Hb. }
      done.
    + rewrite all_recs_buckets by apply R. apply R.
    + rewrite all_recs_buckets by apply R. apply R.
Qed.

Lemma rep_wf ht ls fl : ht_rep ht ls fl -> ht_wf ht.
Proof.
  intros R. apply wf_rep. by rewrite <- (rep_chains _ _ _ R), <- (rep_free_recs _ _ _ R).
Qed.

Lemma rep_bucket ht ls fl h :
  ht_rep ht ls fl ->
  exists bk l, buckets ht !! Z.to_nat (bucket_of ht h) = Some bk
            /\ ls !! Z.to_nat (bucket_of ht h) = Some l.
Proof.
  intros R. pose proof (bucket_of_range ht h (rep_size _ _ _ R)) as Hr.
  destruct (lookup_lt_is_Some_2 (buckets ht) (Z.to_nat (bucket_of ht h))) as [bk Hb].
  { rewrite (rep_nb _ _ _ R). lia. }
  destruct (lookup_lt_is_Some_2 ls (Z.to_nat (bucket_of ht h))) as [l Hl].
  { rewrite (rep_len _ _ _ R), (rep_nb _ _ _ R). lia. }
  eauto.
Qed.

Lemma rep_find_rec ht ls fl eq h l :
  ht_rep ht ls fl -> ls !! Z.to_nat (bucket_of ht h) = Some l ->
  lyht_find_rec ht eq h = find_rec eq l.
Proof.
  intros R Hl. destruct (rep_bucket ht ls fl h R) as (bk & l' & Hb & Hl').
  unfold lyht_find_rec. rewrite Hb. f_equal. eapply rep_bucket_recs; eauto.
Qed.

(** * Slot updates *)
Lemma get_insert_eq rs idx x :
  is_Some (lyht_get_rec rs idx) -> lyht_get_rec (<[Z.to_nat idx := x]> rs) idx = Some x.
Proof.
  unfold lyht_get_rec. case_decide; [|by intros []]. intros [r Hr].
  apply list_lookup_insert_eq. by eapply lookup_lt_Some.
Qed.

Lemma get_insert_ne rs idx x i :
  0 <= idx -> i <> idx -> lyht_get_rec (<[Z.to_nat idx := x]> rs) i = lyht_get_rec rs i.
Proof.
  intros H0 Hne. unfold lyht_get_rec. case_decide; [|done].
  apply list_lookup_insert_ne. lia.
Qed.

Lemma get_alter_eq rs idx f :
  0 <= idx -> lyht_get_rec (alter f (Z.to_nat idx) rs) idx = f <$> lyht_get_rec rs idx.
Proof.
  intros H0. unfold lyht_get_rec. rewrite !decide_True by done.
  apply list_lookup_alter_eq.
Qed.

Lemma get_alter_ne rs idx f i :
  0 <= idx -> i <> idx -> lyht_get_rec (alter f (Z.to_nat idx) rs) i = lyht_get_rec rs i.
Proof.
  intros H0 Hne. unfold lyht_get_rec. case_decide; [|done].
  apply list_lookup_alter_ne. lia.
Qed.

Lemma get_app_l rs x i r :
  lyht_get_rec rs i = Some r -> lyht_get_rec (rs ++ x) i = Some r.
Proof.
  unfold lyht_get_rec. case_decide; [|done]. intros Hr. by apply lookup_app_l_Some.
Qed.

Lemma get_nonneg rs i r : lyht_get_rec rs i = Some r -> 0 <= i.
Proof. intros H%get_rec_lt. lia. Qed.

Lemma concat_split {A} (ls : list (list A)) b l L :
  ls !! b = Some l ->
  exists X Y, ls = X ++ l :: Y /\ length X = b /\ <[b := L]> ls = X ++ L :: Y.
Proof.
  intros H. destruct (split_at ls b l H) as (X & Y & -> & Hlen).
  exists X, Y. split_and!; [done..|].
  rewrite insert_app_r_alt by lia. by replace (b - length X)%nat with 0%nat by lia.
Qed.

Lemma lookup_middle_ne {A} (X Y : list A) l c lc :
  c <> length X -> (X ++ l :: Y) !! c = Some lc -> lc ∈ X ++ Y.
Proof.
  intros Hc H. apply elem_of_app.
  destruct (decide (c < length X)%nat).
  - left. rewrite lookup_app_l in H by done. by eapply list_elem_of_lookup_2.
  - right. rewrite lookup_app_r in H by lia.
    destruct (c - length X)%nat as [|k] eqn:E; [lia|]. simpl in H.
    by eapply list_elem_of_lookup_2.
Qed.

Lemma elem_of_concat {A} (x : A) (ls : list (list A)) :
  x ∈ concat ls <-> exists l, x ∈ l /\ l ∈ ls.
Proof.
  induction ls as [|l0 ls IH]; simpl.
  - split; [by intros ?%elem_of_nil|]. by intros (l & _ & ?%elem_of_nil).
  - rewrite elem_of_app, IH. split.
    + intros [H|(l & H1 & H2)]; [exists l0; split; [done|left]|exists l; split; [done|by right]].
    + intros (l & H1 & [->|H2]%elem_of_cons); [by left|right; eauto].
Qed.

Lemma elem_concat_fst (X : list (list (Z * ly_ht_rec))) lc i r :
  lc ∈ X -> (i, r) ∈ lc -> i ∈ (concat X).*1.
Proof.
  intros H1 H2. apply list_elem_of_fmap. exists (i, r). split; [done|].
  apply elem_of_concat. eauto.
Qed.

(** * Taking a slot *)
Lemma alloc_spec ht ls fl g idx ht1 :
  ht_rep ht ls fl -> lyht_alloc_rec ht g = Some (idx, ht1) ->
  exists fl', ht_rep ht1 ls fl' /\ (idx ∉ (concat ls).*1) /\ (idx ∉ fl'.*1)
    /\ is_Some (lyht_get_rec (recs ht1) idx) /\ idx <> NO
    /\ size ht1 = size ht /\ used ht1 = used ht /\ val_equal ht1 = val_equal ht
    /\ cb_data ht1 = cb_data ht /\ resize ht1 = resize ht
    /\ buckets ht1 = buckets ht.
Proof.
  intros R. unfold lyht_alloc_rec.
  destruct (rep_free _ _ _ R) as [Hfs Hfe].
  pose proof (rep_nodup _ _ _ R) as Hnd.
  case_decide as Hff.
  - destruct g; simpl; [|done]. case_bool_decide as Hlt; [|done].
    intros [= <- <-]. exists []. simpl.
    assert (fl = []) as ->.
    { destruct fl as [|[i r] fl]; [done|]. simpl in Hfs. destruct Hfs as (? & ? & _). congruence. }
    split_and!; try done.
    + split; simpl; [apply R|apply R|apply R| |done|apply R|rewrite length_app; simpl; lia|apply R].
      intros b bk l Hb Hl. destruct (rep_seg _ _ _ R b bk l Hb Hl) as (Hs & He & Hla & Hp).
      split_and!; try done. eapply is_seg_transfer; [done|].
      intros i r Hi. apply get_app_l. by eapply is_seg_get.
    + intros [[i r] [Hi Hin]]%list_elem_of_fmap. simpl in Hi. subst i.
      apply elem_of_concat in Hin as (l & Hin & Hl).
      apply list_elem_of_lookup in Hl as [b Hl].
      destruct (lookup_lt_is_Some_2 (buckets ht) b) as [bk Hb].
      { rewrite <- (rep_len _ _ _ R). by eapply lookup_lt_Some. }
      destruct (rep_seg _ _ _ R b bk l Hb Hl) as (Hs & _).
      destruct (is_seg_get _ _ _ _ _ Hs Hin) as [Hg _].
      apply get_rec_lt in Hg. lia.
    + apply not_elem_of_nil.
    + unfold lyht_get_rec. rewrite decide_True by lia. rewrite Nat2Z.id.
      rewrite lookup_app_r by done. rewrite Nat.sub_diag. by eexists.
    + lia.
  - destruct fl as [|[i r] fl'].
    { rewrite seg_end_nil in Hfe. done. }
    simpl in Hfs. destruct Hfs as (Hi & Hne & Hg & Hs). subst i.
    rewrite Hg. intros [= <- <-]. exists fl'. simpl.
    rewrite seg_end_cons in Hfe.
    rewrite fmap_cons in Hnd. simpl in Hnd.
    apply NoDup_app in Hnd as (Hn1 & Hn2 & Hn3).
    apply NoDup_cons in Hn3 as [Hn3 Hn4].
    split_and!; try done.
    + split; simpl; [apply R|apply R|apply R|apply R|done| |apply R|apply R].
      apply NoDup_app. split_and!; [done| |done].
      intros x Hx Hx'. eapply Hn2; [done|]. by right.
    + intros Hx. eapply Hn2; [done|]. by left.
Qed.

Lemma alloc_success ht ls fl g :
  ht_rep ht ls fl ->
  first_free_rec ht <> NO \/ (g = true /\ Z.of_nat (length (recs ht)) < NO) ->
  is_Some (lyht_alloc_rec ht g).
Proof.
  intros R H. unfold lyht_alloc_rec. destruct (rep_free _ _ _ R) as [Hfs Hfe].
  case_decide as Hff.
  - destruct H as [H|[-> H]]; [done|]. simpl. rewrite bool_decide_eq_true_2 by done. by eexists.
  - destruct fl as [|[i r] fl']; [by rewrite seg_end_nil in Hfe|].
    simpl in Hfs. destruct Hfs as (Hi & Hne & Hg & Hs). subst i. rewrite Hg. by eexists.
Qed.

(** * Linking a record at the tail of its chain *)
Lemma chain_disjoint (ls : list (list (Z * ly_ht_rec))) (fl : list (Z * ly_ht_rec))
    b l c lc i r :
  NoDup ((concat ls).*1 ++ fl.*1) -> ls !! b = Some l -> ls !! c = Some lc ->
  c <> b -> (i, r) ∈ lc -> i ∉ l.*1.
Proof.
  intros Hnd Hl Hlc Hcb Hin.
  destruct (split_at ls b l Hl) as (X & Y & -> & Hlen).
  apply lookup_middle_ne in Hlc; [|lia].
  apply NoDup_app in Hnd as (Hnd & _ & _).
  rewrite concat_app, concat_cons, !fmap_app in Hnd.
  apply NoDup_app in Hnd as (_ & HX & Hnd).
  apply NoDup_app in Hnd as (_ & HY & _).
  apply elem_of_app in Hlc as [Hlc|Hlc].
  - intros Hi. eapply HX; [by eapply elem_concat_fst|]. apply elem_of_app. by left.
  - intros Hi. eapply HY; [done|]. by eapply elem_concat_fst.
Qed.

Lemma in_chain_concat (ls : list (list (Z * ly_ht_rec))) b l i r :
  ls !! b = Some l -> (i, r) ∈ l -> i ∈ (concat ls).*1.
Proof. intros Hl Hin. eapply elem_concat_fst; [|done]. by eapply list_elem_of_lookup_2. Qed.

Lemma free_disjoint (A : list Z) (fl : list (Z * ly_ht_rec)) i r :
  NoDup (A ++ fl.*1) -> (i, r) ∈ fl -> i ∉ A.
Proof.
  intros (_ & H & _)%NoDup_app Hin Hi. eapply H; [done|].
  apply list_elem_of_fmap. by exists (i, r).
Qed.

Lemma nodup_insert_chain (ls : list (list (Z * ly_ht_rec))) (fl : list (Z * ly_ht_rec))
    b l L idx :
  NoDup ((concat ls).*1 ++ fl.*1) -> ls !! b = Some l -> L.*1 = l.*1 ++ [idx] ->
  idx ∉ (concat ls).*1 -> idx ∉ fl.*1 ->
  NoDup ((concat (<[b:=L]> ls)).*1 ++ fl.*1).
Proof.
  intros Hnd Hl HL Hn1 Hn2.
  destruct (concat_split ls b l L Hl) as (X & Y & -> & Hlen & ->).
  rewrite concat_app, concat_cons, !fmap_app, HL.
  rewrite concat_app, concat_cons, !fmap_app in Hnd, Hn1.
  assert (((concat X).*1 ++ (l.*1 ++ [idx]) ++ (concat Y).*1) ++ fl.*1
          ≡ₚ idx :: (((concat X).*1 ++ l.*1 ++ (concat Y).*1) ++ fl.*1)) as ->.
  { rewrite <- !(assoc_L (++)). rewrite (Permutation_app_comm [idx]).
    rewrite !(assoc_L (++)). rewrite <- Permutation_cons_append. done. }
  apply NoDup_cons. split; [|done]. rewrite elem_of_app. tauto.
Qed.

Lemma concat_insert_len (ls : list (list (Z * ly_ht_rec))) b l L idx :
  ls !! b = Some l -> L.*1 = l.*1 ++ [idx] ->
  length (concat (<[b:=L]> ls)) = S (length (concat ls)).
Proof.
  intros Hl HL.
  destruct (concat_split ls b l L Hl) as (X & Y & -> & Hlen & ->).
  apply (f_equal length) in HL. rewrite length_app, !length_fmap in HL. simpl in HL.
  rewrite !concat_app, !concat_cons, !length_app. lia.
Qed.

Lemma concat_insert_key (ls : list (list (Z * ly_ht_rec))) b l L e :
  ls !! b = Some l -> key <$> L.*2 = (key <$> l.*2) ++ [e] ->
  key <$> (concat (<[b:=L]> ls)).*2 ≡ₚ e :: (key <$> (concat ls).*2).
Proof.
  intros Hl HL.
  destruct (concat_split ls b l L Hl) as (X & Y & -> & Hlen & ->).
  rewrite !concat_app, !concat_cons, !fmap_app, HL.
  rewrite <- !(assoc_L (++)). rewrite (Permutation_app_comm [e]).
  rewrite !(assoc_L (++)). rewrite <- Permutation_cons_append. done.
Qed.

Lemma is_seg_start rs s l : is_seg rs s l -> l <> [] -> s <> NO.
Proof. destruct l as [|[i r] l]; [done|]. simpl. intros (-> & ? & _) _. done. Qed.

Lemma link_unfold ht idx h v bk :
  buckets ht !! Z.to_nat (bucket_of ht h) = Some bk ->
  lyht_link_rec ht idx h v =
   {| used := used ht + 1; size := size ht; val_equal := val_equal ht;
      cb_data := cb_data ht; resize := resize ht;
      first_free_rec := first_free_rec ht;
      buckets := <[Z.to_nat (bucket_of ht h) :=
                    {| first := if decide (first bk = NO) then idx else first bk;
                       last := idx |}]> (buckets ht);
      recs := if decide (first bk = NO)
              then <[Z.to_nat idx := {| hash := h; next := NO; val := v |}]> (recs ht)
              else alter (set_next idx) (Z.to_nat (last bk))
                     (<[Z.to_nat idx := {| hash := h; next := NO; val := v |}]> (recs ht)) |}.
Proof. intros H. unfold lyht_link_rec. by rewrite H. Qed.

Lemma link_spec ht ls fl idx h v :
  ht_rep ht ls fl -> idx ∉ (concat ls).*1 -> idx ∉ fl.*1 ->
  is_Some (lyht_get_rec (recs ht) idx) -> idx <> NO ->
  exists l L, ls !! Z.to_nat (bucket_of ht h) = Some l
     /\ ht_rep (lyht_link_rec ht idx h v) (<[Z.to_nat (bucket_of ht h) := L]> ls) fl
     /\ key <$> L.*2 = (key <$> l.*2) ++ [(h, v)]
     /\ L.*1 = l.*1 ++ [idx]
     /\ (idx, {| hash := h; next := NO; val := v |}) ∈ L.
Proof.
  intros R Hn1 Hn2 Hslot Hno.
  destruct (rep_bucket ht ls fl h R) as (bk & l & Hb & Hl).
  pose proof (bucket_of_range ht h (rep_size _ _ _ R)) as Hrange.
  set (b := Z.to_nat (bucket_of ht h)) in *.
  destruct (rep_seg _ _ _ R b bk l Hb Hl) as (Hs & He & Hla & Hp).
  pose proof (rep_nodup _ _ _ R) as Hnd.
  destruct (rep_free _ _ _ R) as [Hfs Hfe].
  assert (0 <= idx) as Hidx0 by (destruct Hslot as [? ?%get_nonneg]; done).
  assert (Hblt : (b < length (buckets ht))%nat) by (by eapply lookup_lt_Some).
  assert (Hblt' : (b < length ls)%nat) by (by eapply lookup_lt_Some).
  set (new := {| hash := h; next := NO; val := v |}).
  assert (Hother : forall c lc i r, ls !! c = Some lc -> (i, r) ∈ lc -> i <> idx).
  { intros c lc i r Hc Hin ->. apply Hn1. by eapply in_chain_concat. }
  assert (Hfree : forall i r, (i, r) ∈ fl -> i <> idx).
  { intros i r Hin ->. apply Hn2. apply list_elem_of_fmap. by exists (idx, r). }
  exists l. rewrite (link_unfold _ _ _ _ _ Hb).
  destruct l as [|[j rj] l0 _] using rev_ind.
  - rewrite seg_end_nil in He. rewrite !decide_True by done.
    exists [(idx, new)]. split_and!; try done; [|left].
    split; simpl.
    + apply R.
    + rewrite length_insert. apply R.
    + rewrite !length_insert. apply R.
    + intros c bkc lc Hc Hlc. destruct (decide (c = b)) as [->|Hcb].
      * rewrite list_lookup_insert_eq in Hc by done. rewrite list_lookup_insert_eq in Hlc by done. simplify_eq/=.
        split_and!; try done.
        -- by apply get_insert_eq.
        -- by right.
        -- apply Forall_singleton. simpl. unfold bucket_of in *. simpl. lia.
      * rewrite list_lookup_insert_ne in Hc by done. rewrite list_lookup_insert_ne in Hlc by done.
        destruct (rep_seg _ _ _ R c bkc lc Hc Hlc) as (Hs' & He' & Hla' & Hp').
        split_and!; try done.
        eapply is_seg_transfer; [done|]. intros i r Hin.
        rewrite get_insert_ne; [eapply is_seg_get; [exact Hs'|exact Hin]|done|by eapply Hother].
    + split; [|done]. eapply is_seg_transfer; [done|]. intros i r Hin.
      rewrite get_insert_ne; [eapply is_seg_get; [exact Hfs|exact Hin]|done|by eapply Hfree].
    + by eapply nodup_insert_chain.
    + rewrite length_insert. apply R.
    + rewrite (concat_insert_len ls b [] [(idx, new)] idx Hl eq_refl).
      rewrite (rep_used _ _ _ R). lia.
  - pose proof (is_seg_start _ _ _ Hs) as Hfirst0.
    apply is_seg_app in Hs as [Hs0 Hsj]. simpl in Hsj.
    destruct Hsj as (Hej & Hjno & Hgj & _).
    rewrite seg_end_app in He. unfold seg_end in He at 1. simpl in He.
    assert (last bk = j) as Hlast.
    { destruct Hla as [Hla|Hla]; [by destruct l0|].
      rewrite fmap_app in Hla. simpl in Hla. rewrite last_snoc in Hla. by simplify_eq/=. }
    assert (first bk <> NO) as Hfirst.
    { apply Hfirst0. by destruct l0. }
    rewrite !decide_False by done. rewrite Hlast.
    assert (j <> idx) as Hjidx.
    { eapply Hother; [exact Hl|]. apply elem_of_app. right. left. }
    assert (0 <= j) as Hj0 by (by eapply get_nonneg).
    pose proof (nodup_chain _ _ _ _ Hnd Hl) as Hndl.
    rewrite fmap_app in Hndl. apply NoDup_app in Hndl as (_ & Hndl & _).
    assert (Hl0j : forall i r, (i, r) ∈ l0 -> i <> j).
    { intros i r Hin ->. eapply Hndl; [|left].
      apply list_elem_of_fmap. by exists (j, r). }
    set (rs' := alter (set_next idx) (Z.to_nat j) (<[Z.to_nat idx:=new]> (recs ht))).
    assert (Hframe : forall i r, lyht_get_rec (recs ht) i = Some r -> i <> idx -> i <> j ->
                      lyht_get_rec rs' i = Some r).
    { intros i r Hg H1 H2. unfold rs'. rewrite get_alter_ne by done.
      by rewrite get_insert_ne. }
    exists (l0 ++ [(j, set_next idx rj); (idx, new)]).
    split_and!; try done.
    + split; simpl.
      * apply R.
      * rewrite length_insert. apply R.
      * rewrite !length_insert. apply R.
      * intros c bkc lc Hc Hlc. destruct (decide (c = b)) as [->|Hcb].
        -- rewrite list_lookup_insert_eq in Hc by done. rewrite list_lookup_insert_eq in Hlc by done. simplify_eq/=.
           split_and!.
           ++ apply is_seg_app. split.
              ** eapply is_seg_transfer; [done|]. intros i r Hin.
                 apply Hframe; [eapply is_seg_get; [exact Hs0|exact Hin]| |by eapply Hl0j].
                 eapply Hother; [exact Hl|]. apply elem_of_app. by left.
              ** simpl. split_and!; try done.
                 --- unfold rs'. rewrite get_alter_eq by done.
                     rewrite get_insert_ne by done. by rewrite Hgj.
                 --- unfold rs'. rewrite get_alter_ne by done.
                     by apply get_insert_eq.
           ++ rewrite seg_end_app. done.
           ++ right. rewrite fmap_app. simpl.
              by rewrite (last_app_cons _ [idx]).
           ++ apply Forall_app in Hp as [Hp0 Hpj].
              apply Forall_app. split.
              ** eapply Forall_impl; [exact Hp0|]. intros [??] ?. done.
              ** rewrite Forall_singleton in Hpj. repeat constructor; simpl.
                 --- exact Hpj.
                 --- unfold bucket_of in *. simpl. lia.
        -- rewrite list_lookup_insert_ne in Hc by done. rewrite list_lookup_insert_ne in Hlc by done.
           destruct (rep_seg _ _ _ R c bkc lc Hc Hlc) as (Hs' & He' & Hla' & Hp').
           split_and!; try done.
           eapply is_seg_transfer; [done|]. intros i r Hin.
           apply Hframe; [eapply is_seg_get; [exact Hs'|exact Hin]|by eapply Hother|].
           intros ->. eapply chain_disjoint; [exact Hnd|exact Hl|exact Hlc|done|done|].
           rewrite fmap_app. apply elem_of_app. right. left.
      * split; [|done]. eapply is_seg_transfer; [done|]. intros i r Hin.
        apply Hframe; [eapply is_seg_get; [exact Hfs|exact Hin]|by eapply Hfree|].
        intros ->. eapply free_disjoint; [exact Hnd|done|].
        eapply in_chain_concat; [exact Hl|]. apply elem_of_app. right. left.
      * eapply nodup_insert_chain; try done.
        rewrite !fmap_app. simpl. by rewrite <- (assoc_L (++)).
      * rewrite length_alter, length_insert. apply R.
      * rewrite (concat_insert_len ls b _ _ idx Hl); [rewrite (rep_used _ _ _ R); lia|].
        rewrite !fmap_app. simpl. by rewrite <- (assoc_L (++)).
    + rewrite !fmap_app. simpl. by rewrite <- (assoc_L (++)).
    + rewrite !fmap_app. simpl. by rewrite <- (assoc_L (++)).
    + apply elem_of_app. right. right. left.
Qed.

(** * Searching a chain *)
Lemma find_rec_ext eq1 eq2 l :
  (forall i r, (i, r) ∈ l -> eq1 (val r) = eq2 (val r)) ->
  find_rec eq1 l = find_rec eq2 l.
Proof.
  induction l as [|[i r] l IH]; simpl; [done|]. intros H.
  rewrite (H i r) by left. rewrite IH; [done|]. intros j q Hq. apply (H j q). by right.
Qed.

Lemma find_rec_None eq l :
  find_rec eq l = None <-> forall i r, (i, r) ∈ l -> eq (val r) = false.
Proof.
  induction l as [|[i r] l IH]; simpl.
  - split; [|done]. by intros _ ?? ?%elem_of_nil.
  - destruct (eq (val r)) eqn:E.
    + split; [done|]. intros H. specialize (H i r). rewrite E in H. discriminate H. left.
    + rewrite IH. split.
      * intros H j q [[= -> ->]|Hin]%elem_of_cons; [done|by apply (H j q)].
      * intros H j q Hin. apply (H j q). by right.
Qed.

Lemma find_rec_Some eq l i :
  find_rec eq l = Some i -> exists r, (i, r) ∈ l /\ eq (val r) = true.
Proof.
  induction l as [|[j r] l IH]; simpl; [done|].
  destruct (eq (val r)) eqn:E.
  - intros [= ->]. exists r. split; [left|done].
  - intros (q & Hin & Hq)%IH. exists q. split; [by right|done].
Qed.

Lemma find_rec_unique eq l i r :
  (i, r) ∈ l -> eq (val r) = true ->
  (forall j q, (j, q) ∈ l -> eq (val q) = true -> j = i) ->
  find_rec eq l = Some i.
Proof.
  induction l as [|[j q] l IH]; simpl; [by intros ?%elem_of_nil|].
  intros Hin Hr Hu. destruct (eq (val q)) eqn:E.
  - f_equal. apply Hu with q; [left|done].
  - apply elem_of_cons in Hin as [[= -> ->]|Hin]; [congruence|].
    apply IH; [done..|]. intros j' q' Hq1 Hq2. eapply (Hu j' q'); [by right|done].
Qed.

Lemma find_rec_prev_fst eq p l :
  find_rec eq l = (fun x => x.1.2) <$> find_rec_prev eq p l.
Proof.
  revert p. induction l as [|[i r] l IH]; intros p; simpl; [done|].
  destruct (eq (val r)); [done|]. apply IH.
Qed.

Lemma find_rec_prev_spec eq p l prev idx r :
  find_rec_prev eq p l = Some (prev, idx, r) ->
  exists l1 l2, l = l1 ++ (idx, r) :: l2
    /\ (forall j q, (j, q) ∈ l1 -> eq (val q) = false)
    /\ eq (val r) = true
    /\ prev = from_option fst p (list.last l1).
Proof.
  revert p. induction l as [|[i q] l IH]; intros p; simpl; [done|].
  destruct (eq (val q)) eqn:E.
  - intros [= -> -> ->]. exists [], l. split_and!; try done. by intros ?? ?%elem_of_nil.
  - intros (l1 & l2 & -> & H1 & H2 & H3)%IH.
    exists ((i, q) :: l1), l2. split_and!; try done.
    + intros j q' [[= -> ->]|Hin]%elem_of_cons; [done|by apply (H1 j q')].
    + rewrite last_cons. by destruct (list.last l1).
Qed.

(** * Rebuilding the table *)
Lemma concat_replicate_nil {A} n : concat (replicate n (@nil A)) = [].
Proof. induction n; simpl; done. Qed.

Lemma empty_table_rep n ve cd rz :
  0 < n ->
  ht_rep {| used := 0; size := n; val_equal := ve; cb_data := cd; resize := rz;
            first_free_rec := NO;
            buckets := replicate (Z.to_nat n) empty_bucket; recs := [] |}
    (replicate (Z.to_nat n) []) [].
Proof.
  intros Hn. split; simpl; try done.
  - by rewrite length_replicate.
  - by rewrite !length_replicate.
  - intros b bk l [-> _]%lookup_replicate [-> _]%lookup_replicate.
    split_and!; try done. by left.
  - rewrite concat_replicate_nil. simpl. constructor.
  - by rewrite concat_replicate_nil.
Qed.

Section resize.
Context (m : mem) (cb : lyht_value_equal_cb).
Hypothesis Hcb : forall d a b md, value a <> NULL -> value b <> NULL ->
  cb_holds cb m d a b md = bool_decide (rec_str m a = rec_str m b).

Lemma reinsert_spec t ls r :
  ht_rep t ls [] -> Z.of_nat (length (recs t)) < NO ->
  value (val r) <> NULL ->
  Forall (fun e => value e.2 <> NULL) (key <$> (concat ls).*2) ->
  rec_str m (val r) ∉ rec_str m <$> (key <$> (concat ls).*2).*2 ->
  exists ls', ht_rep (lyht_reinsert m cb t r) ls' []
    /\ key <$> (concat ls').*2 ≡ₚ key r :: (key <$> (concat ls).*2)
    /\ length (recs (lyht_reinsert m cb t r)) = S (length (recs t))
    /\ size (lyht_reinsert m cb t r) = size t
    /\ val_equal (lyht_reinsert m cb t r) = val_equal t
    /\ cb_data (lyht_reinsert m cb t r) = cb_data t
    /\ resize (lyht_reinsert m cb t r) = resize t
    /\ used (lyht_reinsert m cb t r) = used t + 1.
Proof.
  intros R Hcap Hv Hvs Hnew. unfold lyht_reinsert.
  destruct (rep_bucket t ls [] (hash r) R) as (bk & l & Hb & Hl).
  rewrite (rep_find_rec t ls [] _ (hash r) l R Hl).
  assert (find_rec (fun c => cb_holds cb m (cb_data t) (val r) c 1) l = None) as ->.
  { apply find_rec_None. intros i q Hin.
    assert (key q ∈ key <$> (concat ls).*2) as Hq.
    { apply list_elem_of_fmap. exists q. split; [done|].
      apply list_elem_of_fmap. exists (i, q). split; [done|].
      apply elem_of_concat. exists l. split; [done|]. by eapply list_elem_of_lookup_2. }
    rewrite Hcb; [|done|].
    2:{ rewrite Forall_forall in Hvs. by apply (Hvs _ Hq). }
    apply bool_decide_eq_false_2. intros E. apply Hnew.
    apply list_elem_of_fmap. exists (val q). split; [done|].
    apply list_elem_of_fmap. exists (key q). done. }
  destruct (rep_free _ _ _ R) as [_ Hff]. rewrite seg_end_nil in Hff.
  destruct (alloc_success t ls [] true R) as [[idx t1] Ha]; [right; done|].
  rewrite Ha.
  assert (recs t1 = recs t ++ [blank_rec] /\ used t1 = used t) as [Hrecs Hused].
  { unfold lyht_alloc_rec in Ha. rewrite decide_True in Ha by done.
    simpl in Ha. rewrite bool_decide_eq_true_2 in Ha by done. by simplify_eq/=. }
  destruct (alloc_spec _ _ _ _ _ _ R Ha) as
    (fl' & R1 & Hn1 & Hn2 & Hslot & Hno & Hsz & _ & Hve & Hcd & Hrz & Hbk).
  assert (fl' = []) as ->.
  { destruct (rep_free _ _ _ R1) as [Hs He]. unfold lyht_alloc_rec in Ha.
    rewrite decide_True in Ha by done. simpl in Ha.
    rewrite bool_decide_eq_true_2 in Ha by done. simplify_eq/=.
    destruct fl' as [|[i q] fl']; [done|]. simpl in Hs. destruct Hs as (? & ? & _). congruence. }
  destruct (link_spec t1 ls [] idx (hash r) (val r) R1 Hn1 Hn2 Hslot Hno)
    as (l' & L & Hl' & R2 & HL & HL1 & _).
  exists (<[Z.to_nat (bucket_of t1 (hash r)):=L]> ls).
  destruct (rep_bucket t1 ls [] (hash r) R1) as (bk1 & l1 & Hb1 & Hl1).
  split_and!; try done.
  - exact (concat_insert_key ls _ l' L _ Hl' HL).
  - rewrite (link_unfold _ _ _ _ _ Hb1). simpl.
    case_decide; rewrite ?length_alter, length_insert, Hrecs, length_app; simpl; lia.
  - by rewrite (link_unfold _ _ _ _ _ Hb1).
  - by rewrite (link_unfold _ _ _ _ _ Hb1).
  - by rewrite (link_unfold _ _ _ _ _ Hb1).
  - by rewrite (link_unfold _ _ _ _ _ Hb1).
  - rewrite (link_unfold _ _ _ _ _ Hb1). simpl. lia.
Qed.

Lemma resize_fold rs : forall t ls,
  ht_rep t ls [] -> Z.of_nat (length (recs t) + length rs) <= NO ->
  Forall (fun e => value e.2 <> NULL) ((key <$> rs) ++ (key <$> (concat ls).*2)) ->
  NoDup (rec_str m <$> ((key <$> rs) ++ (key <$> (concat ls).*2)).*2) ->
  exists ls', ht_rep (fold_left (lyht_reinsert m cb) rs t) ls' []
    /\ key <$> (concat ls').*2 ≡ₚ (key <$> rs) ++ (key <$> (concat ls).*2)
    /\ size (fold_left (lyht_reinsert m cb) rs t) = size t
    /\ val_equal (fold_left (lyht_reinsert m cb) rs t) = val_equal t
    /\ cb_data (fold_left (lyht_reinsert m cb) rs t) = cb_data t
    /\ resize (fold_left (lyht_reinsert m cb) rs t) = resize t
    /\ used (fold_left (lyht_reinsert m cb) rs t) = used t + Z.of_nat (length rs).
Proof.
  induction rs as [|r rs IH]; intros t ls R Hcap Hvs Hnd; simpl.
  - exists ls. split_and!; try done. lia.
  - simpl in *. apply Forall_cons in Hvs as [Hv Hvs].
    apply NoDup_cons in Hnd as [Hnew Hnd].
    destruct (reinsert_spec t ls r R) as (ls1 & R1 & Hk & Hlen & Hsz & Hve & Hcd & Hrz & Hus).
    { lia. }
    { done. }
    { apply Forall_app in Hvs. apply Hvs. }
    { intros Hin. apply Hnew. rewrite !fmap_app. apply elem_of_app. by right. }
    destruct (IH _ ls1 R1) as (ls' & R' & Hk' & Hsz' & Hve' & Hcd' & Hrz' & Hus').
    { rewrite Hlen. lia. }
    { rewrite Hk. apply Forall_app in Hvs as [H1 H2].
      apply Forall_app. split; [done|]. by constructor. }
    { rewrite Hk. revert Hnew Hnd. rewrite !fmap_app, !fmap_cons. simpl.
      intros Hnew Hnd.
      rewrite <- Permutation_middle. by constructor. }
    exists ls'. split_and!; try congruence.
    + rewrite Hk', Hk. by rewrite <- Permutation_middle.
    + rewrite Hus', Hus. lia.
Qed.
End resize.

(** * The dictionary's view of the table *)
Section drep.
Context (hashf : list byte -> Z).

Lemma dict_inv_rep m ht : dict_inv hashf m ht <-> exists ls fl, drep hashf m ht ls fl.
Proof.
  split.
  - intros (Hwf & Hok & Hnd). apply wf_rep in Hwf.
    eexists _, _. split; [exact Hwf|]. unfold dict_recs in Hnd.
    by rewrite (rep_entries _ _ _ Hwf) in Hok, Hnd.
  - intros (ls & fl & R & Hok & Hnd). split; [by eapply rep_wf|].
    unfold dict_recs. by rewrite (rep_entries _ _ _ R).
Qed.

Lemma entry_ok_nonnull m es :
  Forall (entry_ok hashf m) es -> Forall (fun e => value e.2 <> NULL) es.
Proof. intros H. eapply Forall_impl; [exact H|]. by intros e (? & _). Qed.

Lemma set_resize_rep z ht ls fl : ht_rep ht ls fl -> ht_rep (set_resize z ht) ls fl.
Proof. intros R. split; try apply R. Qed.

Lemma live_count ht ls fl : ht_rep ht ls fl -> Z.of_nat (length (concat ls)) <= NO.
Proof.
  intros R. pose proof (rep_cap _ _ _ R).
  assert (length (concat ls) <= length (recs ht))%nat; [|lia].
  rewrite <- (length_fmap fst). apply nodup_bound.
  - pose proof (rep_nodup _ _ _ R) as Hnd. by apply NoDup_app in Hnd as (? & _).
  - intros i [[j r] [-> Hin]]%list_elem_of_fmap. simpl.
    apply elem_of_concat in Hin as (l & Hin & Hl).
    apply list_elem_of_lookup in Hl as [b Hl].
    destruct (lookup_lt_is_Some_2 (buckets ht) b) as [bk Hb].
    { rewrite <- (rep_len _ _ _ R). by eapply lookup_lt_Some. }
    destruct (rep_seg _ _ _ R b bk l Hb Hl) as (Hs & _).
    eapply get_rec_lt, is_seg_get; [exact Hs|exact Hin].
Qed.

Lemma resize_spec m cb ht ls fl n :
  (forall d a b md, value a <> NULL -> value b <> NULL ->
     cb_holds cb m d a b md = bool_decide (rec_str m a = rec_str m b)) ->
  drep hashf m ht ls fl -> 0 < n ->
  exists ls', drep hashf m (lyht_resize ht m cb n) ls' []
    /\ entries (lyht_resize ht m cb n) ≡ₚ entries ht
    /\ size (lyht_resize ht m cb n) = n
    /\ val_equal (lyht_resize ht m cb n) = val_equal ht
    /\ cb_data (lyht_resize ht m cb n) = cb_data ht
    /\ resize (lyht_resize ht m cb n) = resize ht.
Proof.
  intros Hcb (R & Hok & Hnd) Hn. unfold lyht_resize.
  rewrite (rep_all _ _ _ R).
  pose proof (empty_table_rep n (val_equal ht) (cb_data ht) (resize ht) Hn) as R0.
  destruct (resize_fold m cb Hcb (concat ls).*2 _ _ R0)
    as (ls' & R' & Hk & Hsz & Hve & Hcd & Hrz & Hus).
  - simpl. rewrite length_fmap. pose proof (live_count _ _ _ R). lia.
  - rewrite concat_replicate_nil. simpl. rewrite app_nil_r. by apply entry_ok_nonnull with m.
  - rewrite concat_replicate_nil. simpl. by rewrite app_nil_r.
  - rewrite concat_replicate_nil in Hk. simpl in Hk. rewrite app_nil_r in Hk.
    exists ls'. split_and!; try done.
    + split; [done|]. rewrite Hk. done.
    + by rewrite (rep_entries _ _ _ R'), (rep_entries _ _ _ R).
Qed.

Lemma in_entries ht ls fl i r :
  ht_rep ht ls fl -> (i, r) ∈ concat ls -> key r ∈ key <$> (concat ls).*2.
Proof.
  intros R Hin. apply list_elem_of_fmap. exists r. split; [done|].
  apply list_elem_of_fmap. by exists (i, r).
Qed.

Lemma rep_place ht ls fl i r :
  ht_rep ht ls fl -> (i, r) ∈ concat ls ->
  exists l, ls !! Z.to_nat (bucket_of ht (hash r)) = Some l /\ (i, r) ∈ l.
Proof.
  intros R (l & Hin & Hl)%elem_of_concat.
  apply list_elem_of_lookup in Hl as [b Hl].
  destruct (lookup_lt_is_Some_2 (buckets ht) b) as [bk Hb].
  { rewrite <- (rep_len _ _ _ R). by eapply lookup_lt_Some. }
  destruct (rep_seg _ _ _ R b bk l Hb Hl) as (_ & _ & _ & Hp).
  rewrite Forall_forall in Hp. specialize (Hp _ Hin). simpl in Hp.
  exists l. rewrite Hp, Nat2Z.id. done.
Qed.

Lemma nodup_str_inj m (l : list (Z * ly_ht_rec)) i r j q :
  NoDup l.*1 ->
  NoDup (rec_str m <$> (key <$> l.*2).*2) ->
  (i, r) ∈ l -> (j, q) ∈ l -> rec_str m (val r) = rec_str m (val q) -> i = j.
Proof.
  intros Hn1 Hn2 Hi Hj E.
  apply list_elem_of_lookup in Hi as [a Ha], Hj as [b Hb].
  assert (a = b) as ->.
  { eapply NoDup_lookup; [exact Hn2| |].
    - rewrite !list_lookup_fmap, Ha. simpl. reflexivity.
    - rewrite !list_lookup_fmap, Hb. simpl. by rewrite E. }
  congruence.
Qed.

Section find.
Context (m : mem) (ht : ly_ht) (ls : list (list (Z * ly_ht_rec))) (fl : list (Z * ly_ht_rec)).
Context (cb : lyht_value_equal_cb) (md : Z) (p : ly_dict_rec) (h : Z).
Hypothesis Hcb : forall d a b md, value a <> NULL -> value b <> NULL ->
  cb_holds cb m d a b md = bool_decide (rec_str m a = rec_str m b).
Hypothesis HR : drep hashf m ht ls fl.
Hypothesis Hp : value p <> NULL.

Let eqf := fun c => cb_holds cb m (cb_data ht) p c md.

Lemma eqf_spec i r : (i, r) ∈ concat ls ->
  eqf (val r) = bool_decide (rec_str m p = rec_str m (val r)).
Proof.
  intros Hin. destruct HR as (R & Hok & _). unfold eqf. apply Hcb; [done|].
  rewrite Forall_forall in Hok. by destruct (Hok _ (in_entries _ _ _ _ _ R Hin)).
Qed.

Lemma drep_find_Some i :
  lyht_find_rec ht eqf h = Some i ->
  exists r, (i, r) ∈ concat ls /\ rec_str m (val r) = rec_str m p.
Proof.
  destruct HR as (R & Hok & Hnd).
  destruct (rep_bucket ht ls fl h R) as (bk & l & Hb & Hl).
  rewrite (rep_find_rec _ _ _ _ _ _ R Hl).
  intros (r & Hin & Hr)%find_rec_Some. exists r.
  assert ((i, r) ∈ concat ls) as Hin'.
  { apply elem_of_concat. exists l. split; [done|]. by eapply list_elem_of_lookup_2. }
  split; [done|]. rewrite (eqf_spec i r Hin') in Hr.
  by apply bool_decide_eq_true_1 in Hr.
Qed.

Lemma drep_find_present i r :
  (i, r) ∈ concat ls -> rec_str m (val r) = rec_str m p ->
  bucket_of ht h = bucket_of ht (hash r) ->
  lyht_find_rec ht eqf h = Some i.
Proof.
  intros Hin Hstr Hbk. destruct HR as (R & Hok & Hnd).
  destruct (rep_place _ _ _ _ _ R Hin) as (l & Hl & Hinl).
  rewrite <- Hbk in Hl.
  rewrite (rep_find_rec _ _ _ _ _ _ R Hl).
  apply find_rec_unique with r; [done| |].
  - rewrite (eqf_spec i r Hin). by apply bool_decide_eq_true_2.
  - intros j q Hq Hqe.
    assert ((j, q) ∈ concat ls) as Hq'.
    { apply elem_of_concat. exists l. split; [done|]. by eapply list_elem_of_lookup_2. }
    rewrite (eqf_spec j q Hq') in Hqe. apply bool_decide_eq_true_1 in Hqe.
    eapply (nodup_str_inj m (concat ls)); [|exact Hnd|exact Hq'|exact Hin|congruence].
    pose proof (rep_nodup _ _ _ R) as H. by apply NoDup_app in H as (? & _).
Qed.

Lemma drep_find_absent :
  rec_str m p ∉ rec_str m <$> (key <$> (concat ls).*2).*2 ->
  lyht_find_rec ht eqf h = None.
Proof.
  intros Habs. destruct (lyht_find_rec ht eqf h) as [i|] eqn:E; [|done].
  exfalso. apply drep_find_Some in E as (r & Hin & Hr). apply Habs.
  rewrite <- Hr. apply list_elem_of_fmap. exists (val r). split; [done|].
  apply list_elem_of_fmap. exists (key r). split; [done|].
  destruct HR as (R & _). by eapply in_entries.
Qed.
End find.
End drep.

Section table_ops.
Context (hashf : list byte -> Z).

Lemma rep_get ht ls fl i r :
  ht_rep ht ls fl -> (i, r) ∈ concat ls -> lyht_get_rec (recs ht) i = Some r.
Proof.
  intros R (l & Hin & Hl)%elem_of_concat.
  apply list_elem_of_lookup in Hl as [b Hl].
  destruct (lookup_lt_is_Some_2 (buckets ht) b) as [bk Hb].
  { rewrite <- (rep_len _ _ _ R). by eapply lookup_lt_Some. }
  destruct (rep_seg _ _ _ R b bk l Hb Hl) as (Hs & _).
  eapply is_seg_get; [exact Hs|exact Hin].
Qed.

Lemma val_eq_cb m : forall d a b md, value a <> NULL -> value b <> NULL ->
  cb_holds lydict_val_eq m d a b md = bool_decide (rec_str m a = rec_str m b).
Proof. intros. by apply cb_holds_val_eq. Qed.

Lemma resize_eq_cb m : forall d a b md, value a <> NULL -> value b <> NULL ->
  cb_holds lydict_resize_val_eq m d a b md = bool_decide (rec_str m a = rec_str m b).
Proof. intros. rewrite cb_holds_resize. by apply cb_holds_val_eq. Qed.

Lemma drep_perm m ht ls fl ht' ls' fl' e :
  drep hashf m ht ls fl -> ht_rep ht' ls' fl' ->
  key <$> (concat ls').*2 ≡ₚ e :: (key <$> (concat ls).*2) ->
  entry_ok hashf m e ->
  rec_str m e.2 ∉ rec_str m <$> (key <$> (concat ls).*2).*2 ->
  drep hashf m ht' ls' fl'.
Proof.
  intros (R & Hok & Hnd) R' Hk He Hn. split; [done|]. rewrite Hk. split.
  - by constructor.
  - rewrite !fmap_cons. by constructor.
Qed.

Lemma insert_new_spec m ht ls fl v h cbr a :
  (forall d a b md, value a <> NULL -> value b <> NULL ->
     cb_holds cbr m d a b md = bool_decide (rec_str m a = rec_str m b)) ->
  drep hashf m ht ls fl -> val_equal ht = lydict_val_eq ->
  entry_ok hashf m (h, v) ->
  rec_str m v ∉ rec_str m <$> (key <$> (concat ls).*2).*2 ->
  first_free_rec ht <> NO \/ (grow_ok a = true /\ Z.of_nat (length (recs ht)) < NO) ->
  exists mt ht' ls' fl',
    lyht_insert_with_resize_cb ht m v h cbr a = (LY_SUCCESS, Some mt, ht')
    /\ drep hashf m ht' ls' fl'
    /\ entries ht' ≡ₚ (h, v) :: entries ht
    /\ get_val ht' mt = v
    /\ val_equal ht' = val_equal ht.
Proof.
  intros Hcb HR Hve He Habs Halloc.
  pose proof HR as (R & Hok & Hnd).
  unfold lyht_insert_with_resize_cb, lyht_find.
  rewrite Hve.
  rewrite (drep_find_absent hashf m ht ls fl lydict_val_eq 0 v h (val_eq_cb m) HR (proj1 He) Habs).
  destruct (alloc_success ht ls fl (grow_ok a) R Halloc) as [[idx ht1] Ha].
  rewrite Ha.
  destruct (alloc_spec _ _ _ _ _ _ R Ha) as
    (fl' & R1 & Hn1 & Hn2 & Hslot & Hno & Hsz & Hus & Hve1 & Hcd & Hrz & Hbk).
  destruct (link_spec ht1 ls fl' idx h v R1 Hn1 Hn2 Hslot Hno)
    as (l & L & Hl & R2 & HL & HL1 & HLin).
  set (ht2 := lyht_link_rec ht1 idx h v) in *.
  set (ls2 := <[Z.to_nat (bucket_of ht1 h):=L]> ls) in *.
  pose proof (concat_insert_key ls _ l L _ Hl HL) as Hk2. fold ls2 in Hk2.
  assert (val_equal ht2 = val_equal ht) as Hve2.
  { destruct (rep_bucket ht1 ls fl' h R1) as (bk1 & l1 & Hb1 & Hl1).
    unfold ht2. by rewrite (link_unfold _ _ _ _ _ Hb1). }
  assert ((idx, {| hash := h; next := NO; val := v |}) ∈ concat ls2) as Hin2.
  { apply elem_of_concat. exists L. split; [done|].
    apply list_elem_of_lookup. exists (Z.to_nat (bucket_of ht1 h)).
    unfold ls2. apply list_lookup_insert_eq. by eapply lookup_lt_Some. }
  cbv zeta.
  set (ht3 := if decide (resize ht2 = 1 /\ LYHT_FIRST_SHRINK_PERCENTAGE <= fill_percent ht2)
              then set_resize 2 ht2 else ht2).
  assert (ht_rep ht3 ls2 fl' /\ val_equal ht3 = val_equal ht /\ size ht3 = size ht2) as (R3 & Hve3 & Hsz3).
  { unfold ht3. case_decide; [|done]. split; [by apply set_resize_rep|done]. }
  assert (drep hashf m ht3 ls2 fl') as HR3 by exact (drep_perm m ht ls fl ht3 ls2 fl' (h,v) HR R3 Hk2 He Habs).
  assert (entries ht3 ≡ₚ (h, v) :: entries ht) as He3.
  { by rewrite (rep_entries _ _ _ R3), (rep_entries _ _ _ R). }
  assert (get_val ht3 idx = v) as Hg3.
  { unfold get_val. by rewrite (rep_get _ _ _ _ _ R3 Hin2). }
  assert (Hnores : exists mt ht' ls' fl',
    (LY_SUCCESS, Some idx, ht3) = (LY_SUCCESS, Some mt, ht')
    /\ drep hashf m ht' ls' fl' /\ entries ht' ≡ₚ (h, v) :: entries ht
    /\ get_val ht' mt = v /\ val_equal ht' = lydict_val_eq).
  { exists idx, ht3, ls2, fl'. split_and!; try done. congruence. }
  case_decide as Hgrow; [|exact Hnores].
  destruct (resize_ok a); [|exact Hnores].
  destruct (resize_spec hashf m cbr ht3 ls2 fl' (size ht3 * 2) Hcb HR3)
    as (ls4 & HR4 & He4 & Hsz4 & Hve4 & Hcd4 & Hrz4).
  { pose proof (rep_size _ _ _ R3). lia. }
  set (ht4 := lyht_resize ht3 m cbr (size ht3 * 2)) in *.
  pose proof HR4 as (R4 & _ & _).
  assert ((h, v) ∈ key <$> (concat ls4).*2) as Hin4.
  { rewrite <- (rep_entries _ _ _ R4), He4, He3. left. }
  apply list_elem_of_fmap in Hin4 as (r & Hr & [[i r'] [-> Hin4]]%list_elem_of_fmap).
  simpl in Hr. unfold key in Hr. injection Hr as Hh Hv.
  exists i, ht4, ls4, []. split_and!; try done.
  - f_equal. f_equal.
    apply (drep_find_present hashf m ht4 ls4 [] cbr 0 v h Hcb HR4 (proj1 He) i r'); [done| |].
    + by rewrite <- Hv.
    + by rewrite Hh.
  - by rewrite He4.
  - unfold get_val. by rewrite (rep_get _ _ _ _ _ R4 Hin4).
  - congruence.
Qed.

Lemma insert_nomem m ht ls fl v h cbr a :
  drep hashf m ht ls fl -> val_equal ht = lydict_val_eq ->
  value v <> NULL ->
  rec_str m v ∉ rec_str m <$> (key <$> (concat ls).*2).*2 ->
  lyht_alloc_rec ht (grow_ok a) = None ->
  lyht_insert_with_resize_cb ht m v h cbr a = (LY_EMEM, None, ht).
Proof.
  intros HR Hve Hv Habs Ha.
  unfold lyht_insert_with_resize_cb, lyht_find. rewrite Hve.
  rewrite (drep_find_absent hashf m ht ls fl lydict_val_eq 0 v h (val_eq_cb m) HR Hv Habs).
  by rewrite Ha.
Qed.

Lemma insert_exist_spec m ht ls fl v h cbr a i r :
  drep hashf m ht ls fl -> val_equal ht = lydict_val_eq ->
  value v <> NULL -> (i, r) ∈ concat ls -> rec_str m (val r) = rec_str m v ->
  h = hash r ->
  lyht_insert_with_resize_cb ht m v h cbr a = (LY_EEXIST, Some i, ht).
Proof.
  intros HR Hve Hv Hin Hs ->.
  unfold lyht_insert_with_resize_cb, lyht_find. rewrite Hve.
  by rewrite (drep_find_present hashf m ht ls fl lydict_val_eq 0 v (hash r) (val_eq_cb m) HR Hv i r Hin Hs eq_refl).
Qed.

(** * Assignment through a match pointer *)
Lemma upd_fst mi v' l : (upd mi v' <$> l).*1 = l.*1.
Proof.
  rewrite <- list_fmap_compose. apply list_fmap_ext. intros _ [i r] _.
  unfold upd. simpl. by case_decide.
Qed.

Lemma upd_id mi v' (l : list (Z * ly_ht_rec)) : mi ∉ l.*1 -> upd mi v' <$> l = l.
Proof.
  intros H. rewrite <- (list_fmap_id l) at 2. apply list_fmap_ext.
  intros k [i r] Hk. unfold upd. simpl. case_decide; [|done]. subst.
  exfalso. apply H. apply list_elem_of_fmap. exists (mi, r). split; [done|].
  by eapply list_elem_of_lookup_2.
Qed.

Lemma seg_end_upd mi v' s l : seg_end s (upd mi v' <$> l) = seg_end s l.
Proof.
  unfold seg_end. rewrite fmap_last. destruct (list.last l) as [[i r]|]; simpl; [|done].
  unfold upd. simpl. by case_decide.
Qed.

Lemma is_seg_upd rs mi v' s l :
  0 <= mi -> is_seg rs s l ->
  is_seg (alter (fun r => {| hash := hash r; next := next r; val := v' |}) (Z.to_nat mi) rs)
    s (upd mi v' <$> l).
Proof.
  intros Hmi. revert s. induction l as [|[i r] l IH]; intros s; simpl; [done|].
  intros (-> & Hno & Hg & Hs). unfold upd at 1. simpl.
  destruct (decide (i = mi)) as [->|Hne]; simpl.
  - split_and!; try done.
    + rewrite get_alter_eq by done. by rewrite Hg.
    + by apply IH.
  - split_and!; try done.
    + by rewrite get_alter_ne.
    + by apply IH.
Qed.

Lemma concat_fmap_fmap {A B} (g : A -> B) (ls : list (list A)) :
  concat (fmap (M:=list) g <$> ls) = g <$> concat ls.
Proof. induction ls as [|l ls IH]; simpl; [done|]. rewrite fmap_app. f_equal. exact IH. Qed.

Lemma set_val_rep ht ls fl mi v' :
  ht_rep ht ls fl -> 0 <= mi ->
  ht_rep (set_val mi v' ht) (fmap (M:=list) (upd mi v') <$> ls) (upd mi v' <$> fl).
Proof.
  intros R Hmi. unfold set_val. rewrite decide_True by done.
  split; simpl; try apply R.
  - rewrite length_fmap. apply R.
  - intros b bk l' Hb Hl'. rewrite list_lookup_fmap in Hl'.
    destruct (ls !! b) as [l|] eqn:Hl; simplify_eq/=.
    destruct (rep_seg _ _ _ R b bk l Hb Hl) as (Hs & He & Hla & Hp).
    split_and!.
    + by apply is_seg_upd.
    + by rewrite seg_end_upd.
    + destruct Hla as [->|Hla]; [by left|right]. by rewrite upd_fst.
    + apply Forall_fmap. eapply Forall_impl; [exact Hp|].
      intros [i r] Hir. unfold upd, bucket_of in *. simpl in *. by case_decide.
  - destruct (rep_free _ _ _ R) as [Hs He]. split; [by apply is_seg_upd|by rewrite seg_end_upd].
  - rewrite concat_fmap_fmap, !upd_fst. apply R.
  - rewrite length_alter. apply R.
  - rewrite concat_fmap_fmap, length_fmap. apply R.
Qed.

Lemma set_val_spec m ht ls fl mi r v' :
  drep hashf m ht ls fl -> (mi, r) ∈ concat ls -> value v' = value (val r) ->
  exists ls' fl' A B,
    drep hashf m (set_val mi v' ht) ls' fl'
    /\ entries ht = A ++ (hash r, val r) :: B
    /\ entries (set_val mi v' ht) = A ++ (hash r, v') :: B
    /\ get_val (set_val mi v' ht) mi = v'
    /\ (mi, {| hash := hash r; next := next r; val := v' |}) ∈ concat ls'.
Proof.
  intros (R & Hok & Hnd) Hin Hv.
  assert (0 <= mi) as Hmi by (eapply get_nonneg, rep_get; eauto).
  pose proof (set_val_rep ht ls fl mi v' R Hmi) as R'.
  pose proof (rep_nodup _ _ _ R) as Hnd1. apply NoDup_app in Hnd1 as (Hnd1 & _ & _).
  apply list_elem_of_split in Hin as (A0 & B0 & Hc).
  rewrite Hc, fmap_app, fmap_cons in Hnd1. simpl in Hnd1.
  apply NoDup_app in Hnd1 as (_ & HA & HB). apply NoDup_cons in HB as [HB _].
  assert (concat (fmap (M:=list) (upd mi v') <$> ls)
          = A0 ++ (mi, {| hash := hash r; next := next r; val := v' |}) :: B0) as Hc'.
  { rewrite concat_fmap_fmap, Hc, fmap_app, fmap_cons.
    rewrite !upd_id; [|done|intros H; eapply HA; [done|left]].
    unfold upd at 1. simpl. by rewrite decide_True. }
  assert (rec_str m v' = rec_str m (val r)) as Hstr by (unfold rec_str; by rewrite Hv).
  exists (fmap (M:=list) (upd mi v') <$> ls), (upd mi v' <$> fl), (key <$> A0.*2), (key <$> B0.*2).
  split_and!.
  - split; [done|]. rewrite Hc'. rewrite Hc in Hok, Hnd.
    revert Hok Hnd. repeat first [rewrite fmap_app | rewrite fmap_cons]. simpl.
    rewrite Hstr. intros Hok Hnd. split; [|done].
    apply Forall_app in Hok as [H1 H2]. apply Forall_cons in H2 as [H2 H3].
    apply Forall_app. split; [done|]. constructor; [|done].
    destruct H2 as (? & ? & ?). unfold entry_ok in *. simpl in *.
    rewrite Hstr, Hv. done.
  - rewrite (rep_entries _ _ _ R), Hc. repeat first [rewrite fmap_app | rewrite fmap_cons]. reflexivity.
  - rewrite (rep_entries _ _ _ R'), Hc'. repeat first [rewrite fmap_app | rewrite fmap_cons]. reflexivity.
  - unfold get_val.
    rewrite (rep_get _ _ _ mi {| hash := hash r; next := next r; val := v' |} R'); [done|].
    rewrite Hc'. apply elem_of_app. right. left.
  - rewrite Hc'. apply elem_of_app. right. left.
Qed.
End table_ops.

(** * Unlinking a record *)
Lemma concat_remove_key (ls : list (list (Z * ly_ht_rec))) b l1 i r l2 L :
  ls !! b = Some (l1 ++ (i, r) :: l2) ->
  key <$> L.*2 = (key <$> l1.*2) ++ (key <$> l2.*2) ->
  key <$> (concat ls).*2 ≡ₚ key r :: (key <$> (concat (<[b:=L]> ls)).*2).
Proof.
  intros Hl HL.
  destruct (concat_split ls b _ L Hl) as (X & Y & -> & Hlen & ->).
  rewrite !concat_app, !concat_cons.
  repeat first [rewrite fmap_app | rewrite fmap_cons]. rewrite HL. simpl.
  rewrite <- !(assoc_L (++)). simpl.
  rewrite <- !Permutation_middle. done.
Qed.

Lemma nodup_remove_chain (ls : list (list (Z * ly_ht_rec))) (fl : list (Z * ly_ht_rec))
    b l1 i r l2 L :
  NoDup ((concat ls).*1 ++ fl.*1) -> ls !! b = Some (l1 ++ (i, r) :: l2) ->
  L.*1 = l1.*1 ++ l2.*1 ->
  NoDup ((concat (<[b:=L]> ls)).*1 ++ i :: fl.*1).
Proof.
  intros Hnd Hl HL.
  destruct (concat_split ls b _ L Hl) as (X & Y & -> & Hlen & ->).
  revert Hnd. rewrite !concat_app, !concat_cons.
  repeat first [rewrite fmap_app | rewrite fmap_cons]. rewrite HL. simpl.
  intros Hnd.
  match goal with |- NoDup ?a => match type of Hnd with NoDup ?b =>
    assert (a ≡ₚ b) as ->; [|done] end end.
  rewrite <- !(assoc_L (++)). simpl.
  rewrite <- !Permutation_middle. done.
Qed.

Lemma concat_remove_len (ls : list (list (Z * ly_ht_rec))) b l1 i r l2 L :
  ls !! b = Some (l1 ++ (i, r) :: l2) -> L.*1 = l1.*1 ++ l2.*1 ->
  length (concat ls) = S (length (concat (<[b:=L]> ls))).
Proof.
  intros Hl HL.
  destruct (concat_split ls b _ L Hl) as (X & Y & -> & Hlen & ->).
  apply (f_equal length) in HL. rewrite length_app, !length_fmap in HL.
  rewrite !concat_app, !concat_cons, !length_app. simpl. lia.
Qed.

Lemma last_fst_app (A : list (Z * ly_ht_rec)) x l :
  list.last (A ++ x :: l).*1 = list.last (x :: l).*1.
Proof. rewrite fmap_app, fmap_cons. apply last_app_cons. Qed.

Lemma unlink_spec ht ls fl b bk l1 idx r l2 :
  ht_rep ht ls fl -> buckets ht !! b = Some bk ->
  ls !! b = Some (l1 ++ (idx, r) :: l2) ->
  exists L r',
    ht_rep (lyht_unlink ht b bk (from_option fst NO (list.last l1)) idx r)
      (<[b := L]> ls) ((idx, r') :: fl)
    /\ key <$> L.*2 = (key <$> l1.*2) ++ (key <$> l2.*2)
    /\ L.*1 = l1.*1 ++ l2.*1.
Proof.
  intros R Hb Hl.
  destruct (rep_seg _ _ _ R b bk _ Hb Hl) as (Hs & He & Hla & Hp).
  pose proof (rep_nodup _ _ _ R) as Hnd.
  destruct (rep_free _ _ _ R) as [Hfs Hfe].
  pose proof (nodup_chain _ _ _ _ Hnd Hl) as Hndl.
  assert (Hblt : (b < length (buckets ht))%nat) by (by eapply lookup_lt_Some).
  assert (Hblt' : (b < length ls)%nat) by (by eapply lookup_lt_Some).
  apply is_seg_app in Hs as [Hs1 Hs2]. simpl in Hs2.
  destruct Hs2 as (Hstart & Hno & Hg & Hs2).
  rewrite seg_end_app, seg_end_cons in He.
  assert (0 <= idx) as Hidx0 by (by eapply get_nonneg).
  rewrite fmap_app, fmap_cons in Hndl. simpl in Hndl.
  apply NoDup_app in Hndl as (Hnd1 & Hd1 & Hnd2).
  apply NoDup_cons in Hnd2 as [Hd2 Hnd2].
  assert (Hl1 : forall i q, (i, q) ∈ l1 -> i <> idx).
  { intros i q Hin ->. eapply Hd1; [|left]. apply list_elem_of_fmap. by exists (idx, q). }
  assert (Hl2 : forall i q, (i, q) ∈ l2 -> i <> idx).
  { intros i q Hin ->. apply Hd2. apply list_elem_of_fmap. by exists (idx, q). }
  assert (Hin_idx : idx ∈ (concat ls).*1).
  { eapply in_chain_concat; [exact Hl|]. apply elem_of_app. right. left. }
  assert (Hother : forall c lc i q, ls !! c = Some lc -> c <> b -> (i, q) ∈ lc -> i <> idx).
  { intros c lc i q Hc Hcb Hin ->.
    eapply chain_disjoint; [exact Hnd|exact Hl|exact Hc|done|exact Hin|].
    rewrite fmap_app. apply elem_of_app. right. left. }
  assert (Hfree : forall i q, (i, q) ∈ fl -> i <> idx).
  { intros i q Hin ->. by eapply free_disjoint. }
  set (r' := set_next (first_free_rec ht) r).
  unfold lyht_unlink.
  destruct l1 as [|[p rp] l1a _] using rev_ind.
  - simpl. simpl in Hstart. rewrite seg_end_nil in Hstart.
    set (rs' := alter (set_next (first_free_rec ht)) (Z.to_nat idx) (recs ht)).
    assert (Hframe : forall i q, lyht_get_rec (recs ht) i = Some q -> i <> idx ->
                      lyht_get_rec rs' i = Some q).
    { intros i q Hgi Hne. unfold rs'. by rewrite get_alter_ne. }
    exists l2, r'. split_and!; try done.
    split; simpl.
    + apply R.
    + rewrite length_insert. apply R.
    + rewrite !length_insert. apply R.
    + intros c bkc lc Hc Hlc. destruct (decide (c = b)) as [->|Hcb].
      * rewrite list_lookup_insert_eq in Hc by done.
        rewrite list_lookup_insert_eq in Hlc by done. simplify_eq/=.
        split_and!.
        -- eapply is_seg_transfer; [exact Hs2|]. intros i q Hin.
           apply Hframe; [eapply is_seg_get; [exact Hs2|exact Hin]|by eapply Hl2].
        -- done.
        -- destruct lc as [|x lc]; [by left|right].
           destruct Hla as [?|Hla]; [done|].
           rewrite decide_False by (eapply is_seg_start; [exact Hs2|done]).
           rewrite !fmap_cons in Hla. rewrite last_cons_cons in Hla.
           by rewrite fmap_cons.
        -- by apply Forall_cons in Hp as [_ Hp].
      * rewrite list_lookup_insert_ne in Hc by done.
        rewrite list_lookup_insert_ne in Hlc by done.
        destruct (rep_seg _ _ _ R c bkc lc Hc Hlc) as (Hs' & He' & Hla' & Hp').
        split_and!; try done.
        eapply is_seg_transfer; [exact Hs'|]. intros i q Hin.
        apply Hframe; [eapply is_seg_get; [exact Hs'|exact Hin]|by eapply Hother].
    + split.
      * split_and!; try done.
        -- unfold rs'. rewrite get_alter_eq by done. by rewrite Hg.
        -- simpl. eapply is_seg_transfer; [exact Hfs|]. intros i q Hin.
           apply Hframe; [eapply is_seg_get; [exact Hfs|exact Hin]|by eapply Hfree].
      * by rewrite seg_end_cons.
    + by eapply (nodup_remove_chain ls fl b [] idx r l2 l2).
    + unfold rs'. rewrite length_alter. apply R.
    + rewrite (rep_used _ _ _ R).
      rewrite (concat_remove_len ls b [] idx r l2 l2 Hl eq_refl). lia.
  - rewrite last_snoc. simpl.
    apply is_seg_app in Hs1 as [Hs1 Hsp]. simpl in Hsp.
    destruct Hsp as (Hpstart & Hpno & Hgp & _).
    rewrite seg_end_app, seg_end_cons, seg_end_nil in Hstart.
    simpl. rewrite !(decide_False (P:=p = NO)) by done.
    assert (0 <= p) as Hp0 by (by eapply get_nonneg).
    assert (p <> idx) as Hpidx.
    { eapply Hl1. apply elem_of_app. right. left. }
    rewrite fmap_app in Hnd1. apply NoDup_app in Hnd1 as (_ & Hnd1 & _).
    assert (Hl1a : forall i q, (i, q) ∈ l1a -> i <> p).
    { intros i q Hin ->. eapply Hnd1; [|left]. apply list_elem_of_fmap. by exists (p, q). }
    assert (Hl2p : forall i q, (i, q) ∈ l2 -> i <> p).
    { intros i q Hin E. subst i.
      eapply (Hd1 p); [|right; apply list_elem_of_fmap; by exists (p, q)].
      rewrite fmap_app. apply elem_of_app. right. simpl. left. }
    assert (Hin_p : p ∈ (l1a ++ [(p, rp)] ++ (idx, r) :: l2).*1).
    { rewrite !fmap_app. apply elem_of_app. right. left. }
    set (rs' := alter (set_next (first_free_rec ht)) (Z.to_nat idx)
                  (alter (set_next (next r)) (Z.to_nat p) (recs ht))).
    assert (Hframe : forall i q, lyht_get_rec (recs ht) i = Some q -> i <> idx -> i <> p ->
                      lyht_get_rec rs' i = Some q).
    { intros i q Hgi Hne1 Hne2. unfold rs'. rewrite get_alter_ne by done. by rewrite get_alter_ne. }
    exists (l1a ++ [(p, set_next (next r) rp)] ++ l2), r'.
    split_and!.
    + split; simpl.
      * apply R.
      * rewrite length_insert. apply R.
      * rewrite !length_insert. apply R.
      * intros c bkc lc Hc Hlc. destruct (decide (c = b)) as [->|Hcb].
        -- rewrite list_lookup_insert_eq in Hc by done.
           rewrite list_lookup_insert_eq in Hlc by done.
           injection Hc as <-. injection Hlc as <-. simpl.
           split_and!.
           ++ apply is_seg_app. split.
              ** eapply is_seg_transfer; [exact Hs1|]. intros i q Hin.
                 apply Hframe; [eapply is_seg_get; [exact Hs1|exact Hin]| |by eapply Hl1a].
                 eapply Hl1. apply elem_of_app. by left.
              ** simpl. split_and!; try done.
                 --- unfold rs'. rewrite get_alter_ne by done.
                     rewrite get_alter_eq by done. by rewrite Hgp.
                 --- eapply is_seg_transfer; [exact Hs2|]. intros i q Hin.
                     apply Hframe; [eapply is_seg_get; [exact Hs2|exact Hin]|by eapply Hl2|by eapply Hl2p].
           ++ rewrite seg_end_app. simpl. rewrite seg_end_cons. simpl. exact He.
           ++ right. destruct l2 as [|x l2].
              ** rewrite seg_end_nil in He. rewrite decide_True by done.
                 simpl. rewrite fmap_app. simpl. by rewrite last_snoc.
              ** rewrite decide_False by (eapply is_seg_start; [exact Hs2|done]).
                 destruct Hla as [Hla|Hla]; [by destruct l1a|].
                 rewrite (last_fst_app (l1a ++ [(p, rp)])) in Hla.
                 rewrite !fmap_cons in Hla. rewrite last_cons_cons in Hla.
                 simpl. rewrite (last_fst_app l1a).
                 rewrite !fmap_cons. rewrite last_cons_cons. exact Hla.
           ++ apply Forall_app in Hp as [Hp1 Hp2].
              apply Forall_app in Hp1 as [Hp1a Hp1p].
              apply Forall_cons in Hp2 as [_ Hp2].
              rewrite Forall_singleton in Hp1p.
              apply Forall_app_2; [exact Hp1a|].
              constructor; [exact Hp1p|exact Hp2].
        -- rewrite list_lookup_insert_ne in Hc by done.
           rewrite list_lookup_insert_ne in Hlc by done.
           destruct (rep_seg _ _ _ R c bkc lc Hc Hlc) as (Hs' & He' & Hla' & Hp').
           split_and!; try done.
           eapply is_seg_transfer; [exact Hs'|]. intros i q Hin.
           apply Hframe; [eapply is_seg_get; [exact Hs'|exact Hin]|by eapply Hother|].
           intros ->. eapply chain_disjoint; [exact Hnd|exact Hl|exact Hlc|done|exact Hin|].
           rewrite <- (assoc_L (++)). exact Hin_p.
      * split.
        -- split_and!; try done.
           ++ unfold rs'. rewrite get_alter_eq by done. rewrite get_alter_ne by done.
              by rewrite Hg.
           ++ simpl. eapply is_seg_transfer; [exact Hfs|]. intros i q Hin.
              apply Hframe; [eapply is_seg_get; [exact Hfs|exact Hin]|by eapply Hfree|].
              intros ->. eapply free_disjoint; [exact Hnd|exact Hin|].
              eapply in_chain_concat; [exact Hl|]. apply elem_of_app. left.
              apply elem_of_app. right. left.
        -- by rewrite seg_end_cons.
      * eapply (nodup_remove_chain ls fl b (l1a ++ [(p, rp)]) idx r l2); [done|done|].
        repeat first [rewrite fmap_app | rewrite fmap_cons]; simpl; rewrite <- ?(assoc_L (++)); reflexivity.
      * unfold rs'. rewrite !length_alter. apply R.
      * assert (length (concat ls)
                = S (length (concat (<[b:=l1a ++ [(p, set_next (next r) rp)] ++ l2]> ls)))) as Hlen.
        { apply (concat_remove_len ls b _ idx r l2 _ Hl).
          repeat first [rewrite fmap_app | rewrite fmap_cons]; simpl; rewrite <- ?(assoc_L (++)); reflexivity. }
        rewrite (rep_used _ _ _ R). simpl in Hlen |- *. lia.
    + repeat first [rewrite fmap_app | rewrite fmap_cons]; simpl; rewrite <- ?(assoc_L (++)); reflexivity.
    + repeat first [rewrite fmap_app | rewrite fmap_cons]; simpl; rewrite <- ?(assoc_L (++)); reflexivity.
Qed.

Section remove.
Context (hashf : list byte -> Z).

Lemma drep_sub m ht ls fl ht' ls' fl' e :
  drep hashf m ht ls fl -> ht_rep ht' ls' fl' ->
  key <$> (concat ls).*2 ≡ₚ e :: (key <$> (concat ls').*2) ->
  drep hashf m ht' ls' fl'.
Proof.
  intros (R & Hok & Hnd) R' Hk. split; [done|]. rewrite Hk in Hok, Hnd.
  rewrite !fmap_cons in Hnd.
  apply Forall_cons in Hok as [_ Hok]. apply NoDup_cons in Hnd as [_ Hnd]. done.
Qed.

Lemma remove_spec m ht ls fl v h cbr a i r :
  (forall d a b md, value a <> NULL -> value b <> NULL ->
     cb_holds cbr m d a b md = bool_decide (rec_str m a = rec_str m b)) ->
  drep hashf m ht ls fl -> val_equal ht = lydict_val_eq -> value v <> NULL ->
  (i, r) ∈ concat ls -> rec_str m (val r) = rec_str m v ->
  bucket_of ht h = bucket_of ht (hash r) ->
  exists ht' ls' fl',
    lyht_remove_with_resize_cb ht m v h cbr a = (LY_SUCCESS, ht')
    /\ drep hashf m ht' ls' fl'
    /\ entries ht ≡ₚ key r :: entries ht'
    /\ val_equal ht' = val_equal ht.
Proof.
  intros Hcb HR Hve Hv Hin Hstr Hbk.
  pose proof HR as (R & Hok & Hnd).
  pose proof (drep_find_present hashf m ht ls fl lydict_val_eq 0 v h (val_eq_cb m) HR Hv i r Hin Hstr Hbk) as Hfind.
  destruct (rep_bucket ht ls fl h R) as (bk & l & Hb & Hl).
  rewrite (rep_find_rec _ _ _ _ _ _ R Hl) in Hfind.
  rewrite (find_rec_prev_fst _ NO) in Hfind.
  unfold lyht_remove_with_resize_cb. rewrite Hb.
  rewrite (rep_bucket_recs _ _ _ _ _ _ R Hb Hl). rewrite Hve.
  destruct (find_rec_prev _ NO l) as [[[prev i'] r0]|] eqn:Hprev; [|done].
  simpl in Hfind. injection Hfind as ->.
  apply find_rec_prev_spec in Hprev as (l1 & l2 & -> & _ & _ & ->).
  assert (r0 = r) as ->.
  { assert ((i, r0) ∈ concat ls) as Hin0.
    { apply elem_of_concat. eexists. split; [|by eapply list_elem_of_lookup_2].
      apply elem_of_app. right. left. }
    pose proof (rep_get _ _ _ _ _ R Hin0). pose proof (rep_get _ _ _ _ _ R Hin). congruence. }
  destruct (unlink_spec ht ls fl _ bk l1 i r l2 R Hb Hl) as (L & r' & R1 & HL & HL1).
  set (ht1 := lyht_unlink ht _ bk _ i r) in *.
  set (ls1 := <[Z.to_nat (bucket_of ht h):=L]> ls) in *.
  pose proof (concat_remove_key ls _ l1 i r l2 L Hl HL) as Hk. fold ls1 in Hk.
  assert (drep hashf m ht1 ls1 ((i, r') :: fl)) as HR1 by exact (drep_sub m ht ls fl ht1 ls1 _ _ HR R1 Hk).
  assert (entries ht ≡ₚ key r :: entries ht1) as He1.
  { by rewrite (rep_entries _ _ _ R), (rep_entries _ _ _ R1). }
  assert (Hnores : exists ht' ls' fl',
    (LY_SUCCESS, ht1) = (LY_SUCCESS, ht')
    /\ drep hashf m ht' ls' fl' /\ entries ht ≡ₚ key r :: entries ht'
    /\ val_equal ht' = lydict_val_eq).
  { exists ht1, ls1, ((i, r') :: fl). split_and!; try done. }
  cbv zeta. fold ht1.
  case_decide as Hshrink; [|exact Hnores].
  destruct (resize_ok a); [|exact Hnores].
  destruct (resize_spec hashf m cbr ht1 ls1 _ (Z.max (size ht1 / 2) LYHT_MIN_SIZE) Hcb HR1)
    as (ls4 & HR4 & He4 & Hsz4 & Hve4 & _).
  { unfold LYHT_MIN_SIZE. lia. }
  eexists _, ls4, []. split_and!; try done.
  - by rewrite He4.
  - rewrite Hve4. done.
Qed.
End remove.

(** * The dictionary functions *)
Section dict_lemmas.
Context (hashf : list byte -> Z).

Lemma drep_heap m m' ht ls fl :
  drep hashf m ht ls fl ->
  (forall e, e ∈ key <$> (concat ls).*2 -> m' !! value e.2 = m !! value e.2) ->
  drep hashf m' ht ls fl.
Proof.
  intros (R & Hok & Hnd) Hm. split; [done|].
  assert (Hstr : forall e, e ∈ key <$> (concat ls).*2 -> rec_str m' e.2 = rec_str m e.2).
  { intros e He. unfold rec_str, load. by rewrite (Hm e He). }
  split.
  - apply Forall_forall. intros e He. rewrite Forall_forall in Hok.
    destruct (Hok e He) as (H1 & H2 & H3). split_and!; [done| |].
    + by rewrite (Hm e He).
    + by rewrite (Hstr e He).
  - assert (rec_str m' <$> (key <$> (concat ls).*2).*2
            = rec_str m <$> (key <$> (concat ls).*2).*2) as ->; [|done].
    apply list_fmap_ext. intros k x Hk.
    apply list_elem_of_lookup_2 in Hk.
    apply list_elem_of_fmap in Hk as (e & -> & He). by apply Hstr.
Qed.

Lemma drep_recs m ht ls fl :
  drep hashf m ht ls fl -> dict_recs ht = (key <$> (concat ls).*2).*2.
Proof. intros (R & _). unfold dict_recs. by rewrite (rep_entries _ _ _ R). Qed.

Lemma in_dict_recs ht ls fl r :
  ht_rep ht ls fl -> r ∈ dict_recs ht ->
  exists i rr, (i, rr) ∈ concat ls /\ val rr = r.
Proof.
  intros R. unfold dict_recs. rewrite (rep_entries _ _ _ R).
  intros (e & -> & (rr & -> & ([i rr'] & -> & Hin)%list_elem_of_fmap)%list_elem_of_fmap)%list_elem_of_fmap.
  by exists i, rr'.
Qed.

Lemma owned_ne m ht ls fl e p :
  drep hashf m ht ls fl -> e ∈ key <$> (concat ls).*2 -> m !! p = None -> value e.2 <> p.
Proof.
  intros (_ & Hok & _) He Hp E. rewrite Forall_forall in Hok.
  destruct (Hok e He) as (_ & [x Hx] & _). congruence.
Qed.

(** [dict_insert] on a string that is not stored yet. *)
Lemma dict_insert_new w vp len str_p a bs :
  dict_ok hashf w -> vp <> NULL -> heap w !! vp = Some bs ->
  take (Z.to_nat len) bs = c_str bs ->
  c_str bs ∉ rec_str (heap w) <$> dict_recs (hash_tab w) ->
  first_free_rec (hash_tab w) <> NO
  \/ (grow_ok a = true /\ Z.of_nat (length (recs (hash_tab w))) < NO) ->
  exists ht',
    dict_insert hashf w vp len str_p a
    = (LY_SUCCESS, store_str str_p vp,
       {| heap := heap w; hash_tab := ht';
          trace := trace w ++ [LOGDBG (take (Z.to_nat len) (c_str bs))] |})
    /\ val_equal ht' = lydict_val_eq
    /\ dict_inv hashf (heap w) ht'
    /\ dict_recs ht' ≡ₚ {| value := vp; refcount := 1 |} :: dict_recs (hash_tab w).
Proof.
  intros [Hve Hinv] Hvp Hbs Htake Habs Halloc.
  apply dict_inv_rep in Hinv as (ls & fl & HR).
  pose proof HR as (R & _).
  unfold dict_insert, log, load. cbn [heap hash_tab trace]. rewrite Hbs.
  cbn [default from_option id]. rewrite Htake.
  set (v := {| value := vp; refcount := 1 |}).
  assert (rec_str (heap w) v = c_str bs) as Hstr.
  { unfold rec_str, load, v. simpl. by rewrite Hbs. }
  rewrite (drep_recs _ _ _ _ HR) in Habs.
  destruct (insert_new_spec hashf (heap w) (hash_tab w) ls fl v (hashf (c_str bs))
              lydict_resize_val_eq a (resize_eq_cb (heap w)) HR Hve)
    as (mt & ht' & ls' & fl' & Heq & HR' & He & Hg & Hve').
  { unfold entry_ok, rec_str, load, v. simpl. rewrite Hbs. simpl. split_and!; done. }
  { by rewrite Hstr. }
  { done. }
  rewrite Heq. exists ht'. split_and!.
  - unfold match_value. rewrite Hg. done.
  - congruence.
  - apply dict_inv_rep. eauto.
  - unfold dict_recs. by rewrite He.
Qed.

(** [dict_insert] when the table cannot take another record. *)
Lemma dict_insert_nomem w vp len str_p a bs :
  dict_ok hashf w -> vp <> NULL -> heap w !! vp = Some bs ->
  c_str bs ∉ rec_str (heap w) <$> dict_recs (hash_tab w) ->
  lyht_alloc_rec (hash_tab w) (grow_ok a) = None ->
  dict_insert hashf w vp len str_p a
  = (LY_EMEM, str_p,
     {| heap := free vp (heap w); hash_tab := hash_tab w;
        trace := trace w ++ [LOGDBG (take (Z.to_nat len) (c_str bs))] |}).
Proof.
  intros [Hve Hinv] Hvp Hbs Habs Halloc.
  apply dict_inv_rep in Hinv as (ls & fl & HR).
  unfold dict_insert, log, load. cbn [heap hash_tab trace]. rewrite Hbs.
  cbn [default from_option id].
  rewrite (drep_recs _ _ _ _ HR) in Habs.
  rewrite (insert_nomem hashf (heap w) (hash_tab w) ls fl _ _ _ a HR Hve); try done.
  unfold rec_str, load. simpl. by rewrite Hbs.
Qed.

(** [dict_insert] on a string that is stored already. *)
Lemma dict_insert_dup w vp len str_p a bs r :
  dict_ok hashf w -> vp <> NULL -> heap w !! vp = Some bs ->
  take (Z.to_nat len) bs = c_str bs ->
  r ∈ dict_recs (hash_tab w) -> rec_str (heap w) r = c_str bs ->
  Forall (fun q => value q <> vp) (dict_recs (hash_tab w)) ->
  exists ht' A B,
    dict_insert hashf w vp len str_p a
    = (LY_SUCCESS, store_str str_p (value r),
       {| heap := free vp (heap w); hash_tab := ht';
          trace := trace w ++ [LOGDBG (take (Z.to_nat len) (c_str bs))] |})
    /\ val_equal ht' = lydict_val_eq
    /\ dict_inv hashf (free vp (heap w)) ht'
    /\ dict_recs (hash_tab w) = A ++ r :: B
    /\ dict_recs ht'
       = A ++ {| value := value r; refcount := u32 (refcount r + 1) |} :: B
    /\ used ht' = used (hash_tab w).
Proof.
  intros [Hve Hinv] Hvp Hbs Htake Hr Hrs Hne.
  pose proof Hinv as Hinv0.
  apply dict_inv_rep in Hinv as (ls & fl & HR).
  pose proof HR as (R & Hok & Hnd).
  destruct (in_dict_recs _ _ _ _ R Hr) as (i & rr & Hin & <-).
  unfold dict_insert, log, load. cbn [heap hash_tab trace]. rewrite Hbs.
  cbn [default from_option id]. rewrite Htake.
  set (v := {| value := vp; refcount := 1 |}).
  assert (rec_str (heap w) v = c_str bs) as Hstr.
  { unfold rec_str, load, v. simpl. by rewrite Hbs. }
  assert (entry_ok hashf (heap w) (key rr)) as Hrr.
  { rewrite Forall_forall in Hok. apply Hok. by eapply in_entries. }
  destruct Hrr as (Hrr1 & Hrr2 & Hrr3). simpl in *.
  rewrite (insert_exist_spec hashf (heap w) (hash_tab w) ls fl v _ _ a i rr HR Hve); try done.
  2:{ by rewrite Hstr. }
  2:{ by rewrite Hrr3, Hrs. }
  assert (get_val (hash_tab w) i = val rr) as Hg.
  { unfold get_val. by rewrite (rep_get _ _ _ _ _ R Hin). }
  rewrite Hg.
  set (v' := {| value := value (val rr); refcount := u32 (refcount (val rr) + 1) |}).
  destruct (set_val_spec hashf (heap w) (hash_tab w) ls fl i rr v' HR Hin eq_refl)
    as (ls' & fl' & A & B & HR' & HA & HB & Hg' & _).
  exists (set_val i v' (hash_tab w)), A.*2, B.*2. split_and!.
  - unfold match_value. by rewrite Hg'.
  - unfold set_val. by case_decide.
  - apply dict_inv_rep. exists ls', fl'.
    eapply drep_heap; [exact HR'|]. intros e He.
    unfold free. apply lookup_delete_ne. intros E.
    rewrite <- (rep_entries _ _ _ (proj1 HR')), HB in He.
    rewrite Forall_forall in Hne. unfold dict_recs in Hne. rewrite HA in Hne.
    apply elem_of_app in He as [He|[->|He]%elem_of_cons].
    + apply (Hne e.2); [|done]. apply list_elem_of_fmap. exists e. split; [done|].
      apply elem_of_app. by left.
    + apply (Hne (val rr)); [|done]. apply list_elem_of_fmap. exists (hash rr, val rr).
      split; [done|]. apply elem_of_app. right. left.
    + apply (Hne e.2); [|done]. apply list_elem_of_fmap. exists e. split; [done|].
      apply elem_of_app. right. by right.
  - unfold dict_recs. rewrite HA. by rewrite fmap_app, fmap_cons.
  - unfold dict_recs. rewrite HB. by rewrite fmap_app, fmap_cons.
  - unfold set_val. by case_decide.
Qed.

Lemma lyht_find_present m ht ls fl v h i r :
  drep hashf m ht ls fl -> val_equal ht = lydict_val_eq -> value v <> NULL ->
  (i, r) ∈ concat ls -> rec_str m (val r) = rec_str m v -> h = hash r ->
  lyht_find ht m v h = (LY_SUCCESS, Some i).
Proof.
  intros HR Hve Hv Hin Hs ->. unfold lyht_find. rewrite Hve.
  by rewrite (drep_find_present hashf m ht ls fl lydict_val_eq 0 v (hash r) (val_eq_cb m) HR Hv i r Hin Hs eq_refl).
Qed.

Lemma lyht_find_absent m ht ls fl v h :
  drep hashf m ht ls fl -> val_equal ht = lydict_val_eq -> value v <> NULL ->
  rec_str m v ∉ rec_str m <$> dict_recs ht ->
  lyht_find ht m v h = (LY_ENOTFOUND, None).
Proof.
  intros HR Hve Hv Habs. unfold lyht_find. rewrite Hve.
  rewrite (drep_recs _ _ _ _ HR) in Habs.
  by rewrite (drep_find_absent hashf m ht ls fl lydict_val_eq 0 v h (val_eq_cb m) HR Hv Habs).
Qed.

Lemma fresh_not_owned m ht p :
  dict_inv hashf m ht -> m !! p = None ->
  Forall (fun q => value q <> p) (dict_recs ht).
Proof.
  intros (ls & fl & HR)%dict_inv_rep Hp. rewrite (drep_recs _ _ _ _ HR).
  apply Forall_forall. intros q (e & -> & He)%list_elem_of_fmap.
  by eapply owned_ne.
Qed.

Lemma dict_inv_heap m m' ht :
  dict_inv hashf m ht ->
  (forall q, q ∈ dict_recs ht -> m' !! value q = m !! value q) ->
  dict_inv hashf m' ht.
Proof.
  intros (ls & fl & HR)%dict_inv_rep Hm. apply dict_inv_rep. exists ls, fl.
  eapply drep_heap; [done|]. intros e He. apply Hm.
  rewrite (drep_recs _ _ _ _ HR). apply list_elem_of_fmap. by exists e.
Qed.

Lemma rec_str_heap m m' (l : list ly_dict_rec) :
  (forall q, q ∈ l -> m' !! value q = m !! value q) ->
  rec_str m' <$> l = rec_str m <$> l.
Proof.
  intros Hm. apply list_fmap_ext. intros k q Hk. unfold rec_str, load.
  rewrite Hm; [done|]. by eapply list_elem_of_lookup_2.
Qed.
End dict_lemmas.

Section api.
Context (hashf : list byte -> Z).

Lemma eff_len_zero bs :
  (x00 ∉ take (Z.to_nat (eff_len bs 0)) bs)
  /\ length (take (Z.to_nat (eff_len bs 0)) bs) = Z.to_nat (eff_len bs 0).
Proof.
  unfold eff_len. rewrite decide_True by done. rewrite take_strlen.
  split; [apply c_str_no_nul|]. unfold strlen. lia.
Qed.

Lemma lydict_insert_unfold w vp len c vc a :
  vp <> NULL -> vc <> NULL ->
  lydict_insert hashf w true vp len (Some c) vc a
  = (let '(result, out, w') :=
       dict_insert hashf
         {| heap := <[vc := take (Z.to_nat (eff_len (load (heap w) vp) len))
                               (load (heap w) vp) ++ [x00]]> (heap w);
            hash_tab := hash_tab w;
            trace := trace w ++ [pthread_mutex_lock] |}
         vc (eff_len (load (heap w) vp) len) (Some c) a in
     (result, out, log pthread_mutex_unlock w')).
Proof.
  intros H1 H2. unfold lydict_insert, eff_len. simpl.
  rewrite !decide_False by done. done.
Qed.

Lemma copy_facts (S : list byte) n :
  x00 ∉ S -> length S = n ->
  take n (S ++ [x00]) = c_str (S ++ [x00]) /\ c_str (S ++ [x00]) = S.
Proof.
  intros H1 H2. rewrite c_str_app_nul by done. split; [|done].
  subst n. by rewrite take_app_length.
Qed.

Lemma insert_heap_ok w vc copy :
  dict_ok hashf w -> heap w !! vc = None ->
  dict_ok hashf {| heap := <[vc := copy]> (heap w); hash_tab := hash_tab w;
                   trace := trace w ++ [pthread_mutex_lock] |}
  /\ rec_str (<[vc := copy]> (heap w)) <$> dict_recs (hash_tab w)
     = rec_str (heap w) <$> dict_recs (hash_tab w).
Proof.
  intros [Hve Hinv] Hfresh.
  pose proof (fresh_not_owned hashf _ _ _ Hinv Hfresh) as Hno.
  rewrite Forall_forall in Hno.
  assert (Hm : forall q, q ∈ dict_recs (hash_tab w) ->
            <[vc:=copy]> (heap w) !! value q = heap w !! value q).
  { intros q Hq. apply lookup_insert_ne. intros E. by apply (Hno q Hq). }
  split; [split; [done|]|].
  - simpl. by eapply dict_inv_heap.
  - by apply rec_str_heap.
Qed.

(** [lydict_insert] of a string that is not stored yet. *)
Lemma lydict_insert_new w vp len c vc a bs :
  dict_ok hashf w -> vp <> NULL -> heap w !! vp = Some bs ->
  vc <> NULL -> heap w !! vc = None ->
  x00 ∉ take (Z.to_nat (eff_len bs len)) bs ->
  length (take (Z.to_nat (eff_len bs len)) bs) = Z.to_nat (eff_len bs len) ->
  take (Z.to_nat (eff_len bs len)) bs ∉ rec_str (heap w) <$> dict_recs (hash_tab w) ->
  first_free_rec (hash_tab w) <> NO
  \/ (grow_ok a = true /\ Z.of_nat (length (recs (hash_tab w))) < NO) ->
  exists ht',
    lydict_insert hashf w true vp len (Some c) vc a
    = (LY_SUCCESS, Some vc,
       {| heap := <[vc := take (Z.to_nat (eff_len bs len)) bs ++ [x00]]> (heap w);
          hash_tab := ht';
          trace := trace w ++ [pthread_mutex_lock;
                               LOGDBG (take (Z.to_nat (eff_len bs len)) bs);
                               pthread_mutex_unlock] |})
    /\ val_equal ht' = lydict_val_eq
    /\ dict_inv hashf (<[vc := take (Z.to_nat (eff_len bs len)) bs ++ [x00]]> (heap w)) ht'
    /\ dict_recs ht' ≡ₚ {| value := vc; refcount := 1 |} :: dict_recs (hash_tab w).
Proof.
  intros Hok Hvp Hbs Hvc Hfresh Hnul Hlen Habs Halloc.
  rewrite lydict_insert_unfold by done. unfold load. rewrite Hbs. simpl.
  set (S := take (Z.to_nat (eff_len bs len)) bs) in *.
  destruct (insert_heap_ok w vc (S ++ [x00]) Hok Hfresh) as [Hok1 Hstr1].
  destruct (copy_facts S _ Hnul Hlen) as [Hc1 Hc2].
  set (w1 := {| heap := <[vc:=S ++ [x00]]> (heap w); hash_tab := hash_tab w;
                trace := trace w ++ [pthread_mutex_lock] |}) in *.
  assert (heap w1 !! vc = Some (S ++ [x00])) as Hlk by apply lookup_insert_eq.
  assert (c_str (S ++ [x00]) ∉ rec_str (heap w1) <$> dict_recs (hash_tab w1)) as Habs1.
  { simpl. rewrite Hstr1, Hc2. done. }
  destruct (dict_insert_new hashf w1 vc (eff_len bs len) (Some c) a (S ++ [x00])
              Hok1 Hvc Hlk Hc1 Habs1 Halloc)
    as (ht' & Heq & Hve & Hinv & Hrecs).
  rewrite Heq. exists ht'. simpl in *. split_and!; try done.
  unfold log. simpl. rewrite Hc2, <- Hlen, firstn_all.
  by rewrite <- !(assoc_L (++)).
Qed.

(** [lydict_insert] of a string that is stored already. *)
Lemma lydict_insert_dup w vp len c vc a bs r :
  dict_ok hashf w -> vp <> NULL -> heap w !! vp = Some bs ->
  vc <> NULL -> heap w !! vc = None ->
  x00 ∉ take (Z.to_nat (eff_len bs len)) bs ->
  length (take (Z.to_nat (eff_len bs len)) bs) = Z.to_nat (eff_len bs len) ->
  r ∈ dict_recs (hash_tab w) ->
  rec_str (heap w) r = take (Z.to_nat (eff_len bs len)) bs ->
  exists ht' A B,
    lydict_insert hashf w true vp len (Some c) vc a
    = (LY_SUCCESS, Some (value r),
       {| heap := heap w; hash_tab := ht';
          trace := trace w ++ [pthread_mutex_lock;
                               LOGDBG (take (Z.to_nat (eff_len bs len)) bs);
                               pthread_mutex_unlock] |})
    /\ val_equal ht' = lydict_val_eq
    /\ dict_inv hashf (heap w) ht'
    /\ dict_recs (hash_tab w) = A ++ r :: B
    /\ dict_recs ht'
       = A ++ {| value := value r; refcount := u32 (refcount r + 1) |} :: B
    /\ used ht' = used (hash_tab w).
Proof.
  intros Hok Hvp Hbs Hvc Hfresh Hnul Hlen Hr Hrs.
  rewrite lydict_insert_unfold by done. unfold load. rewrite Hbs. simpl.
  set (S := take (Z.to_nat (eff_len bs len)) bs) in *.
  destruct (insert_heap_ok w vc (S ++ [x00]) Hok Hfresh) as [Hok1 Hstr1].
  destruct (copy_facts S _ Hnul Hlen) as [Hc1 Hc2].
  pose proof (fresh_not_owned hashf _ _ _ (proj2 Hok) Hfresh) as Hno.
  set (w1 := {| heap := <[vc:=S ++ [x00]]> (heap w); hash_tab := hash_tab w;
                trace := trace w ++ [pthread_mutex_lock] |}) in *.
  assert (heap w1 !! vc = Some (S ++ [x00])) as Hlk by apply lookup_insert_eq.
  assert (rec_str (heap w1) r = c_str (S ++ [x00])) as Hrs1.
  { simpl. rewrite Hc2, <- Hrs. unfold rec_str, load.
    rewrite lookup_insert_ne; [done|]. rewrite Forall_forall in Hno. intros E. by apply (Hno r Hr). }
  destruct (dict_insert_dup hashf w1 vc (eff_len bs len) (Some c) a (S ++ [x00]) r
              Hok1 Hvc Hlk Hc1 Hr Hrs1 Hno)
    as (ht' & A & B & Heq & Hve & Hinv & HA & HB & Hus).
  rewrite Heq. exists ht', A, B. simpl in *.
  assert (free vc (<[vc:=S ++ [x00]]> (heap w)) = heap w) as Hfree.
  { unfold free. rewrite delete_insert_eq. by apply delete_id. }
  rewrite Hfree in *. split_and!; try done.
  unfold log. simpl. rewrite Hc2, <- Hlen, firstn_all.
  by rewrite <- !(assoc_L (++)).
Qed.
End api.

Section api2.
Context (hashf : list byte -> Z).

Lemma dict_ok_log e w : dict_ok hashf w -> dict_ok hashf (log e w).
Proof. by intros [??]. Qed.

(** [lydict_insert_zc] of a string that is not stored yet. *)
Lemma lydict_insert_zc_new w vp c a bs :
  dict_ok hashf w -> vp <> NULL -> heap w !! vp = Some bs ->
  c_str bs ∉ rec_str (heap w) <$> dict_recs (hash_tab w) ->
  first_free_rec (hash_tab w) <> NO
  \/ (grow_ok a = true /\ Z.of_nat (length (recs (hash_tab w))) < NO) ->
  exists ht',
    lydict_insert_zc hashf w true vp (Some c) a
    = (LY_SUCCESS, Some vp,
       {| heap := heap w; hash_tab := ht';
          trace := trace w ++ [pthread_mutex_lock; LOGDBG (c_str bs);
                               pthread_mutex_unlock] |})
    /\ val_equal ht' = lydict_val_eq
    /\ dict_inv hashf (heap w) ht'
    /\ dict_recs ht' ≡ₚ {| value := vp; refcount := 1 |} :: dict_recs (hash_tab w).
Proof.
  intros Hok Hvp Hbs Habs Halloc.
  unfold lydict_insert_zc. simpl. rewrite !decide_False by done.
  unfold load. rewrite Hbs. simpl.
  destruct (dict_insert_new hashf (log pthread_mutex_lock w) vp (strlen bs) (Some c) a bs
              (dict_ok_log _ _ Hok) Hvp Hbs (take_strlen bs) Habs Halloc)
    as (ht' & Heq & Hve & Hinv & Hrecs).
  rewrite Heq. exists ht'. split_and!; try done.
  unfold log. simpl. rewrite <- (take_strlen bs) at 1. rewrite take_take, Nat.min_id, take_strlen.
  by rewrite <- !(assoc_L (++)).
Qed.

(** [lydict_insert_zc] of a string that is stored already. *)
Lemma lydict_insert_zc_dup w vp c a bs r :
  dict_ok hashf w -> vp <> NULL -> heap w !! vp = Some bs ->
  r ∈ dict_recs (hash_tab w) -> rec_str (heap w) r = c_str bs ->
  Forall (fun q => value q <> vp) (dict_recs (hash_tab w)) ->
  exists ht' A B,
    lydict_insert_zc hashf w true vp (Some c) a
    = (LY_SUCCESS, Some (value r),
       {| heap := free vp (heap w); hash_tab := ht';
          trace := trace w ++ [pthread_mutex_lock; LOGDBG (c_str bs);
                               pthread_mutex_unlock] |})
    /\ val_equal ht' = lydict_val_eq
    /\ dict_inv hashf (free vp (heap w)) ht'
    /\ dict_recs (hash_tab w) = A ++ r :: B
    /\ dict_recs ht'
       = A ++ {| value := value r; refcount := u32 (refcount r + 1) |} :: B
    /\ used ht' = used (hash_tab w).
Proof.
  intros Hok Hvp Hbs Hr Hrs Hno.
  unfold lydict_insert_zc. simpl. rewrite !decide_False by done.
  unfold load. rewrite Hbs. simpl.
  destruct (dict_insert_dup hashf (log pthread_mutex_lock w) vp (strlen bs) (Some c) a bs r
              (dict_ok_log _ _ Hok) Hvp Hbs (take_strlen bs) Hr Hrs Hno)
    as (ht' & A & B & Heq & Hve & Hinv & HA & HB & Hus).
  rewrite Heq. exists ht', A, B. split_and!; try done.
  unfold log. simpl. rewrite <- (take_strlen bs) at 1. rewrite take_take, Nat.min_id, take_strlen.
  by rewrite <- !(assoc_L (++)).
Qed.

Ltac remove_start :=
  unfold lydict_remove; cbn [negb orb];
  rewrite bool_decide_eq_false_2 by done;
  unfold log; cbn [heap hash_tab trace]; rewrite take_strlen.

(** [lydict_remove] of a string that is not stored. *)
Lemma lydict_remove_absent w vp a :
  dict_ok hashf w -> vp <> NULL ->
  c_str (load (heap w) vp) ∉ rec_str (heap w) <$> dict_recs (hash_tab w) ->
  lydict_remove hashf w true vp a
  = (LY_ENOTFOUND,
     {| heap := heap w; hash_tab := hash_tab w;
        trace := trace w ++ [LOGDBG (c_str (load (heap w) vp)); pthread_mutex_lock;
                             LOGERR LY_ENOTFOUND (c_str (load (heap w) vp));
                             pthread_mutex_unlock] |}).
Proof.
  intros [Hve Hinv] Hvp Habs. remove_start.
  apply dict_inv_rep in Hinv as (ls & fl & HR).
  rewrite (lyht_find_absent hashf _ _ ls fl _ _ HR Hve); [|done|done].
  cbn [heap hash_tab trace]. by rewrite <- !(assoc_L (++)).
Qed.

(** [lydict_remove] of a stored string. *)
Lemma lydict_remove_found w vp a r :
  dict_ok hashf w -> vp <> NULL ->
  r ∈ dict_recs (hash_tab w) -> rec_str (heap w) r = c_str (load (heap w) vp) ->
  exists ht' A B,
    lydict_remove hashf w true vp a
    = (LY_SUCCESS,
       {| heap := if decide (u32 (refcount r - 1) = 0) then free (value r) (heap w)
                  else heap w;
          hash_tab := ht';
          trace := trace w ++ [LOGDBG (c_str (load (heap w) vp)); pthread_mutex_lock;
                               pthread_mutex_unlock] |})
    /\ val_equal ht' = lydict_val_eq
    /\ dict_inv hashf (if decide (u32 (refcount r - 1) = 0)
                       then free (value r) (heap w) else heap w) ht'
    /\ dict_recs (hash_tab w) = A ++ r :: B
    /\ (if decide (u32 (refcount r - 1) = 0)
        then dict_recs ht' ≡ₚ A ++ B
        else dict_recs ht'
             = A ++ {| value := value r; refcount := u32 (refcount r - 1) |} :: B
             /\ used ht' = used (hash_tab w)).
Proof.
  intros [Hve Hinv] Hvp Hr Hrs. remove_start.
  pose proof Hinv as Hinv0.
  apply dict_inv_rep in Hinv as (ls & fl & HR).
  pose proof HR as (R & Hok & Hnd).
  destruct (in_dict_recs _ _ _ _ R Hr) as (i & rr & Hin & <-).
  assert (entry_ok hashf (heap w) (key rr)) as (Hrr1 & Hrr2 & Hrr3).
  { rewrite Forall_forall in Hok. apply Hok. by eapply in_entries. }
  simpl in Hrr1, Hrr2, Hrr3.
  set (rec := {| value := vp; refcount := 0 |}).
  assert (rec_str (heap w) rec = c_str (load (heap w) vp)) as Hrec by done.
  rewrite (lyht_find_present hashf _ _ ls fl rec _ i rr HR Hve Hvp Hin);
    [|by rewrite Hrec|by rewrite Hrr3, Hrs].
  assert (get_val (hash_tab w) i = val rr) as Hg.
  { unfold get_val. by rewrite (rep_get _ _ _ _ _ R Hin). }
  rewrite Hg.
  set (v' := {| value := value (val rr); refcount := u32 (refcount (val rr) - 1) |}).
  destruct (set_val_spec hashf (heap w) (hash_tab w) ls fl i rr v' HR Hin eq_refl)
    as (ls' & fl' & A & B & HR' & HA & HB & Hg' & Hin').
  assert (val_equal (set_val i v' (hash_tab w)) = lydict_val_eq) as Hve'.
  { unfold set_val. by case_decide. }
  exists (if decide (refcount v' = 0)
          then (lyht_remove_with_resize_cb (set_val i v' (hash_tab w)) (heap w) rec
                  (hashf (c_str (load (heap w) vp))) lydict_resize_val_eq a).2
          else set_val i v' (hash_tab w)), A.*2, B.*2.
  change (u32 (refcount (val rr) - 1)) with (refcount v').
  destruct (decide (refcount v' = 0)) as [Hz|Hnz].
  - destruct (remove_spec hashf (heap w) _ ls' fl' rec (hashf (c_str (load (heap w) vp)))
                lydict_resize_val_eq a i _ (resize_eq_cb (heap w)) HR' Hve' Hvp Hin')
      as (ht2 & ls2 & fl2 & Heq & HR2 & He2 & Hve2).
    { simpl. unfold rec_str at 1. simpl. fold (rec_str (heap w) (val rr)). by rewrite Hrs. }
    { simpl. by rewrite Hrr3, Hrs. }
    rewrite Heq. simpl.
    assert (entries ht2 ≡ₚ A ++ B) as HAB.
    { rewrite HB in He2. simpl in He2.
      rewrite <- Permutation_middle in He2. by apply Permutation_cons_inv in He2. }
    split_and!.
    + unfold log. simpl. by rewrite <- !(assoc_L (++)).
    + congruence.
    + apply dict_inv_rep. exists ls2, fl2.
      eapply drep_heap; [exact HR2|]. intros e He.
      unfold free. apply lookup_delete_ne. intros E.
      rewrite <- (rep_entries _ _ _ (proj1 HR2)), HAB in He.
      rewrite <- (rep_entries _ _ _ R), HA in Hnd.
      revert Hnd. rewrite !fmap_app, !fmap_cons. simpl.
      intros Hnd. apply NoDup_app in Hnd as (HndA & HdA & HndB).
      apply NoDup_cons in HndB as [HdB HndB].
      assert (rec_str (heap w) e.2 = rec_str (heap w) (val rr)) as Es.
      { unfold rec_str. by rewrite E. }
      apply elem_of_app in He as [He|He].
      * eapply HdA; [|left]. rewrite <- Es.
        apply list_elem_of_fmap. exists e.2. split; [done|].
        apply list_elem_of_fmap. by exists e.
      * apply HdB. rewrite <- Es.
        apply list_elem_of_fmap. exists e.2. split; [done|].
        apply list_elem_of_fmap. by exists e.
    + unfold dict_recs. rewrite HA. by rewrite fmap_app, fmap_cons.
    + unfold dict_recs. by rewrite HAB, fmap_app.
  - split_and!.
    + unfold log. simpl. by rewrite <- !(assoc_L (++)).
    + done.
    + apply dict_inv_rep. eauto.
    + unfold dict_recs. rewrite HA. by rewrite fmap_app, fmap_cons.
    + unfold dict_recs. rewrite HB. by rewrite fmap_app, fmap_cons.
    + unfold set_val. by case_decide.
Qed.
End api2.

Lemma free_slots_lookup n i :
  (i < n)%nat ->
  free_slots n !! i
  = Some {| hash := 0; next := if decide (S i = n) then NO else Z.of_nat (S i);
            val := blank_val |}.
Proof.
  intros Hi. unfold free_slots. rewrite list_lookup_fmap.
  by rewrite lookup_seq_lt.
Qed.

Lemma free_chain_seg n len : forall k,
  (k + len = n)%nat -> Z.of_nat n <= NO ->
  is_seg (free_slots n) (Z.of_nat k) (free_chain n k len).
Proof.
  induction len as [|len IH]; intros k Hk Hn; [done|].
  unfold free_chain. simpl. split_and!; [done| unfold LYHT_NO_RECORD in *; lia | |].
  - unfold lyht_get_rec. rewrite decide_True by lia. rewrite Nat2Z.id.
    apply free_slots_lookup. lia.
  - case_decide as E.
    + assert (len = 0%nat) as -> by lia. done.
    + apply IH; lia.
Qed.

Lemma free_chain_end n :
  (0 < n)%nat -> seg_end 0 (free_chain n 0 n) = NO.
Proof.
  destruct n as [|n]; [lia|]. intros _. unfold free_chain, seg_end.
  rewrite seq_S, fmap_app. simpl. rewrite last_snoc. simpl.
  by rewrite decide_True.
Qed.

Lemma lyht_new_rep sz vs ve d rz ht :
  lyht_new sz vs ve d rz true = Some ht -> size ht <= NO ->
  ht_rep ht (replicate (Z.to_nat (size ht)) [])
    (free_chain (Z.to_nat (size ht)) 0 (Z.to_nat (size ht)))
  /\ val_equal ht = ve /\ used ht = 0 /\ LYHT_MIN_SIZE <= size ht.
Proof.
  unfold lyht_new. case_decide; [done|]. simpl. intros [= <-]. simpl.
  set (n := Z.max LYHT_MIN_SIZE (2 ^ Z.log2_up sz)).
  assert (LYHT_MIN_SIZE <= n) as Hmin by (unfold n; lia).
  unfold LYHT_MIN_SIZE in Hmin. intros Hn.
  split_and!; try done. split; simpl.
  - lia.
  - by rewrite length_replicate.
  - by rewrite !length_replicate.
  - intros b bk l [-> _]%lookup_replicate [-> _]%lookup_replicate.
    split_and!; try done. by left.
  - split.
    + apply (free_chain_seg (Z.to_nat n) (Z.to_nat n) 0); lia.
    + apply free_chain_end. lia.
  - rewrite concat_replicate_nil. simpl. unfold free_chain.
    rewrite <- list_fmap_compose. apply NoDup_fmap_2; [|apply NoDup_seq].
    intros x y. simpl. lia.
  - unfold free_slots. rewrite length_fmap, length_seq. lia.
  - by rewrite concat_replicate_nil.
Qed.

Lemma lyht_new_size sz vs ve d rz ok ht :
  lyht_new sz vs ve d rz ok = Some ht ->
  size ht = Z.max LYHT_MIN_SIZE (2 ^ Z.log2_up sz) /\ first_free_rec ht = 0
  /\ ok = true /\ vs <> 0.
Proof.
  unfold lyht_new. case_decide; [done|]. destruct ok; [|done].
  cbn [negb]. by intros [= <-].
Qed.

Section init.
Context (hashf : list byte -> Z).

(** [lydict_init] on a dictionary whose table can be allocated. *)
Lemma lydict_init_ok m tr :
  exists ht, lydict_init true true = (Some ht, [pthread_mutex_init])
    /\ dict_ok hashf {| heap := m; hash_tab := ht; trace := tr |}
    /\ dict_recs ht = [] /\ size ht = LYDICT_MIN_SIZE
    /\ first_free_rec ht <> NO.
Proof.
  unfold lydict_init. cbn [negb].
  destruct (lyht_new LYDICT_MIN_SIZE sizeof_ly_dict_rec lydict_val_eq NULL 1 true)
    as [ht|] eqn:E; [|done].
  assert (size ht = LYDICT_MIN_SIZE /\ first_free_rec ht = 0) as [Hsz Hff].
  { destruct (lyht_new_size _ _ _ _ _ _ _ E) as (-> & -> & _). done. }
  destruct (lyht_new_rep _ _ _ _ _ _ E) as (R & Hve & Hus & _).
  { rewrite Hsz. done. }
  assert (dict_recs ht = []) as Hrecs.
  { unfold dict_recs. rewrite (rep_entries _ _ _ R), concat_replicate_nil. done. }
  exists ht. split_and!; try done.
  - split; [done|]. simpl. apply dict_inv_rep. eexists _, _. split; [exact R|].
    rewrite concat_replicate_nil. simpl. split; constructor.
  - by rewrite Hff.
Qed.
End init.

Section clean.
Context (hits : nat -> ly_ht_rec -> Z).






Lemma nodup_values m (l : list ly_dict_rec) :
  NoDup (rec_str m <$> l) -> NoDup (value <$> l).
Proof.
  intros H. apply (NoDup_fmap_1 (fun p => c_str (load m p))).
  by rewrite <- list_fmap_compose.
Qed.




End clean.

Lemma dict_ok_w0 : dict_ok hash0 w0.
Proof.
  split; [reflexivity|].
  refine (bool_decide_unpack _ _). vm_compute. exact I.
Qed.

Lemma dict_ok_w1 : dict_ok hash0 w1.
Proof.
  split; [reflexivity|].
  refine (bool_decide_unpack _ _). vm_compute. exact I.
Qed.

Lemma dict_ok_w2 : dict_ok hash0 w2.
Proof.
  split; [reflexivity|].
  refine (bool_decide_unpack _ _). vm_compute. exact I.
Qed.

Section seq_lemmas.
Context (hashf : list byte -> Z).

Lemma insert_seq_cons w vp len c cs :
  lydict_insert_seq hashf w vp len (c :: cs)
  = (((lydict_insert hashf w true vp len (Some NULL) c.1 c.2).1.1,
      (lydict_insert hashf w true vp len (Some NULL) c.1 c.2).1.2)
     :: (lydict_insert_seq hashf
           (lydict_insert hashf w true vp len (Some NULL) c.1 c.2).2 vp len cs).1,
     (lydict_insert_seq hashf
        (lydict_insert hashf w true vp len (Some NULL) c.1 c.2).2 vp len cs).2).
Proof.
  cbn [lydict_insert_seq].
  destruct (lydict_insert hashf w true vp len (Some NULL) c.1 c.2) as [[ret out] w1].
  cbn [fst snd]. by destruct (lydict_insert_seq hashf w1 vp len cs).
Qed.

(** Without memory for the copy the call fails, whatever the state. *)
Lemma lydict_insert_null_copy w vp len c a :
  vp <> NULL ->
  lydict_insert hashf w true vp len (Some c) NULL a
  = (LY_EMEM, Some c, log LOGMEM w).
Proof.
  intros Hvp. unfold lydict_insert. cbn [negb].
  rewrite (decide_False (P := Some c = None)) by done.
  rewrite (decide_False (P := vp = NULL)) by done.
  by rewrite (decide_True (P := NULL = NULL)).
Qed.

(** Calls that succeed got memory for their copies. *)
Lemma insert_seq_success_copy vp len calls : forall w,
  vp <> NULL ->
  Forall (fun ro => ro.1 = LY_SUCCESS) (lydict_insert_seq hashf w vp len calls).1 ->
  Forall (fun c => c.1 <> NULL) calls.
Proof.
  induction calls as [|[vc a] cs IH]; intros w Hvp Hs; [constructor|].
  rewrite insert_seq_cons in Hs. cbn [fst snd] in Hs.
  apply Forall_cons in Hs as [H1 H2]. constructor.
  - cbn [fst]. intros ->. rewrite lydict_insert_null_copy in H1 by done. done.
  - by eapply IH.
Qed.

(** [lydict_insert] of a new string when the table has no slot for it. *)
Lemma lydict_insert_nomem w vp len c vc a bs :
  dict_ok hashf w -> vp <> NULL -> heap w !! vp = Some bs ->
  vc <> NULL -> heap w !! vc = None ->
  x00 ∉ take (Z.to_nat (eff_len bs len)) bs ->
  length (take (Z.to_nat (eff_len bs len)) bs) = Z.to_nat (eff_len bs len) ->
  take (Z.to_nat (eff_len bs len)) bs ∉ rec_str (heap w) <$> dict_recs (hash_tab w) ->
  lyht_alloc_rec (hash_tab w) (grow_ok a) = None ->
  lydict_insert hashf w true vp len (Some c) vc a
  = (LY_EMEM, Some c,
     {| heap := heap w; hash_tab := hash_tab w;
        trace := trace w ++ [pthread_mutex_lock;
                             LOGDBG (take (Z.to_nat (eff_len bs len)) bs);
                             pthread_mutex_unlock] |}).
Proof.
  intros Hok Hvp Hbs Hvc Hfresh Hnul Hlen Habs Halloc.
  rewrite lydict_insert_unfold by done. unfold load. rewrite Hbs. simpl.
  set (S := take (Z.to_nat (eff_len bs len)) bs) in *.
  destruct (insert_heap_ok hashf w vc (S ++ [x00]) Hok Hfresh) as [Hok1 Hstr1].
  destruct (copy_facts S _ Hnul Hlen) as [Hc1 Hc2].
  set (w1 := {| heap := <[vc:=S ++ [x00]]> (heap w); hash_tab := hash_tab w;
                trace := trace w ++ [pthread_mutex_lock] |}) in *.
  assert (heap w1 !! vc = Some (S ++ [x00])) as Hlk by apply lookup_insert_eq.
  assert (c_str (S ++ [x00]) ∉ rec_str (heap w1) <$> dict_recs (hash_tab w1)) as Habs1.
  { simpl. rewrite Hstr1, Hc2. done. }
  rewrite (dict_insert_nomem hashf w1 vc (eff_len bs len) (Some c) a (S ++ [x00])
             Hok1 Hvc Hlk Habs1 Halloc).
  unfold log. simpl.
  assert (free vc (<[vc:=S ++ [x00]]> (heap w)) = heap w) as ->.
  { unfold free. rewrite delete_insert_eq. by apply delete_id. }
  rewrite Hc2, <- Hlen, firstn_all. by rewrite <- !(assoc_L (++)).
Qed.

Lemma alloc_Some ht g x :
  lyht_alloc_rec ht g = Some x ->
  first_free_rec ht <> NO \/ (g = true /\ Z.of_nat (length (recs ht)) < NO).
Proof.
  unfold lyht_alloc_rec. case_decide; [|by left].
  destruct g; [|done]. simpl. case_bool_decide; [|done]. by right.
Qed.

Lemma u32_id z : 0 <= z <= UINT32_MAX -> u32 z = z.
Proof. unfold u32, UINT32_MAX. intros. apply Z.mod_small. lia. Qed.

Lemma u32_add_l a b : u32 (u32 a + b) = u32 (a + b).
Proof. unfold u32. by rewrite Zplus_mod_idemp_l. Qed.

(** The stored string of a record is found in one record only. *)
Lemma dict_inv_unique m ht q1 q2 :
  dict_inv hashf m ht -> q1 ∈ dict_recs ht -> q2 ∈ dict_recs ht ->
  rec_str m q1 = rec_str m q2 -> q1 = q2.
Proof.
  intros (_ & _ & Hnd) [i Hi]%list_elem_of_lookup [j Hj]%list_elem_of_lookup E.
  assert (i = j) as ->; [|congruence].
  eapply NoDup_lookup; [exact Hnd| |].
  - rewrite list_lookup_fmap, Hi. done.
  - rewrite list_lookup_fmap, Hj. simpl. by rewrite E.
Qed.

(** Calls for a string that is stored already. *)
Lemma insert_seq_dup vp len bs calls : forall w r,
  dict_ok hashf w -> vp <> NULL -> heap w !! vp = Some bs ->
  x00 ∉ take (Z.to_nat (eff_len bs len)) bs ->
  length (take (Z.to_nat (eff_len bs len)) bs) = Z.to_nat (eff_len bs len) ->
  r ∈ dict_recs (hash_tab w) ->
  rec_str (heap w) r = take (Z.to_nat (eff_len bs len)) bs ->
  0 <= refcount r <= UINT32_MAX ->
  Forall (fun c => c.1 <> NULL /\ heap w !! c.1 = None) calls ->
  exists w',
    lydict_insert_seq hashf w vp len calls
    = (replicate (length calls) (LY_SUCCESS, Some (value r)), w')
    /\ dict_ok hashf w' /\ heap w' = heap w
    /\ {| value := value r;
          refcount := u32 (refcount r + Z.of_nat (length calls)) |}
       ∈ dict_recs (hash_tab w').
Proof.
  induction calls as [|[vc a] cs IH]; intros w r Hok Hvp Hbs Hnul Hlen Hr Hrs Hrc Hcs.
  - exists w. split_and!; try done. simpl. rewrite Z.add_0_r, u32_id by done.
    by destruct r.
  - apply Forall_cons in Hcs as [[Hvc Hfresh] Hcs]. simpl in Hvc, Hfresh.
    destruct (lydict_insert_dup hashf w vp len NULL vc a bs r
                Hok Hvp Hbs Hvc Hfresh Hnul Hlen Hr Hrs)
      as (ht' & A & B & Heq & Hve & Hinv & HA & HB & Hus).
    rewrite insert_seq_cons. cbn [fst snd]. rewrite Heq. cbn [fst snd].
    set (w1 := {| heap := heap w; hash_tab := ht'; trace := _ |}).
    set (r1 := {| value := value r; refcount := u32 (refcount r + 1) |}).
    destruct (IH w1 r1) as (w' & Heq' & Hok' & Hheap' & Hin'); try done.
    + unfold w1. simpl. rewrite HB. apply elem_of_app. right. left.
    + unfold r1. simpl. unfold u32, UINT32_MAX.
      pose proof (Z.mod_pos_bound (refcount r + 1) 4294967296). lia.
    + rewrite Heq'. exists w'. split_and!; try done.
      unfold r1 in Hin'. simpl in Hin'. rewrite u32_add_l in Hin'.
      replace (refcount r + Z.of_nat (length ((vc, a) :: cs)))
        with (refcount r + 1 + Z.of_nat (length cs)); [done|].
      simpl length. lia.
Qed.

(** Calls for a string that is not stored when the first one comes. *)
Lemma insert_seq_spec w vp len bs vc a calls :
  dict_ok hashf w -> vp <> NULL -> heap w !! vp = Some bs ->
  x00 ∉ take (Z.to_nat (eff_len bs len)) bs ->
  length (take (Z.to_nat (eff_len bs len)) bs) = Z.to_nat (eff_len bs len) ->
  take (Z.to_nat (eff_len bs len)) bs ∉ rec_str (heap w) <$> dict_recs (hash_tab w) ->
  vc <> NULL -> heap w !! vc = None ->
  first_free_rec (hash_tab w) <> NO
  \/ (grow_ok a = true /\ Z.of_nat (length (recs (hash_tab w))) < NO) ->
  Forall (fun c => c.1 <> NULL /\ c.1 <> vc /\ heap w !! c.1 = None) calls ->
  exists w',
    lydict_insert_seq hashf w vp len ((vc, a) :: calls)
    = (replicate (S (length calls)) (LY_SUCCESS, Some vc), w')
    /\ dict_ok hashf w'
    /\ heap w' = <[vc := take (Z.to_nat (eff_len bs len)) bs ++ [x00]]> (heap w)
    /\ {| value := vc; refcount := u32 (Z.of_nat (S (length calls))) |}
       ∈ dict_recs (hash_tab w').
Proof.
  intros Hok Hvp Hbs Hnul Hlen Habs Hvc Hfresh Halloc Hcs.
  destruct (lydict_insert_new hashf w vp len NULL vc a bs
              Hok Hvp Hbs Hvc Hfresh Hnul Hlen Habs Halloc)
    as (ht' & Heq & Hve & Hinv & Hrecs).
  rewrite insert_seq_cons. cbn [fst snd]. rewrite Heq. cbn [fst snd].
  set (S0 := take (Z.to_nat (eff_len bs len)) bs) in *.
  set (w1 := {| heap := <[vc := S0 ++ [x00]]> (heap w); hash_tab := ht'; trace := _ |}).
  destruct (copy_facts S0 _ Hnul Hlen) as [Hc1 Hc2].
  set (r1 := {| value := vc; refcount := 1 |}).
  assert (H1 : dict_ok hashf w1) by (split; done).
  assert (H2 : heap w1 !! vp = Some bs).
  { simpl. rewrite lookup_insert_ne; [done|]. intros ->. congruence. }
  assert (H3 : r1 ∈ dict_recs (hash_tab w1)).
  { simpl. rewrite Hrecs. left. }
  assert (H4 : rec_str (heap w1) r1 = S0).
  { unfold rec_str, load. simpl. by rewrite lookup_insert_eq. }
  assert (H5 : 0 <= refcount r1 <= UINT32_MAX).
  { simpl. unfold UINT32_MAX. lia. }
  assert (H6 : Forall (fun c => c.1 <> NULL /\ heap w1 !! c.1 = None) calls).
  { eapply Forall_impl; [exact Hcs|]. intros c (? & ? & ?). split; [done|].
    simpl. by rewrite lookup_insert_ne. }
  destruct (insert_seq_dup vp len bs calls w1 r1 H1 Hvp H2 Hnul Hlen H3 H4 H5 H6)
    as (w' & Heq' & Hok' & Hheap' & Hin').
  rewrite Heq'. exists w'. split_and!; try done. simpl in Hin'.
    replace (Z.of_nat (S (length calls))) with (1 + Z.of_nat (length calls)) by lia.
    done.
Qed.
End seq_lemmas.

(** * The dictionary API *)

Section claims.
Context (hashf : list byte -> Z) (hits : nat -> ly_ht_rec -> Z).

(** C1, amended to at most [UINT32_MAX] calls: when the string [S] (the
    first effective-length bytes of the caller's buffer) is not stored and
    N calls of [lydict_insert] for it all succeed, each with a block from
    [malloc] that is not in use, then every call returns the same pointer,
    the block of the first call; afterwards this block is the only copy
    left on the heap, the table holds one record for [S], and its refcount
    is N. *)
Theorem lydict_insert_dedup w vp len bs vc a calls :
  dict_ok hashf w -> vp <> NULL -> heap w !! vp = Some bs ->
  x00 ∉ take (Z.to_nat (eff_len bs len)) bs ->
  length (take (Z.to_nat (eff_len bs len)) bs) = Z.to_nat (eff_len bs len) ->
  take (Z.to_nat (eff_len bs len)) bs
    ∉ rec_str (heap w) <$> dict_recs (hash_tab w) ->
  heap w !! vc = None ->
  Forall (fun c => c.1 <> vc /\ heap w !! c.1 = None) calls ->
  Forall (fun ro => ro.1 = LY_SUCCESS)
    (lydict_insert_seq hashf w vp len ((vc, a) :: calls)).1 ->
  Z.of_nat (S (length calls)) <= UINT32_MAX ->
  exists w',
    lydict_insert_seq hashf w vp len ((vc, a) :: calls)
    = (replicate (S (length calls)) (LY_SUCCESS, Some vc), w')
    /\ dict_ok hashf w'
    /\ heap w' = <[vc := take (Z.to_nat (eff_len bs len)) bs ++ [x00]]> (heap w)
    /\ {| value := vc; refcount := Z.of_nat (S (length calls)) |}
       ∈ dict_recs (hash_tab w')
    /\ forall q, q ∈ dict_recs (hash_tab w') ->
         rec_str (heap w') q = take (Z.to_nat (eff_len bs len)) bs ->
         q = {| value := vc; refcount := Z.of_nat (S (length calls)) |}.
Proof.
  intros Hok Hvp Hbs Hnul Hlen Habs Hfresh Hcs Hsucc Hn.
  pose proof (insert_seq_success_copy hashf vp len _ w Hvp Hsucc) as Hnn.
  apply Forall_cons in Hnn as [Hvc Hnn]. simpl in Hvc.
  assert (first_free_rec (hash_tab w) <> LYHT_NO_RECORD
          \/ (grow_ok a = true
              /\ Z.of_nat (length (recs (hash_tab w))) < LYHT_NO_RECORD)) as Halloc.
  { destruct (lyht_alloc_rec (hash_tab w) (grow_ok a)) as [x|] eqn:Ea;
      [by eapply alloc_Some|].
    rewrite insert_seq_cons in Hsucc. cbn [fst snd] in Hsucc.
    apply Forall_cons in Hsucc as [H1 _]. cbn [fst] in H1.
    rewrite (lydict_insert_nomem hashf w vp len NULL vc a bs) in H1 by done.
    done. }
  assert (Forall (fun c => c.1 <> NULL /\ c.1 <> vc /\ heap w !! c.1 = None) calls)
    as Hcs'.
  { rewrite Forall_forall in Hcs, Hnn. apply Forall_forall. intros c Hc.
    destruct (Hcs c Hc). split_and!; try done. by apply Hnn. }
  destruct (insert_seq_spec hashf w vp len bs vc a calls
              Hok Hvp Hbs Hnul Hlen Habs Hvc Hfresh Halloc Hcs')
    as (w' & Heq & Hok' & Hheap & Hin).
  rewrite u32_id in Hin by lia.
  exists w'. split_and!; try done.
  intros q Hq Hs. eapply (dict_inv_unique hashf); [apply Hok'|done|done|].
  rewrite Hs. unfold rec_str, load. simpl. rewrite Hheap, lookup_insert_eq. simpl.
  by rewrite c_str_app_nul.
Qed.

(** C2: [lydict_remove] of a string that a record [r] of the table holds
    succeeds and decrements the refcount of [r] by one (as a 32-bit
    counter).  When the counter reaches zero the record leaves the table
    and its block is freed; otherwise the record stays, with the same
    pointer, and the heap is as before.  No other record changes. *)
Theorem lydict_remove_found_spec w vp a r :
  dict_ok hashf w -> vp <> NULL ->
  r ∈ dict_recs (hash_tab w) ->
  rec_str (heap w) r = c_str (load (heap w) vp) ->
  exists w' A B,
    lydict_remove hashf w true vp a = (LY_SUCCESS, w')
    /\ dict_ok hashf w'
    /\ dict_recs (hash_tab w) = A ++ r :: B
    /\ (1 <= refcount r <= UINT32_MAX -> u32 (refcount r - 1) = refcount r - 1)
    /\ if decide (u32 (refcount r - 1) = 0)
       then dict_recs (hash_tab w') ≡ₚ A ++ B
            /\ heap w' = free (value r) (heap w)
            /\ heap w' !! value r = None
       else dict_recs (hash_tab w')
            = A ++ {| value := value r; refcount := u32 (refcount r - 1) |} :: B
            /\ heap w' = heap w
            /\ used (hash_tab w') = used (hash_tab w).
Proof.
  intros Hok Hvp Hr Hrs.
  destruct (lydict_remove_found hashf w vp a r Hok Hvp Hr Hrs)
    as (ht' & A & B & Heq & Hve & Hinv & HA & HB).
  eexists _, A, B. split; [exact Heq|]. cbn [heap hash_tab].
  split_and!; try done.
  - intros ?. apply u32_id. lia.
  - case_decide.
    + split_and!; try done. unfold free. apply lookup_delete_eq.
    + by destruct HB.
Qed.


(** C4: [lydict_resize_val_eq] and [lydict_val_eq] return the same result
    and log the same events on all arguments; on two records with non-null
    strings, in both modes, that result is 1 exactly when the two strings
    are equal byte for byte up to their terminators. *)
Theorem lydict_resize_val_eq_same m a b md d :
  lydict_resize_val_eq m a b md d = lydict_val_eq m a b md d
  /\ forall r1 r2, a = Some r1 -> b = Some r2 ->
       value r1 <> NULL -> value r2 <> NULL ->
       ((lydict_resize_val_eq m a b md d).1 = 1
        <-> c_str (load m (value r1)) = c_str (load m (value r2)))
       /\ ((lydict_val_eq m a b md d).1 = 1
           <-> c_str (load m (value r1)) = c_str (load m (value r2))).
Proof.
  split; [apply lydict_resize_val_eq_eq|].
  intros r1 r2 -> -> H1 H2. rewrite lydict_resize_val_eq_eq.
  rewrite lydict_val_eq_spec by done. unfold rec_str.
  split; (case_decide; simpl; split; [done|done|done|intros ?; done]).
Qed.

(** C5: [lydict_remove] of a string that no record of the table holds
    returns [LY_ENOTFOUND], logs the error between taking and releasing
    the lock, and leaves the heap and the table as they are. *)
Theorem lydict_remove_not_found w vp a :
  dict_ok hashf w -> vp <> NULL ->
  c_str (load (heap w) vp) ∉ rec_str (heap w) <$> dict_recs (hash_tab w) ->
  exists w',
    lydict_remove hashf w true vp a = (LY_ENOTFOUND, w')
    /\ LY_ENOTFOUND <> LY_SUCCESS
    /\ hash_tab w' = hash_tab w /\ heap w' = heap w
    /\ trace w'
       = trace w ++ [LOGDBG (c_str (load (heap w) vp)); pthread_mutex_lock;
                     LOGERR LY_ENOTFOUND (c_str (load (heap w) vp));
                     pthread_mutex_unlock].
Proof.
  intros Hok Hvp Habs. rewrite (lydict_remove_absent hashf w vp a Hok Hvp Habs).
  eexists. split; [done|]. done.
Qed.

(** C6: a call of [lydict_insert] with a non-null string, a block from
    [malloc] and room in the table succeeds; a zero length stands for the
    length up to the terminator; the string of the returned pointer is
    the first effective-length bytes of the input, and a record of the
    table holds that pointer.  When the string was not stored before, the
    returned pointer is the new block, which holds exactly these bytes and
    a terminator; the caller's buffer is never touched. *)
Theorem lydict_insert_copy w vp len c vc a bs :
  dict_ok hashf w -> vp <> NULL -> heap w !! vp = Some bs ->
  vc <> NULL -> heap w !! vc = None ->
  x00 ∉ take (Z.to_nat (eff_len bs len)) bs ->
  length (take (Z.to_nat (eff_len bs len)) bs) = Z.to_nat (eff_len bs len) ->
  first_free_rec (hash_tab w) <> LYHT_NO_RECORD
  \/ (grow_ok a = true
      /\ Z.of_nat (length (recs (hash_tab w))) < LYHT_NO_RECORD) ->
  (len = 0 -> eff_len bs len = strlen bs)
  /\ (len <> 0 -> eff_len bs len = len)
  /\ exists p w',
       lydict_insert hashf w true vp len (Some c) vc a
       = (LY_SUCCESS, Some p, w')
       /\ dict_ok hashf w'
       /\ c_str (load (heap w') p) = take (Z.to_nat (eff_len bs len)) bs
       /\ (exists q, q ∈ dict_recs (hash_tab w') /\ value q = p)
       /\ heap w' !! vp = Some bs
       /\ (take (Z.to_nat (eff_len bs len)) bs
             ∉ rec_str (heap w) <$> dict_recs (hash_tab w) ->
           p = vc
           /\ heap w'
              = <[vc := take (Z.to_nat (eff_len bs len)) bs ++ [x00]]> (heap w)).
Proof.
  intros Hok Hvp Hbs Hvc Hfresh Hnul Hlen Halloc.
  split; [intros ->; unfold eff_len; by rewrite decide_True|].
  split; [intros ?; unfold eff_len; by rewrite decide_False|].
  set (S0 := take (Z.to_nat (eff_len bs len)) bs) in *.
  destruct (decide (S0 ∈ rec_str (heap w) <$> dict_recs (hash_tab w)))
    as [Hin|Habs].
  - apply list_elem_of_fmap in Hin as (r & Hrs & Hr).
    destruct (lydict_insert_dup hashf w vp len c vc a bs r
                Hok Hvp Hbs Hvc Hfresh Hnul Hlen Hr (eq_sym Hrs))
      as (ht' & A & B & Heq & Hve & Hinv & HA & HB & Hus).
    eexists _, _. split; [exact Heq|]. cbn [heap hash_tab].
    split_and!; try done.
    + eexists. split; [rewrite HB; apply elem_of_app; right; left|done].
    + intros Hn. exfalso. apply Hn. apply list_elem_of_fmap. by exists r.
  - destruct (lydict_insert_new hashf w vp len c vc a bs
                Hok Hvp Hbs Hvc Hfresh Hnul Hlen Habs Halloc)
      as (ht' & Heq & Hve & Hinv & Hrecs).
    eexists _, _. split; [exact Heq|]. cbn [heap hash_tab].
    split_and!; try done.
    + unfold load. rewrite lookup_insert_eq. simpl. by apply c_str_app_nul.
    + eexists. split; [rewrite Hrecs; left|done].
    + rewrite lookup_insert_ne; [done|]. intros ->. congruence.
Qed.

(** C7, amended to a refcount below [UINT32_MAX]: [lydict_insert_zc] on a
    buffer that no record of the table owns.  When a record holds the
    same string already, the call succeeds, the caller's buffer is freed,
    the pointer of that record, which differs from the caller's buffer,
    is returned, and the refcount of that record is incremented as a
    32-bit counter: it goes up by exactly one from any value below
    [UINT32_MAX], and from [UINT32_MAX] it wraps around to 0.  When no record holds the string and
    the table has room, the call succeeds, the heap is untouched, and a
    new record with refcount 1 holds the caller's buffer itself, which is
    returned. *)
Theorem lydict_insert_zc_spec w vp c a bs :
  dict_ok hashf w -> vp <> NULL -> heap w !! vp = Some bs ->
  Forall (fun q => value q <> vp) (dict_recs (hash_tab w)) ->
  (forall r, r ∈ dict_recs (hash_tab w) -> rec_str (heap w) r = c_str bs ->
     exists w' A B,
       lydict_insert_zc hashf w true vp (Some c) a
       = (LY_SUCCESS, Some (value r), w')
       /\ value r <> vp
       /\ dict_ok hashf w'
       /\ heap w' = free vp (heap w) /\ heap w' !! vp = None
       /\ dict_recs (hash_tab w) = A ++ r :: B
       /\ dict_recs (hash_tab w')
          = A ++ {| value := value r; refcount := u32 (refcount r + 1) |} :: B
       /\ (0 <= refcount r < UINT32_MAX ->
           u32 (refcount r + 1) = refcount r + 1)
       /\ (refcount r = UINT32_MAX -> u32 (refcount r + 1) = 0))
  /\ (c_str bs ∉ rec_str (heap w) <$> dict_recs (hash_tab w) ->
      first_free_rec (hash_tab w) <> LYHT_NO_RECORD
      \/ (grow_ok a = true
          /\ Z.of_nat (length (recs (hash_tab w))) < LYHT_NO_RECORD) ->
      exists w',
        lydict_insert_zc hashf w true vp (Some c) a = (LY_SUCCESS, Some vp, w')
        /\ dict_ok hashf w'
        /\ heap w' = heap w
        /\ dict_recs (hash_tab w')
           ≡ₚ {| value := vp; refcount := 1 |} :: dict_recs (hash_tab w)).
Proof.
  intros Hok Hvp Hbs Hno. split.
  - intros r Hr Hrs.
    destruct (lydict_insert_zc_dup hashf w vp c a bs r Hok Hvp Hbs Hr Hrs Hno)
      as (ht' & A & B & Heq & Hve & Hinv & HA & HB & Hus).
    eexists _, A, B. split; [exact Heq|]. cbn [heap hash_tab].
    split_and!; try done.
    + rewrite Forall_forall in Hno. by apply Hno.
    + unfold free. apply lookup_delete_eq.
    + intros ?. apply u32_id. lia.
    + intros ->. reflexivity.
  - intros Habs Halloc.
    destruct (lydict_insert_zc_new hashf w vp c a bs Hok Hvp Hbs Habs Halloc)
      as (ht' & Heq & Hve & Hinv & Hrecs).
    eexists. split; [exact Heq|]. cbn [heap hash_tab]. done.
Qed.

(** C8: when [malloc] returns no block for the copy, [lydict_insert]
    returns [LY_EMEM]; the table, the heap and the output cell are as
    before, and the only event is the memory error: the lock is not
    taken. *)
Theorem lydict_insert_malloc_fails w vp len c a :
  vp <> NULL ->
  exists w',
    lydict_insert hashf w true vp len (Some c) NULL a = (LY_EMEM, Some c, w')
    /\ hash_tab w' = hash_tab w /\ heap w' = heap w
    /\ trace w' = trace w ++ [LOGMEM]
    /\ pthread_mutex_lock ∉ [LOGMEM].
Proof.
  intros Hvp. rewrite lydict_insert_null_copy by done.
  eexists. split; [done|]. split_and!; try done.
  by intros [?|?%elem_of_nil]%elem_of_cons.
Qed.

(** C9: [lydict_insert] with a null string returns [LY_SUCCESS], writes
    null to the output cell and leaves the state (table, heap and events,
    so no lock either) as it is; [lydict_remove] with a null session or a
    null string returns [LY_SUCCESS] and leaves the state as it is. *)
Theorem lydict_null_inputs w len c vc a vp ctx :
  lydict_insert hashf w true NULL len (Some c) vc a
  = (LY_SUCCESS, Some NULL, w)
  /\ lydict_remove hashf w false vp a = (LY_SUCCESS, w)
  /\ lydict_remove hashf w ctx NULL a = (LY_SUCCESS, w).
Proof.
  split_and!.
  - done.
  - done.
  - unfold lydict_remove. by rewrite orb_true_r.
Qed.

(** C10: [lydict_insert] and [lydict_insert_zc] with a null [str_p] return
    [LY_EINVAL]; the table and the heap are as before and the only event
    is the argument error: the lock is not taken. *)
Theorem lydict_insert_null_str_p w ctx vp len vc a :
  lydict_insert hashf w ctx vp len None vc a
  = (LY_EINVAL, None,
     {| heap := heap w; hash_tab := hash_tab w;
        trace := trace w ++ [LOGARG] |})
  /\ lydict_insert_zc hashf w ctx vp None a
     = (LY_EINVAL, None,
        {| heap := heap w; hash_tab := hash_tab w;
           trace := trace w ++ [LOGARG] |}).
Proof.
  unfold lydict_insert, lydict_insert_zc. by destruct ctx.
Qed.
End claims.

(** * The theorems on the small dictionary *)

Ltac by_compute := refine (bool_decide_unpack _ _); vm_compute; exact I.

Lemma lydict_insert_dedup_witness :
  exists w',
    lydict_insert_seq hash0 w0 1 0 [(2, a0); (3, a0); (3, a0)]
    = (replicate 3 (LY_SUCCESS, Some 2), w')
    /\ {| value := 2; refcount := 3 |} ∈ dict_recs (hash_tab w').
Proof.
  destruct (lydict_insert_dedup hash0 w0 1 0 [x61; x62; x00] 2 a0
              [(3, a0); (3, a0)]) as (w' & H1 & H2 & H3 & H4 & H5).
  - exact dict_ok_w0.
  - by_compute.
  - reflexivity.
  - by_compute.
  - reflexivity.
  - by_compute.
  - reflexivity.
  - by_compute.
  - by_compute.
  - by_compute.
  - exists w'. split; [exact H1|exact H4].
Defined.

(** A run of calls whose number is a multiple of 2^32 leaves the refcount
    of the record at 0. *)
Lemma insert_seq_wraps n :
  Z.of_nat (S n) = 4294967296 ->
  exists w',
    lydict_insert_seq hash0 w0 1 0 ((2, a0) :: replicate n (3, a0))
    = (replicate (S n) (LY_SUCCESS, Some 2), w')
    /\ dict_ok hash0 w'
    /\ {| value := 2; refcount := 0 |} ∈ dict_recs (hash_tab w')
    /\ rec_str (heap w') {| value := 2; refcount := 0 |} = [x61; x62].
Proof.
  intros E.
  assert (H1 : (1:Z) <> NULL) by done.
  assert (H2 : heap w0 !! 1 = Some [x61; x62; x00]) by reflexivity.
  assert (H3 : x00 ∉ take (Z.to_nat (eff_len [x61; x62; x00] 0)) [x61; x62; x00])
    by by_compute.
  assert (H4 : length (take (Z.to_nat (eff_len [x61; x62; x00] 0)) [x61; x62; x00])
               = Z.to_nat (eff_len [x61; x62; x00] 0)) by reflexivity.
  assert (H5 : take (Z.to_nat (eff_len [x61; x62; x00] 0)) [x61; x62; x00]
               ∉ rec_str (heap w0) <$> dict_recs (hash_tab w0)) by by_compute.
  assert (H6 : (2:Z) <> NULL) by done.
  assert (H7 : heap w0 !! 2 = None) by reflexivity.
  assert (H8 : first_free_rec (hash_tab w0) <> LYHT_NO_RECORD
               \/ (grow_ok a0 = true
                   /\ Z.of_nat (length (recs (hash_tab w0))) < LYHT_NO_RECORD))
    by (left; done).
  assert (H9 : Forall (fun c : Z * ht_alloc =>
                         c.1 <> NULL /\ c.1 <> 2 /\ heap w0 !! c.1 = None)
                 (replicate n (3, a0))).
  { apply Forall_replicate. split_and!; [done|done|reflexivity]. }
  destruct (insert_seq_spec hash0 w0 1 0 [x61; x62; x00] 2 a0
              (replicate n (3, a0))
              dict_ok_w0 H1 H2 H3 H4 H5 H6 H7 H8 H9)
    as (w' & Heq & Hok & Hheap & Hin).
  rewrite length_replicate in Heq, Hin.
  rewrite E in Hin. change (u32 4294967296) with 0 in Hin.
  exists w'. split_and!; try done.
  unfold rec_str, load. rewrite Hheap. cbn [value].
  rewrite lookup_insert_eq. reflexivity.
Qed.

(** 2^32 calls: all succeed and return the block of the first one, and the
    refcount of the record is 0. *)
Lemma lydict_insert_refcount_wraps :
  Z.of_nat (S (Z.to_nat 4294967295)) = 4294967296
  /\ exists w',
    lydict_insert_seq hash0 w0 1 0
      ((2, a0) :: replicate (Z.to_nat 4294967295) (3, a0))
    = (replicate (S (Z.to_nat 4294967295)) (LY_SUCCESS, Some 2), w')
    /\ dict_ok hash0 w'
    /\ {| value := 2; refcount := 0 |} ∈ dict_recs (hash_tab w')
    /\ rec_str (heap w') {| value := 2; refcount := 0 |} = [x61; x62].
Proof.
  assert (E : Z.of_nat (S (Z.to_nat 4294967295)) = 4294967296).
  { rewrite Nat2Z.inj_succ. rewrite Z2Nat.id; [reflexivity|discriminate]. }
  split; [exact E|]. exact (insert_seq_wraps _ E).
Qed.

Lemma lydict_remove_found_spec_witness :
  exists w',
    lydict_remove hash0 w1 true 2 a0 = (LY_SUCCESS, w')
    /\ heap w' !! 2 = None
    /\ dict_recs (hash_tab w') = [].
Proof.
  destruct (lydict_remove_found_spec hash0 w1 2 a0 {| value := 2; refcount := 1 |})
    as (w' & A & B & H1 & H2 & H3 & H4 & H5).
  - exact dict_ok_w1.
  - by_compute.
  - by_compute.
  - reflexivity.
  - rewrite decide_True in H5 by reflexivity. destruct H5 as (H5 & H6 & H7).
    exists w'. split_and!; [exact H1|exact H7|].
    assert (A ++ B = []) as E.
    { assert (length (dict_recs (hash_tab w1)) = 1%nat) as Hl by reflexivity.
      rewrite H3, length_app in Hl. simpl in Hl.
      destruct A; [|simpl in Hl; lia]. destruct B; [done|simpl in Hl; lia]. }
    rewrite E in H5. by apply Permutation_nil_r in H5.
Defined.



Lemma lydict_resize_val_eq_same_witness :
  (lydict_resize_val_eq (heap w1) (Some {| value := 1; refcount := 0 |})
     (Some {| value := 2; refcount := 1 |}) 1 0).1 = 1
  <-> c_str (load (heap w1) 1) = c_str (load (heap w1) 2).
Proof.
  destruct (lydict_resize_val_eq_same (heap w1)
              (Some {| value := 1; refcount := 0 |})
              (Some {| value := 2; refcount := 1 |}) 1 0) as [_ H].
  apply (H {| value := 1; refcount := 0 |} {| value := 2; refcount := 1 |});
    [reflexivity|reflexivity|by_compute|by_compute].
Defined.

Lemma lydict_remove_not_found_witness :
  exists w',
    lydict_remove hash0 w0 true 1 a0 = (LY_ENOTFOUND, w')
    /\ hash_tab w' = hash_tab w0 /\ heap w' = heap w0.
Proof.
  destruct (lydict_remove_not_found hash0 w0 1 a0) as (w' & H1 & H2 & H3 & H4 & H5).
  - exact dict_ok_w0.
  - by_compute.
  - by_compute.
  - exists w'. split_and!; [exact H1|exact H3|exact H4].
Defined.

Lemma lydict_insert_copy_witness :
  exists p w',
    lydict_insert hash0 w0 true 1 1 (Some NULL) 2 a0 = (LY_SUCCESS, Some p, w')
    /\ c_str (load (heap w') p) = [x61].
Proof.
  destruct (lydict_insert_copy hash0 w0 1 1 NULL 2 a0 [x61; x62; x00])
    as (_ & _ & p & w' & H1 & H2 & H3 & _).
  - exact dict_ok_w0.
  - by_compute.
  - reflexivity.
  - by_compute.
  - reflexivity.
  - by_compute.
  - reflexivity.
  - left. by_compute.
  - exists p, w'. split; [exact H1|exact H3].
Defined.

Lemma lydict_insert_zc_spec_witness :
  exists w',
    lydict_insert_zc hash0 w1 true 1 (Some NULL) a0 = (LY_SUCCESS, Some 2, w')
    /\ heap w' !! 1 = None.
Proof.
  destruct (lydict_insert_zc_spec hash0 w1 1 NULL a0 [x61; x62; x00]) as [H _].
  - exact dict_ok_w1.
  - by_compute.
  - reflexivity.
  - by_compute.
  - destruct (H {| value := 2; refcount := 1 |})
      as (w' & A & B & H1 & H2 & H3 & H4 & H5 & H6).
    + by_compute.
    + reflexivity.
    + exists w'. split; [exact H1|exact H5].
Defined.

(** At a refcount of [UINT32_MAX] a zero-copy insert of the stored string
    succeeds, returns the stored pointer and leaves the refcount at 0. *)
Lemma lydict_insert_zc_refcount_wraps :
  dict_ok hash0 wmax
  /\ dict_recs (hash_tab wmax) = [{| value := 2; refcount := 4294967295 |}]
  /\ heap wmax !! 1 = Some [x61; x62; x00]
  /\ rec_str (heap wmax) {| value := 2; refcount := 4294967295 |} = [x61; x62]
  /\ (lydict_insert_zc hash0 wmax true 1 (Some NULL) a0).1
     = (LY_SUCCESS, Some 2)
  /\ dict_recs (hash_tab (lydict_insert_zc hash0 wmax true 1 (Some NULL) a0).2)
     = [{| value := 2; refcount := 0 |}].
Proof.
  split; [split; [reflexivity|by_compute]|].
  split_and!; reflexivity.
Qed.

Lemma lydict_insert_malloc_fails_witness :
  exists w',
    lydict_insert hash0 w0 true 1 0 (Some NULL) NULL a0 = (LY_EMEM, Some NULL, w')
    /\ hash_tab w' = hash_tab w0.
Proof.
  destruct (lydict_insert_malloc_fails hash0 w0 1 0 NULL a0)
    as (w' & H1 & H2 & _).
  - by_compute.
  - exists w'. split; [exact H1|exact H2].
Defined.

(** * Further properties of the code *)

Lemma lyht_align_rec_size_eq rec_size :
  0 <= rec_size -> rec_size + 7 <= UINT32_MAX ->
  lyht_align_rec_size rec_size = 8 * ((rec_size + 7) / 8).
Proof.
  intros H0 H1. unfold UINT32_MAX in H1. unfold lyht_align_rec_size.
  rewrite (u32_id (rec_size + 7)) by (unfold UINT32_MAX; lia).
  unfold u32. change 4294967296 with (2 ^ 32). rewrite <- Z.land_ones by lia.
  rewrite Z.land_assoc, <- Z.ldiff_land.
  change 7 with (Z.ones 3) at 2. rewrite Z.ldiff_ones_r by lia.
  rewrite Z.shiftl_mul_pow2, Z.shiftr_div_pow2 by lia.
  rewrite Z.land_ones by lia. change (2 ^ 3) with 8. change (2 ^ 32) with 4294967296.
  rewrite Z.mod_small; [lia|].
  pose proof (Z.div_pos (rec_size + 7) 8).
  pose proof (Z.mul_div_le (rec_size + 7) 8). lia.
Qed.

Lemma lyht_align_rec_size_bounds rec_size :
  0 <= rec_size -> rec_size + 7 <= UINT32_MAX ->
  lyht_align_rec_size rec_size mod 8 = 0
  /\ rec_size <= lyht_align_rec_size rec_size < rec_size + 8.
Proof.
  intros H0 H1. rewrite lyht_align_rec_size_eq by done.
  pose proof (Z.div_mod (rec_size + 7) 8).
  pose proof (Z.mod_pos_bound (rec_size + 7) 8).
  split; [|lia]. rewrite Z.mul_comm. apply Z.mod_mul. lia.
Qed.

(** [lyht_align_rec_size] (hash_table_internal.h): as long as
    [rec_size + 7] fits in 32 bits the result is the least multiple of 8
    that is not below [rec_size]. *)
Theorem lyht_align_rec_size_spec rec_size :
  0 <= rec_size -> rec_size + 7 <= UINT32_MAX ->
  lyht_align_rec_size rec_size = 8 * ((rec_size + 7) / 8)
  /\ lyht_align_rec_size rec_size mod 8 = 0
  /\ rec_size <= lyht_align_rec_size rec_size < rec_size + 8.
Proof.
  intros H0 H1. split; [by apply lyht_align_rec_size_eq|].
  by apply lyht_align_rec_size_bounds.
Qed.

Lemma lyht_align_rec_size_spec_witness :
  lyht_align_rec_size 20 = 8 * ((20 + 7) / 8)
  /\ lyht_align_rec_size 20 mod 8 = 0
  /\ 20 <= lyht_align_rec_size 20 < 20 + 8.
Proof. apply (lyht_align_rec_size_spec 20); [lia|unfold UINT32_MAX; lia]. Defined.

(** [lyht_get_rec] (hash_table_internal.h): for a [uint16_t] record size
    a record fits in its aligned slot, and the slots of two indices do not
    overlap as long as the offset of the end of the later one fits in 32
    bits. *)
Theorem lyht_rec_offset_disjoint rec_size i j :
  0 <= rec_size <= 65535 -> 0 <= i < j ->
  (j + 1) * lyht_align_rec_size rec_size <= 4294967296 ->
  rec_size <= lyht_align_rec_size rec_size
  /\ lyht_rec_offset rec_size i + lyht_align_rec_size rec_size
     <= lyht_rec_offset rec_size j.
Proof.
  intros Hr Hij Hfit.
  destruct (lyht_align_rec_size_bounds rec_size) as (_ & Ha);
    [lia|unfold UINT32_MAX; lia|].
  split; [lia|]. unfold lyht_rec_offset, u32.
  rewrite !Z.mod_small by nia. nia.
Qed.

Lemma lyht_rec_offset_disjoint_witness :
  24 <= lyht_align_rec_size 24
  /\ lyht_rec_offset 24 3 + lyht_align_rec_size 24 <= lyht_rec_offset 24 5.
Proof.
  apply (lyht_rec_offset_disjoint 24 3 5); [lia|lia|].
  vm_compute. discriminate.
Defined.

(** [LYHT_ITER_BUCKET_RECS] (hash_table_internal.h): on a chain that
    starts at [start], follows the [next] links through the records [l],
    ends with [LYHT_NO_RECORD] and visits no slot twice, the loop ends
    within as many rounds as the array has slots, having visited exactly
    the records of [l], in order. *)
Theorem LYHT_ITER_BUCKET_RECS_chain rs start l :
  is_seg rs start l -> seg_end start l = LYHT_NO_RECORD -> NoDup l.*1 ->
  LYHT_ITER_BUCKET_RECS (length rs) rs start = l
  /\ (length l <= length rs)%nat.
Proof.
  intros Hs He Hnd. split; [by apply iter_complete'|].
  by eapply seg_bound.
Qed.

Lemma LYHT_ITER_BUCKET_RECS_chain_witness :
  LYHT_ITER_BUCKET_RECS (length (recs (hash_tab w2))) (recs (hash_tab w2)) 0
  = [(0, {| hash := 2; next := LYHT_NO_RECORD;
            val := {| value := 2; refcount := 2 |} |})]
  /\ (length [(0, {| hash := 2; next := LYHT_NO_RECORD;
                     val := {| value := 2; refcount := 2 |} |})]
      <= length (recs (hash_tab w2)))%nat.
Proof.
  apply (LYHT_ITER_BUCKET_RECS_chain (recs (hash_tab w2)) 0
           [(0, {| hash := 2; next := LYHT_NO_RECORD;
                   val := {| value := 2; refcount := 2 |} |})]).
  - by_compute.
  - reflexivity.
  - by_compute.
Defined.

(** [lydict_val_eq] (dict.c): the verdict is symmetric and transitive, a
    record equals itself exactly when its string pointer is non-null, and
    a null record pointer or string pointer gives 0 with an argument
    error. *)
Theorem lydict_val_eq_equivalence m a b c md d :
  (lydict_val_eq m (Some a) (Some b) md d).1
  = (lydict_val_eq m (Some b) (Some a) md d).1
  /\ ((lydict_val_eq m (Some a) (Some b) md d).1 = 1 ->
      (lydict_val_eq m (Some b) (Some c) md d).1 = 1 ->
      (lydict_val_eq m (Some a) (Some c) md d).1 = 1)
  /\ ((lydict_val_eq m (Some a) (Some a) md d).1 = 1 <-> value a <> NULL)
  /\ (value a = NULL \/ value b = NULL ->
      lydict_val_eq m (Some a) (Some b) md d = (0, [LOGARG]))
  /\ lydict_val_eq m None (Some b) md d = (0, [LOGARG])
  /\ lydict_val_eq m (Some a) None md d = (0, [LOGARG]).
Proof.
  assert (Hnull : forall x y, value x = NULL \/ value y = NULL ->
            lydict_val_eq m (Some x) (Some y) md d = (0, [LOGARG])).
  { intros x y H. unfold lydict_val_eq.
    repeat case_decide; try done; destruct H; done. }
  split; [|split; [|split; [|split; [apply Hnull|done]]]].
  - destruct (decide (value a = NULL)); [by rewrite !Hnull by auto|].
    destruct (decide (value b = NULL)); [by rewrite !Hnull by auto|].
    rewrite !lydict_val_eq_spec by done. simpl.
    repeat case_decide; try done; congruence.
  - destruct (decide (value a = NULL)); [by rewrite !Hnull by auto|].
    destruct (decide (value b = NULL)); [by rewrite !Hnull by auto|].
    destruct (decide (value c = NULL)); [by rewrite (Hnull b c) by auto|].
    rewrite !lydict_val_eq_spec by done. simpl.
    repeat case_decide; try done; congruence.
  - destruct (decide (value a = NULL)) as [E|E].
    + rewrite Hnull by auto. simpl. split; [done|]. intros H. by destruct H.
    + rewrite lydict_val_eq_spec by done. simpl. by rewrite decide_True.
Qed.

Section extras.
Context (hashf : list byte -> Z).

(** [lydict_init] (dict.c): a null pointer gives an argument error and
    nothing else; when the table cannot be allocated an internal error is
    logged and the mutex is not initialised; otherwise the mutex is
    initialised and the table is empty, has [LYDICT_MIN_SIZE] buckets,
    compares with [lydict_val_eq] and satisfies the invariant of the
    dictionary on any heap. *)
Theorem lydict_init_spec m tr ok :
  lydict_init false ok = (None, [LOGARG])
  /\ lydict_init true false = (None, [LOGINT])
  /\ exists ht, lydict_init true true = (Some ht, [pthread_mutex_init])
       /\ dict_ok hashf {| heap := m; hash_tab := ht; trace := tr |}
       /\ dict_recs ht = [] /\ used ht = 0 /\ size ht = LYDICT_MIN_SIZE.
Proof.
  split; [done|]. split; [done|].
  destruct (lydict_init_ok hashf m tr) as (ht & H1 & H2 & H3 & H4 & H5).
  exists ht. split_and!; try done.
  destruct H2 as [_ (Hwf & _)]. destruct Hwf as (_ & _ & _ & _ & _ & _ & Hu).
  simpl in Hu. rewrite Hu. unfold dict_recs, entries in H3.
  apply fmap_nil_inv in H3. apply fmap_nil_inv in H3. by rewrite H3.
Qed.

Lemma dict_ok_used w :
  dict_ok hashf w -> used (hash_tab w) = Z.of_nat (length (dict_recs (hash_tab w))).
Proof.
  intros [_ (Hwf & _)]. destruct Hwf as (_ & _ & _ & _ & _ & _ & Hu).
  rewrite Hu. unfold dict_recs, entries. by rewrite !length_fmap.
Qed.

(** [lydict_remove] (dict.c) on any arguments: the invariant of the
    dictionary is kept, the result is [LY_SUCCESS] or [LY_ENOTFOUND], and
    no internal error is logged: on a dictionary that satisfies the
    invariant the [LOGINT] branches are not reached. *)
Theorem lydict_remove_preserves w ctx vp a :
  dict_ok hashf w ->
  dict_ok hashf (lydict_remove hashf w ctx vp a).2
  /\ ((lydict_remove hashf w ctx vp a).1 = LY_SUCCESS
      \/ (lydict_remove hashf w ctx vp a).1 = LY_ENOTFOUND)
  /\ exists evs, trace (lydict_remove hashf w ctx vp a).2 = trace w ++ evs
       /\ LOGINT ∉ evs.
Proof.
  intros Hok.
  assert (Hnil : forall e : event, e ∉ @nil event) by (intros e; apply not_elem_of_nil).
  destruct ctx.
  2: { split_and!; [done|by left|]. exists []. by rewrite app_nil_r. }
  destruct (decide (vp = NULL)) as [->|Hvp].
  { assert (lydict_remove hashf w true NULL a = (LY_SUCCESS, w)) as ->
      by (unfold lydict_remove; by rewrite orb_true_r).
    split_and!; [done|by left|]. exists []. by rewrite app_nil_r. }
  destruct (decide (c_str (load (heap w) vp)
                      ∈ rec_str (heap w) <$> dict_recs (hash_tab w))) as [Hin|Habs].
  - apply list_elem_of_fmap in Hin as (r & Hrs & Hr).
    destruct (lydict_remove_found hashf w vp a r Hok Hvp Hr (eq_sym Hrs))
      as (ht' & A & B & Heq & Hve & Hinv & _).
    rewrite Heq. cbn [fst snd trace]. split_and!; [by split|by left|].
    eexists. split; [done|].
    intros H. repeat (apply elem_of_cons in H as [H|H]; [done|]).
    by apply elem_of_nil in H.
  - rewrite (lydict_remove_absent hashf w vp a Hok Hvp Habs).
    cbn [fst snd trace]. split_and!; [by destruct Hok|by right|].
    eexists. split; [done|].
    intros H. repeat (apply elem_of_cons in H as [H|H]; [done|]).
    by apply elem_of_nil in H.
Qed.

(** [lydict_insert] (dict.c) on every path: with a block from [malloc]
    that is null or not in use, and the first effective-length bytes of the
    buffer free of terminators, the invariant of the dictionary is kept
    and the result is [LY_SUCCESS], [LY_EMEM] or [LY_EINVAL]. *)
Theorem lydict_insert_preserves w ctx vp len str_p vc a bs :
  dict_ok hashf w ->
  (vp <> NULL -> heap w !! vp = Some bs) ->
  vc = NULL \/ heap w !! vc = None ->
  x00 ∉ take (Z.to_nat (eff_len bs len)) bs ->
  length (take (Z.to_nat (eff_len bs len)) bs) = Z.to_nat (eff_len bs len) ->
  dict_ok hashf (lydict_insert hashf w ctx vp len str_p vc a).2
  /\ ((lydict_insert hashf w ctx vp len str_p vc a).1.1 = LY_SUCCESS
      \/ (lydict_insert hashf w ctx vp len str_p vc a).1.1 = LY_EMEM
      \/ (lydict_insert hashf w ctx vp len str_p vc a).1.1 = LY_EINVAL).
Proof.
  intros Hok Hbs Hvc Hnul Hlen.
  destruct ctx; [|split; [by apply dict_ok_log|by right; right]].
  destruct str_p as [c|]; [|split; [by apply dict_ok_log|by right; right]].
  destruct (decide (vp = NULL)) as [->|Hvp]; [split; [done|by left]|].
  specialize (Hbs Hvp).
  destruct (decide (vc = NULL)) as [->|Hvc'].
  { rewrite lydict_insert_null_copy by done.
    split; [by apply dict_ok_log|by right; left]. }
  destruct Hvc as [?|Hfresh]; [done|].
  destruct (decide (take (Z.to_nat (eff_len bs len)) bs
                      ∈ rec_str (heap w) <$> dict_recs (hash_tab w))) as [Hin|Habs].
  - apply list_elem_of_fmap in Hin as (r & Hrs & Hr).
    destruct (lydict_insert_dup hashf w vp len c vc a bs r
                Hok Hvp Hbs Hvc' Hfresh Hnul Hlen Hr (eq_sym Hrs))
      as (ht' & A & B & Heq & Hve & Hinv & _).
    rewrite Heq. split; [by split|by left].
  - destruct (lyht_alloc_rec (hash_tab w) (grow_ok a)) as [x|] eqn:Ea.
    + destruct (lydict_insert_new hashf w vp len c vc a bs
                  Hok Hvp Hbs Hvc' Hfresh Hnul Hlen Habs (alloc_Some _ _ _ Ea))
        as (ht' & Heq & Hve & Hinv & _).
      rewrite Heq. split; [by split|by left].
    + rewrite (lydict_insert_nomem hashf w vp len c vc a bs) by done.
      split; [by destruct Hok|by right; left].
Qed.

(** [lydict_insert] then [lydict_remove] (dict.c): inserting a string that
    is not stored and removing the returned pointer leaves the records
    of the table and the heap as they were before the two calls. *)
Theorem lydict_insert_remove_roundtrip w vp len c vc a a' bs :
  dict_ok hashf w -> vp <> NULL -> heap w !! vp = Some bs ->
  vc <> NULL -> heap w !! vc = None ->
  x00 ∉ take (Z.to_nat (eff_len bs len)) bs ->
  length (take (Z.to_nat (eff_len bs len)) bs) = Z.to_nat (eff_len bs len) ->
  take (Z.to_nat (eff_len bs len)) bs
    ∉ rec_str (heap w) <$> dict_recs (hash_tab w) ->
  first_free_rec (hash_tab w) <> LYHT_NO_RECORD
  \/ (grow_ok a = true
      /\ Z.of_nat (length (recs (hash_tab w))) < LYHT_NO_RECORD) ->
  exists w1 w2,
    lydict_insert hashf w true vp len (Some c) vc a = (LY_SUCCESS, Some vc, w1)
    /\ lydict_remove hashf w1 true vc a' = (LY_SUCCESS, w2)
    /\ dict_ok hashf w2
    /\ heap w2 = heap w
    /\ dict_recs (hash_tab w2) ≡ₚ dict_recs (hash_tab w)
    /\ used (hash_tab w2) = used (hash_tab w).
Proof.
  intros Hok Hvp Hbs Hvc Hfresh Hnul Hlen Habs Halloc.
  destruct (lydict_insert_new hashf w vp len c vc a bs
              Hok Hvp Hbs Hvc Hfresh Hnul Hlen Habs Halloc)
    as (ht1 & Heq & Hve & Hinv & Hrecs).
  match type of Heq with _ = (_, _, ?x) => set (w1 := x) in * end.
  assert (dict_ok hashf w1) as Hok1 by (by split).
  destruct (lydict_remove_found hashf w1 vc a' {| value := vc; refcount := 1 |}
              Hok1 Hvc) as (ht2 & A & B & Heq2 & Hve2 & Hinv2 & HA & HB).
  { unfold w1. cbn [hash_tab]. rewrite Hrecs. left. }
  { reflexivity. }
  destruct (decide (u32 (refcount {| value := vc; refcount := 1 |} - 1) = 0))
    as [_|Hz]; [|by exfalso; apply Hz].
  cbn [value] in *.
  assert (free vc (heap w1) = heap w) as Hfree.
  { unfold w1, free. cbn [heap]. rewrite delete_insert_eq. by apply delete_id. }
  rewrite Hfree in Heq2, Hinv2.
  assert (dict_recs ht2 ≡ₚ dict_recs (hash_tab w)) as Hperm.
  { rewrite HB. unfold w1 in HA. cbn [hash_tab] in HA. rewrite HA in Hrecs.
    rewrite <- Permutation_middle in Hrecs. by apply Permutation_cons_inv in Hrecs. }
  match type of Heq2 with _ = (_, ?x) => set (w2 := x) in * end.
  assert (dict_ok hashf w2) as Hok2 by (by split).
  exists w1, w2. split_and!; try done.
  rewrite (dict_ok_used w Hok). rewrite (dict_ok_used _ Hok2). unfold w2.
  cbn [hash_tab]. by rewrite Hperm.
Qed.

End extras.

Lemma lydict_remove_preserves_witness :
  dict_ok hash0 (lydict_remove hash0 w2 true 2 a0).2.
Proof.
  apply (lydict_remove_preserves hash0 w2 true 2 a0). exact dict_ok_w2.
Defined.

Lemma lydict_insert_preserves_witness :
  dict_ok hash0 (lydict_insert hash0 w1 true 1 1 (Some NULL) 3 a0).2.
Proof.
  apply (lydict_insert_preserves hash0 w1 true 1 1 (Some NULL) 3 a0 [x61; x62; x00]).
  - exact dict_ok_w1.
  - intros _. reflexivity.
  - right. reflexivity.
  - by_compute.
  - reflexivity.
Defined.

Lemma lydict_insert_remove_roundtrip_witness :
  exists w1 w2,
    lydict_insert hash0 w0 true 1 0 (Some NULL) 2 a0 = (LY_SUCCESS, Some 2, w1)
    /\ lydict_remove hash0 w1 true 2 a0 = (LY_SUCCESS, w2)
    /\ heap w2 = heap w0.
Proof.
  destruct (lydict_insert_remove_roundtrip hash0 w0 1 0 NULL 2 a0 a0 [x61; x62; x00])
    as (w1 & w2 & H1 & H2 & H3 & H4 & _).
  - exact dict_ok_w0.
  - by_compute.
  - reflexivity.
  - by_compute.
  - reflexivity.
  - by_compute.
  - reflexivity.
  - by_compute.
  - left. by_compute.
  - exists w1, w2. split_and!; [exact H1|exact H2|exact H4].
Defined.

Lemma app_cons_unique {A B} (f : A -> B) (l1 l2 k1 k2 : list A) x y :
  NoDup (f <$> (l1 ++ x :: l2)) -> l1 ++ x :: l2 = k1 ++ y :: k2 ->
  f x = f y -> l1 = k1 /\ x :: l2 = y :: k2.
Proof.
  intros Hnd E Hf. apply app_inj_1; [|done].
  eapply NoDup_lookup; [exact Hnd| |].
  - rewrite list_lookup_fmap, list_lookup_middle by done. done.
  - rewrite E, list_lookup_fmap, list_lookup_middle by done. simpl. by rewrite Hf.
Qed.

Section extras2.
Context (hashf : list byte -> Z).

Lemma dict_ok_nonnull w r :
  dict_ok hashf w -> r ∈ dict_recs (hash_tab w) -> value r <> NULL.
Proof.
  intros [_ (_ & Hok & _)] (e & -> & He)%list_elem_of_fmap.
  rewrite Forall_forall in Hok. by destruct (Hok e He).
Qed.

Lemma dict_insert_trace w vp len sp a :
  trace (dict_insert hashf w vp len sp a).2
  = trace w ++ [LOGDBG (take (Z.to_nat len) (c_str (load (heap w) vp)))].
Proof.
  unfold dict_insert, log. cbn [heap hash_tab trace].
  destruct (lyht_insert_with_resize_cb _ _ _ _ _ _) as [[ret mt] ht1].
  by destruct ret.
Qed.

(** [lydict_insert] of a stored string, then [lydict_remove] of the
    returned pointer (dict.c): for a refcount between 1 and
    [UINT32_MAX - 1] the records of the table, refcounts included, and the
    heap are as before the two calls. *)
Theorem lydict_insert_dup_remove_roundtrip w vp len c vc a a' bs r :
  dict_ok hashf w -> vp <> NULL -> heap w !! vp = Some bs ->
  vc <> NULL -> heap w !! vc = None ->
  x00 ∉ take (Z.to_nat (eff_len bs len)) bs ->
  length (take (Z.to_nat (eff_len bs len)) bs) = Z.to_nat (eff_len bs len) ->
  r ∈ dict_recs (hash_tab w) ->
  rec_str (heap w) r = take (Z.to_nat (eff_len bs len)) bs ->
  1 <= refcount r < UINT32_MAX ->
  exists w1 w2,
    lydict_insert hashf w true vp len (Some c) vc a
    = (LY_SUCCESS, Some (value r), w1)
    /\ lydict_remove hashf w1 true (value r) a' = (LY_SUCCESS, w2)
    /\ dict_ok hashf w2
    /\ heap w2 = heap w
    /\ dict_recs (hash_tab w2) = dict_recs (hash_tab w).
Proof.
  intros Hok Hvp Hbs Hvc Hfresh Hnul Hlen Hr Hrs Hrc.
  pose proof (dict_ok_nonnull w r Hok Hr) as Hnn.
  destruct (lydict_insert_dup hashf w vp len c vc a bs r
              Hok Hvp Hbs Hvc Hfresh Hnul Hlen Hr Hrs)
    as (ht1 & A & B & Heq & Hve & Hinv & HA & HB & Hus).
  match type of Heq with _ = (_, _, ?x) => set (w1 := x) in * end.
  assert (dict_ok hashf w1) as Hok1 by (by split).
  assert (u32 (refcount r + 1) = refcount r + 1) as E1
    by (apply u32_id; unfold UINT32_MAX in *; lia).
  rewrite E1 in HB.
  set (r1 := {| value := value r; refcount := refcount r + 1 |}) in *.
  assert (r1 ∈ dict_recs (hash_tab w1)) as Hr1.
  { unfold w1. cbn [hash_tab]. rewrite HB. apply elem_of_app. right. left. }
  destruct (lydict_remove_found hashf w1 (value r) a' r1 Hok1 Hnn Hr1 eq_refl)
    as (ht2 & A' & B' & Heq2 & Hve2 & Hinv2 & HA' & HB').
  assert (u32 (refcount r1 - 1) = refcount r) as E2.
  { unfold r1. cbn [refcount]. replace (refcount r + 1 - 1) with (refcount r) by lia.
    apply u32_id. unfold UINT32_MAX in *. lia. }
  rewrite E2 in Heq2, Hinv2, HB'.
  rewrite decide_False in Heq2, Hinv2 by lia.
  rewrite decide_False in HB' by lia. destruct HB' as [HB' _].
  unfold w1 in HA'. cbn [hash_tab] in HA'. rewrite HB in HA'.
  destruct (app_cons_unique (rec_str (heap w)) A B A' B' r1 r1) as [-> [= ->]];
    [|done|done|].
  { rewrite <- HB. by destruct Hinv as (_ & _ & ?). }
  match type of Heq2 with _ = (_, ?x) => set (w2 := x) in * end.
  assert (dict_ok hashf w2) as Hok2 by (by split).
  exists w1, w2. split_and!; try done.
  unfold w2. cbn [hash_tab value]. rewrite HB', HA. by destruct r.
Qed.

(** [dict_insert] through [lydict_insert_zc] (dict.c), the error path:
    when the string is not stored and the table has no slot for it, the
    call returns [LY_EMEM], the caller's buffer is freed, the output cell
    is not written and the table is as before. *)
Theorem lydict_insert_zc_table_full w vp c a bs :
  dict_ok hashf w -> vp <> NULL -> heap w !! vp = Some bs ->
  c_str bs ∉ rec_str (heap w) <$> dict_recs (hash_tab w) ->
  lyht_alloc_rec (hash_tab w) (grow_ok a) = None ->
  exists w',
    lydict_insert_zc hashf w true vp (Some c) a = (LY_EMEM, Some c, w')
    /\ hash_tab w' = hash_tab w
    /\ heap w' = free vp (heap w) /\ heap w' !! vp = None.
Proof.
  intros Hok Hvp Hbs Habs Halloc. unfold lydict_insert_zc. cbn [negb].
  rewrite (decide_False (P := Some c = None)) by done.
  rewrite (decide_False (P := vp = NULL)) by done.
  rewrite (dict_insert_nomem hashf (log pthread_mutex_lock w) vp _ (Some c) a bs);
    try done.
  eexists. split; [done|]. cbn [heap hash_tab log].
  split_and!; try done. unfold free. apply lookup_delete_eq.
Qed.

(** [lydict_insert] (dict.c) and [used]: a successful call for a string
    that is not stored raises the number of stored values by one, a call
    for a stored string leaves it. *)
Theorem lydict_insert_used w vp len c vc a bs :
  dict_ok hashf w -> vp <> NULL -> heap w !! vp = Some bs ->
  vc <> NULL -> heap w !! vc = None ->
  x00 ∉ take (Z.to_nat (eff_len bs len)) bs ->
  length (take (Z.to_nat (eff_len bs len)) bs) = Z.to_nat (eff_len bs len) ->
  first_free_rec (hash_tab w) <> LYHT_NO_RECORD
  \/ (grow_ok a = true
      /\ Z.of_nat (length (recs (hash_tab w))) < LYHT_NO_RECORD) ->
  used (hash_tab (lydict_insert hashf w true vp len (Some c) vc a).2)
  = used (hash_tab w)
    + (if decide (take (Z.to_nat (eff_len bs len)) bs
                    ∈ rec_str (heap w) <$> dict_recs (hash_tab w))
       then 0 else 1).
Proof.
  intros Hok Hvp Hbs Hvc Hfresh Hnul Hlen Halloc.
  case_decide as Hin.
  - apply list_elem_of_fmap in Hin as (r & Hrs & Hr).
    destruct (lydict_insert_dup hashf w vp len c vc a bs r
                Hok Hvp Hbs Hvc Hfresh Hnul Hlen Hr (eq_sym Hrs))
      as (ht' & A & B & Heq & Hve & Hinv & HA & HB & Hus).
    rewrite Heq. cbn [snd hash_tab]. lia.
  - destruct (lydict_insert_new hashf w vp len c vc a bs
                Hok Hvp Hbs Hvc Hfresh Hnul Hlen Hin Halloc)
      as (ht' & Heq & Hve & Hinv & Hrecs).
    rewrite Heq. cbn [snd].
    match goal with |- used (hash_tab ?x) = _ => set (w1 := x) end.
    assert (dict_ok hashf w1) as Hok1 by (by split).
    rewrite (dict_ok_used hashf w1 Hok1), (dict_ok_used hashf w Hok).
    unfold w1. cbn [hash_tab]. rewrite Hrecs. cbn [length]. lia.
Qed.

(** [lydict_insert] (dict.c): strings are shared by their effective
    content, whatever buffer and length they come from; a second call
    whose first effective-length bytes equal those of a first successful
    call returns the pointer of the first call, frees its own copy, and
    the record then has refcount 2. *)
Theorem lydict_insert_same_content w vp1 len1 bs1 vc1 a1 c1
    vp2 len2 bs2 vc2 a2 c2 :
  dict_ok hashf w ->
  vp1 <> NULL -> heap w !! vp1 = Some bs1 ->
  vp2 <> NULL -> heap w !! vp2 = Some bs2 ->
  take (Z.to_nat (eff_len bs2 len2)) bs2 = take (Z.to_nat (eff_len bs1 len1)) bs1 ->
  x00 ∉ take (Z.to_nat (eff_len bs1 len1)) bs1 ->
  length (take (Z.to_nat (eff_len bs1 len1)) bs1) = Z.to_nat (eff_len bs1 len1) ->
  length (take (Z.to_nat (eff_len bs2 len2)) bs2) = Z.to_nat (eff_len bs2 len2) ->
  take (Z.to_nat (eff_len bs1 len1)) bs1
    ∉ rec_str (heap w) <$> dict_recs (hash_tab w) ->
  vc1 <> NULL -> heap w !! vc1 = None ->
  vc2 <> NULL -> vc2 <> vc1 -> heap w !! vc2 = None ->
  first_free_rec (hash_tab w) <> LYHT_NO_RECORD
  \/ (grow_ok a1 = true
      /\ Z.of_nat (length (recs (hash_tab w))) < LYHT_NO_RECORD) ->
  exists w1 w2,
    lydict_insert hashf w true vp1 len1 (Some c1) vc1 a1
    = (LY_SUCCESS, Some vc1, w1)
    /\ lydict_insert hashf w1 true vp2 len2 (Some c2) vc2 a2
       = (LY_SUCCESS, Some vc1, w2)
    /\ heap w2 = heap w1
    /\ {| value := vc1; refcount := 2 |} ∈ dict_recs (hash_tab w2).
Proof.
  intros Hok Hvp1 Hbs1 Hvp2 Hbs2 Hsame Hnul Hlen1 Hlen2 Habs
    Hvc1 Hf1 Hvc2 Hne Hf2 Halloc.
  destruct (lydict_insert_new hashf w vp1 len1 c1 vc1 a1 bs1
              Hok Hvp1 Hbs1 Hvc1 Hf1 Hnul Hlen1 Habs Halloc)
    as (ht1 & Heq & Hve & Hinv & Hrecs).
  match type of Heq with _ = (_, _, ?x) => set (w1 := x) in * end.
  assert (dict_ok hashf w1) as Hok1 by (by split).
  assert (heap w1 !! vp2 = Some bs2) as Hbs2'.
  { unfold w1. cbn [heap]. rewrite lookup_insert_ne; [done|]. intros ->. congruence. }
  assert (heap w1 !! vc2 = None) as Hf2'.
  { unfold w1. cbn [heap]. by rewrite lookup_insert_ne. }
  set (r1 := {| value := vc1; refcount := 1 |}).
  assert (r1 ∈ dict_recs (hash_tab w1)) as Hr1.
  { unfold w1. cbn [hash_tab]. rewrite Hrecs. left. }
  assert (rec_str (heap w1) r1 = take (Z.to_nat (eff_len bs2 len2)) bs2) as Hrs1.
  { unfold rec_str, load, w1, r1. cbn [heap value]. rewrite lookup_insert_eq.
    cbn [default from_option id]. rewrite Hsame. by apply c_str_app_nul. }
  rewrite <- Hsame in Hnul.
  destruct (lydict_insert_dup hashf w1 vp2 len2 c2 vc2 a2 bs2 r1
              Hok1 Hvp2 Hbs2' Hvc2 Hf2' Hnul Hlen2 Hr1 Hrs1)
    as (ht2 & A & B & Heq2 & Hve2 & Hinv2 & HA & HB & Hus).
  exists w1. eexists. split; [done|]. split; [exact Heq2|].
  cbn [heap hash_tab]. split; [done|].
  rewrite HB. apply elem_of_app. right. left.
Qed.

(** [lydict_insert] and [lydict_insert_zc] (dict.c) on every path: the
    events of a call are nothing, one argument error, one memory error,
    or taking the lock, the debug message of [dict_insert] and releasing
    the lock: a lock that is taken is released before the call returns. *)
Theorem lydict_insert_lock_released w ctx vp len sp vc a :
  (exists evs,
     trace (lydict_insert hashf w ctx vp len sp vc a).2 = trace w ++ evs
     /\ (evs = [] \/ evs = [LOGARG] \/ evs = [LOGMEM]
         \/ exists s, evs = [pthread_mutex_lock; LOGDBG s;
                             pthread_mutex_unlock]))
  /\ (exists evs,
        trace (lydict_insert_zc hashf w ctx vp sp a).2 = trace w ++ evs
        /\ (evs = [] \/ evs = [LOGARG]
            \/ exists s, evs = [pthread_mutex_lock; LOGDBG s;
                                pthread_mutex_unlock])).
Proof.
  split.
  - unfold lydict_insert.
    destruct ctx; cbn [negb]; [|exists [LOGARG]; split; [done|auto]].
    case_decide; [exists [LOGARG]; split; [done|auto]|].
    case_decide; [exists []; split; [by rewrite app_nil_r|auto]|].
    case_decide; [exists [LOGMEM]; split; [done|auto]|].
    match goal with
    | |- context [dict_insert ?h ?W ?p ?l ?s ?al] =>
        pose proof (dict_insert_trace W p l s al) as Ht;
        destruct (dict_insert h W p l s al) as [[res out] w']
    end.
    cbn [snd log trace heap hash_tab] in *. rewrite Ht.
    eexists. split; [by rewrite <- !(assoc_L (++))|].
    right. right. right. by eexists.
  - unfold lydict_insert_zc.
    destruct ctx; cbn [negb]; [|exists [LOGARG]; split; [done|auto]].
    case_decide; [exists [LOGARG]; split; [done|auto]|].
    case_decide; [exists []; split; [by rewrite app_nil_r|auto]|].
    match goal with
    | |- context [dict_insert ?h ?W ?p ?l ?s ?al] =>
        pose proof (dict_insert_trace W p l s al) as Ht;
        destruct (dict_insert h W p l s al) as [[res out] w']
    end.
    cbn [snd log trace heap hash_tab] in *. rewrite Ht.
    eexists. split; [by rewrite <- !(assoc_L (++))|].
    right. right. by eexists.
Qed.
End extras2.

Lemma lydict_insert_dup_remove_roundtrip_witness :
  exists w1' w2',
    lydict_insert hash0 w1 true 1 0 (Some NULL) 3 a0 = (LY_SUCCESS, Some 2, w1')
    /\ lydict_remove hash0 w1' true 2 a0 = (LY_SUCCESS, w2')
    /\ dict_recs (hash_tab w2') = dict_recs (hash_tab w1).
Proof.
  destruct (lydict_insert_dup_remove_roundtrip hash0 w1 1 0 NULL 3 a0 a0
              [x61; x62; x00] {| value := 2; refcount := 1 |})
    as (w1' & w2' & H1 & H2 & H3 & H4 & H5).
  - exact dict_ok_w1.
  - by_compute.
  - reflexivity.
  - by_compute.
  - reflexivity.
  - by_compute.
  - reflexivity.
  - by_compute.
  - reflexivity.
  - by_compute.
  - exists w1', w2'. split_and!; [exact H1|exact H2|exact H5].
Defined.

Lemma lydict_insert_zc_table_full_witness :
  exists w',
    lydict_insert_zc hash0
      {| heap := heap w0;
         hash_tab := set_first_free_rec LYHT_NO_RECORD ht0; trace := [] |}
      true 1 (Some NULL) {| grow_ok := false; resize_ok := true |}
    = (LY_EMEM, Some NULL, w')
    /\ heap w' !! 1 = None.
Proof.
  destruct (lydict_insert_zc_table_full hash0
              {| heap := heap w0;
                 hash_tab := set_first_free_rec LYHT_NO_RECORD ht0; trace := [] |}
              1 NULL {| grow_ok := false; resize_ok := true |} [x61; x62; x00])
    as (w' & H1 & H2 & H3 & H4).
  - split; [reflexivity|]. by_compute.
  - by_compute.
  - reflexivity.
  - by_compute.
  - reflexivity.
  - exists w'. split; [exact H1|exact H4].
Defined.

Lemma lydict_insert_used_witness :
  used (hash_tab (lydict_insert hash0 w1 true 1 1 (Some NULL) 3 a0).2)
  = used (hash_tab w1)
    + (if decide (take (Z.to_nat (eff_len [x61; x62; x00] 1)) [x61; x62; x00]
                    ∈ rec_str (heap w1) <$> dict_recs (hash_tab w1))
       then 0 else 1).
Proof.
  apply (lydict_insert_used hash0 w1 1 1 NULL 3 a0 [x61; x62; x00]).
  - exact dict_ok_w1.
  - by_compute.
  - reflexivity.
  - by_compute.
  - reflexivity.
  - by_compute.
  - reflexivity.
  - left. by_compute.
Defined.

Lemma lydict_insert_same_content_witness :
  exists w1' w2',
    lydict_insert hash0 w0 true 1 1 (Some NULL) 2 a0 = (LY_SUCCESS, Some 2, w1')
    /\ lydict_insert hash0 w1' true 1 1 (Some NULL) 3 a0
       = (LY_SUCCESS, Some 2, w2')
    /\ {| value := 2; refcount := 2 |} ∈ dict_recs (hash_tab w2').
Proof.
  destruct (lydict_insert_same_content hash0 w0 1 1 [x61; x62; x00] 2 a0 NULL
              1 1 [x61; x62; x00] 3 a0 NULL)
    as (w1' & w2' & H1 & H2 & H3 & H4).
  - exact dict_ok_w0.
  - by_compute.
  - reflexivity.
  - by_compute.
  - reflexivity.
  - reflexivity.
  - by_compute.
  - reflexivity.
  - reflexivity.
  - by_compute.
  - by_compute.
  - reflexivity.
  - by_compute.
  - by_compute.
  - reflexivity.
  - left. by_compute.
  - exists w1', w2'. split_and!; [exact H1|exact H2|exact H4].
Defined.

Section extras3.
Context (hashf : list byte -> Z).


(** [lydict_insert_zc] (dict.c) on every path: for a buffer that no
    record of the table owns, the invariant of the dictionary is kept
    and the result is [LY_SUCCESS], [LY_EMEM] or [LY_EINVAL]. *)
Theorem lydict_insert_zc_preserves w ctx vp sp a bs :
  dict_ok hashf w ->
  (vp <> NULL -> heap w !! vp = Some bs) ->
  Forall (fun q => value q <> vp) (dict_recs (hash_tab w)) ->
  dict_ok hashf (lydict_insert_zc hashf w ctx vp sp a).2
  /\ ((lydict_insert_zc hashf w ctx vp sp a).1.1 = LY_SUCCESS
      \/ (lydict_insert_zc hashf w ctx vp sp a).1.1 = LY_EMEM
      \/ (lydict_insert_zc hashf w ctx vp sp a).1.1 = LY_EINVAL).
Proof.
  intros Hok Hbs Hno.
  destruct ctx; [|split; [by apply dict_ok_log|by right; right]].
  destruct sp as [c|]; [|split; [by apply dict_ok_log|by right; right]].
  destruct (decide (vp = NULL)) as [->|Hvp]; [split; [done|by left]|].
  specialize (Hbs Hvp).
  destruct (decide (c_str bs ∈ rec_str (heap w) <$> dict_recs (hash_tab w)))
    as [Hin|Habs].
  - apply list_elem_of_fmap in Hin as (r & Hrs & Hr).
    destruct (lydict_insert_zc_dup hashf w vp c a bs r Hok Hvp Hbs Hr
                (eq_sym Hrs) Hno)
      as (ht' & A & B & Heq & Hve & Hinv & _).
    rewrite Heq. split; [by split|by left].
  - destruct (lyht_alloc_rec (hash_tab w) (grow_ok a)) as [x|] eqn:Ea.
    + destruct (lydict_insert_zc_new hashf w vp c a bs Hok Hvp Hbs Habs
                  (alloc_Some _ _ _ Ea))
        as (ht' & Heq & Hve & Hinv & _).
      rewrite Heq. split; [by split|by left].
    + unfold lydict_insert_zc. cbn [negb].
      rewrite (decide_False (P := Some c = None)) by done.
      rewrite (decide_False (P := vp = NULL)) by done.
      rewrite (dict_insert_nomem hashf (log pthread_mutex_lock w) vp _ (Some c) a bs);
        try done.
      cbn [fst snd log heap hash_tab trace]. split; [|by right; left].
      destruct Hok as [Hve Hinv]. split; [done|]. cbn [heap hash_tab].
      eapply dict_inv_heap; [exact Hinv|]. intros q Hq.
      unfold free. apply lookup_delete_ne. rewrite Forall_forall in Hno.
      intros E. by apply (Hno q Hq).
Qed.
End extras3.

Lemma lydict_insert_zc_preserves_witness :
  dict_ok hash0 (lydict_insert_zc hash0 w1 true 1 (Some NULL) a0).2.
Proof.
  apply (lydict_insert_zc_preserves hash0 w1 true 1 (Some NULL) a0 [x61; x62; x00]).
  - exact dict_ok_w1.
  - intros _. reflexivity.
  - by_compute.
Defined.
